(** * Json_Converter: the schema-processing core of [server.py]

    A shallow embedding of the functions of [server.py] that carry the
    design content of the program:

    - [load_schema]             (lines 7-17)
    - [resolve_ref]             (lines 19-36)
    - [resolve_schema_refs]     (lines 38-58)
    - [validate_against_schema] (lines 410-435)
    - [validate_field_value]    (lines 437-473)
    - [handle_validation]       (lines 502-544)
    - [parse_nested_form_data]  (lines 546-569)

    The values that come out of [json.load] are modelled by the inductive
    type [json], the values the form decoder and the assembler build (a
    [str], or a [dict] of such values) by [form]; a [dict] is an
    association list in insertion order, which is the order [items()]
    iterates in.  A [str] is a string of 8-bit characters.  Python
    exceptions are an explicit outcome.  The one recursive function,
    [resolve_schema_refs], is given twice: as the function itself, with
    a budget on the referents entered one inside the other (the
    recursion on the parts of the argument being structural), and as the
    function run by the interpreter, whose recursion limit bounds every
    nested call and ends the run with [RecursionError]
    ([resolve_within]); what the second returns, the first returns
    ([resolve_within_ret]).  Output written with [print] is not part of
    the model, except in [load_schema] where it is the subject of a
    property, and in [handle_validation] where printing the assembled
    data can raise.  The
    functions of Python's library that the code calls on strings
    ([re.match], [int], [float], [repr]) are parameters of the validator,
    gathered in [pylib]. *)

From Stdlib Require Import List String Ascii Bool Arith ZArith QArith Lia.
From Stdlib Require Import DecimalString Permutation.
Import ListNotations.

Local Close Scope Q_scope.
Local Open Scope string_scope.
Local Open Scope list_scope.

(* ================================================================== *)
(** ** Python values *)

(** A Python [float].  A finite float is represented by the rational it
    denotes; comparisons between [int] and [float] are exact in Python, and
    so are they here. *)
Inductive pyfloat : Type :=
| FNan
| FInf (negative : bool)
| FFin (q : Q).

Unset Elimination Schemes.

(** The values [json.load] produces: [None], [bool], [int], [float],
    [str], [list] and [dict] with [str] keys. *)
Inductive json : Type :=
| JNull
| JBool (b : bool)
| JInt (z : Z)
| JFloat (f : pyfloat)
| JStr (s : string)
| JArr (items : list json)
| JObj (entries : list (string * json)).

Set Elimination Schemes.

(** Induction over the nesting of arrays and objects. *)
Section JsonInd.
Variable P : json -> Prop.
Hypothesis Hnull : P JNull.
Hypothesis Hbool : forall b, P (JBool b).
Hypothesis Hint : forall z, P (JInt z).
Hypothesis Hfloat : forall f, P (JFloat f).
Hypothesis Hstr : forall s, P (JStr s).
Hypothesis Harr : forall l, Forall P l -> P (JArr l).
Hypothesis Hobj : forall d, Forall (fun kv => P (snd kv)) d -> P (JObj d).

Fixpoint json_ind (j : json) : P j :=
  match j with
  | JNull => Hnull
  | JBool b => Hbool b
  | JInt z => Hint z
  | JFloat f => Hfloat f
  | JStr s => Hstr s
  | JArr l =>
      Harr l ((fix all (l : list json) : Forall P l :=
               match l with
               | [] => Forall_nil _
               | x :: xs => Forall_cons x (json_ind x) (all xs)
               end) l)
  | JObj d =>
      Hobj d ((fix all (d : list (string * json))
               : Forall (fun kv => P (snd kv)) d :=
               match d with
               | [] => Forall_nil _
               | kv :: rest =>
                   Forall_cons (P := fun kv => P (snd kv)) kv
                     (json_ind (snd kv)) (all rest)
               end) d)
  end.
End JsonInd.

(* ------------------------------------------------------------------ *)
(** *** Exceptions and outcomes *)

Inductive exn : Type :=
| AttributeError
| TypeError
| KeyError
| ReError
| RecursionError.

(** What a call does: it returns, it raises, or it is still recursing
    when the budget of nested calls it was given is used up. *)
Inductive outcome (A : Type) : Type :=
| Ret (a : A)
| Raise (e : exn)
| OutOfFuel.

Arguments Ret {A} a.
Arguments Raise {A} e.
Arguments OutOfFuel {A}.

Definition bind {A B} (m : outcome A) (k : A -> outcome B) : outcome B :=
  match m with
  | Ret a => k a
  | Raise e => Raise e
  | OutOfFuel => OutOfFuel
  end.

Declare Scope outcome_scope.
Delimit Scope outcome_scope with outcome.
Notation "x <- m ;; k" := (bind m (fun x => k))
  (at level 61, m at next level, right associativity) : outcome_scope.
Local Open Scope outcome_scope.

(** A loop that calls [f] on every element in order and stops at the
    first call that does not return. *)
Definition mapM {A B} (f : A -> outcome B) : list A -> outcome (list B) :=
  fix go (l : list A) : outcome (list B) :=
    match l with
    | [] => Ret []
    | x :: xs => y <- f x ;; ys <- go xs ;; Ret (y :: ys)
    end.

(* ------------------------------------------------------------------ *)
(** *** Dictionaries *)

(** [key in d] and [d[key]] for a [str] key. *)
Fixpoint dict_get {V} (key : string) (d : list (string * V)) : option V :=
  match d with
  | [] => None
  | (k, v) :: rest => if String.eqb key k then Some v else dict_get key rest
  end.

Definition dict_mem {V} (key : string) (d : list (string * V)) : bool :=
  match dict_get key d with Some _ => true | None => false end.

(** [d[key] = v]: replaces the value of a key that is present, where it
    stands, and appends a new key at the end. *)
Fixpoint dict_set {V} (key : string) (v : V) (d : list (string * V))
  : list (string * V) :=
  match d with
  | [] => [(key, v)]
  | (k, w) :: rest =>
      if String.eqb key k then (k, v) :: rest
      else (k, w) :: dict_set key v rest
  end.

(** [d.get(key, default)] *)
Definition get_default {V} (key : string) (default : V)
  (d : list (string * V)) : V :=
  match dict_get key d with
  | Some v => v
  | None => default
  end.

(** [v == 'literal'] *)
Definition py_eq_str (v : json) (literal : string) : bool :=
  match v with
  | JStr s => String.eqb s literal
  | _ => false
  end.

(** Truth value of a Python object, as [if x:] tests it. *)
Definition float_is_zero (f : pyfloat) : bool :=
  match f with
  | FFin q => Qeq_bool q 0
  | _ => false
  end.

Definition truthy (v : json) : bool :=
  match v with
  | JNull => false
  | JBool b => b
  | JInt z => negb (Z.eqb z 0)
  | JFloat f => negb (float_is_zero f)
  | JStr s => negb (String.eqb s "")
  | JArr l => match l with [] => false | _ => true end
  | JObj d => match d with [] => false | _ => true end
  end.

(* ------------------------------------------------------------------ *)
(** *** Strings *)

(** [s.split(sep)] for a separator of one character. *)
Fixpoint split_on (sep : ascii) (s : string) : list string :=
  match s with
  | EmptyString => [EmptyString]
  | String c s' =>
      if Ascii.eqb c sep then EmptyString :: split_on sep s'
      else match split_on sep s' with
           | [] => [String c EmptyString]
           | p :: ps => String c p :: ps
           end
  end.

(** [s[n:]] *)
Fixpoint str_drop (n : nat) (s : string) : string :=
  match n, s with
  | O, _ => s
  | S n', String _ s' => str_drop n' s'
  | S _, EmptyString => EmptyString
  end.

(** [c in s] for a character [c]. *)
Fixpoint str_has_char (c : ascii) (s : string) : bool :=
  match s with
  | EmptyString => false
  | String x s' => Ascii.eqb x c || str_has_char c s'
  end.

(** [sub in s] for strings. *)
Fixpoint str_contains (sub s : string) : bool :=
  String.prefix sub s ||
  match s with
  | EmptyString => false
  | String _ s' => str_contains sub s'
  end.

(* ================================================================== *)
(** ** RefResolver *)

(** The [for part in path_parts] loop of [resolve_ref]: [None] is the
    early [return None] of a failed segment, [Some v] the value the loop
    ends on. *)
Fixpoint lookup_parts (path_parts : list string) (current : json)
  : option json :=
  match path_parts with
  | [] => Some current
  | part :: rest =>
      match current with
      | JObj d =>
          match dict_get part d with
          | Some v => lookup_parts rest v
          | None => None
          end
      | _ => None
      end
  end.

(** [resolve_ref(ref_path, schema)].  The function returns Python's [None]
    both when the lookup fails and when the pointer is external; [None] is
    also what a pointer to a JSON [null] yields.  A [ref_path] that is not
    a [str] has no [startswith]. *)
Definition resolve_ref (ref_path : json) (schema : json) : outcome json :=
  match ref_path with
  | JStr p =>
      if String.prefix "#/" p then
        match lookup_parts (split_on "/" (str_drop 2 p)) schema with
        | Some current => Ret current
        | None => Ret JNull
        end
      else Ret JNull
  | _ => Raise AttributeError
  end.

(** The body of [resolve_schema_refs], with the recursive call made on a
    referent ([return resolve_schema_refs(resolved, full_schema)]) passed
    as [on_referent]; the calls on the entries of a container are on parts
    of the argument and are structural. *)
Section ResolveBody.
Variable full_schema : json.
Variable on_referent : json -> outcome json.

Fixpoint resolve_body (schema_part : json) : outcome json :=
  match schema_part with
  | JObj d =>
      match dict_get "$ref" d with
      | Some ref =>
          resolved <- resolve_ref ref full_schema ;;
          if truthy resolved then on_referent resolved
          else Ret schema_part
      | None =>
          result <- mapM (fun kv =>
                            v <- resolve_body (snd kv) ;;
                            Ret (fst kv, v)) d ;;
          Ret (JObj result)
      end
  | JArr l =>
      items <- mapM resolve_body l ;;
      Ret (JArr items)
  | _ => Ret schema_part
  end.
End ResolveBody.

(** [resolve_schema_refs(schema_part, full_schema)].  [fuel] bounds how
    many referents may be entered one inside the other; the code itself
    has no such bound, so what the code returns is what the function
    returns under a budget that is large enough, when there is one.
    Whether the interpreter lets the run get that far is another matter:
    its recursion limit bounds every nested call, and the function run
    under that limit is [resolve_within] below. *)
Fixpoint resolve_schema_refs (fuel : nat) (schema_part full_schema : json)
  : outcome json :=
  match fuel with
  | O => resolve_body full_schema (fun _ => OutOfFuel) schema_part
  | S fuel' =>
      resolve_body full_schema
        (fun resolved => resolve_schema_refs fuel' resolved full_schema)
        schema_part
  end.

(** What is done with a referent when [fuel] nested referents may still
    be entered. *)
Definition on_referent_at (fuel : nat) (full : json) : json -> outcome json :=
  match fuel with
  | O => fun _ => OutOfFuel
  | S fuel' => fun resolved => resolve_schema_refs fuel' resolved full
  end.

(** *** The interpreter's bound on nested calls

    CPython opens a frame for every call and raises [RecursionError] when
    more frames are open than its recursion limit allows.  Every call
    that [resolve_schema_refs] makes on itself opens a frame inside the
    frame of the caller: the call on a referent (line 46) as well as the
    calls on the values of a dictionary (line 53) and on the items of a
    list (line 56).

    [resolve_call] is the body of the function with every one of these
    calls passed as [nested]. *)
Definition resolve_call (full_schema : json) (nested : json -> outcome json)
  (schema_part : json) : outcome json :=
  match schema_part with
  | JObj d =>
      match dict_get "$ref" d with
      | Some ref =>
          resolved <- resolve_ref ref full_schema ;;
          if truthy resolved then nested resolved
          else Ret schema_part
      | None =>
          result <- mapM (fun kv =>
                            v <- nested (snd kv) ;;
                            Ret (fst kv, v)) d ;;
          Ret (JObj result)
      end
  | JArr l =>
      items <- mapM nested l ;;
      Ret (JArr items)
  | _ => Ret schema_part
  end.

(** [resolve_schema_refs(schema_part, full_schema)] run where the
    recursion limit leaves room for [limit] more calls of the function,
    one inside the other, below the call at hand (room for a call being
    room for its frame and, for a call made from the comprehension of
    line 56, for the frame of the comprehension): a call made when no
    room is left raises [RecursionError].  The function is total: under
    every limit it returns or raises. *)
Fixpoint resolve_within (limit : nat) (schema_part full_schema : json)
  : outcome json :=
  resolve_call full_schema
    (match limit with
     | O => fun _ => Raise RecursionError
     | S limit' => fun part => resolve_within limit' part full_schema
     end)
    schema_part.

(** A call of the function made from inside a call that has room for
    [limit] more. *)
Definition nested_call (limit : nat) (full : json) : json -> outcome json :=
  match limit with
  | O => fun _ => Raise RecursionError
  | S limit' => fun part => resolve_within limit' part full
  end.

(** How deep the deepest entry of [v] stands in it: the number of calls,
    one inside the other, that a walk from [v] down to that entry makes
    below the call on [v]. *)
Fixpoint height (v : json) : nat :=
  match v with
  | JArr l => list_max (map (fun x => S (height x)) l)
  | JObj d => list_max (map (fun kv => S (height (snd kv))) d)
  | _ => 0
  end.

(* ================================================================== *)
(** ** NestedDataAssembler *)

(** What the form decoder and [parse_nested_form_data] build: [str]
    leaves and [dict]s of them. *)
Unset Elimination Schemes.

Inductive form : Type :=
| FStr (s : string)
| FMap (entries : list (string * form)).

Set Elimination Schemes.

Section FormInd.
Variable P : form -> Prop.
Hypothesis Hleaf : forall s, P (FStr s).
Hypothesis Hmap : forall d, Forall (fun kv => P (snd kv)) d -> P (FMap d).

Fixpoint form_ind (t : form) : P t :=
  match t with
  | FStr s => Hleaf s
  | FMap d =>
      Hmap d ((fix all (d : list (string * form))
               : Forall (fun kv => P (snd kv)) d :=
               match d with
               | [] => Forall_nil _
               | kv :: rest =>
                   Forall_cons (P := fun kv => P (snd kv)) kv
                     (form_ind (snd kv)) (all rest)
               end) d)
  end.
End FormInd.

(** The descent of [parse_nested_form_data] along [parts[:-1]], followed
    by [current[final_key] = value].  [current] is the object the variable
    of that name refers to; the assignments mutate it in place, so the
    updated object is put back where it was found; a segment that is
    absent is set to [{}] at the end of the dictionary and descended
    into.  When [current] is a [str], [current[part] = {}],
    [current[part]] and [current[final_key] = value] all raise
    [TypeError]. *)
Fixpoint set_path (init : list string) (final_key : string) (value : string)
  (current : form) : outcome form :=
  match current with
  | FStr _ => Raise TypeError
  | FMap d =>
      match init with
      | [] => Ret (FMap (dict_set final_key (FStr value) d))
      | part :: rest =>
          let child := match dict_get part d with
                       | Some c => c
                       | None => FMap []
                       end in
          child' <- set_path rest final_key value child ;;
          Ret (FMap (dict_set part child' d))
      end
  end.

(** One turn of the [for key, value in flat_data.items()] loop. *)
Definition assign_key (nested_data : form) (kv : string * string)
  : outcome form :=
  let (key, value) := kv in
  if str_has_char "." key then
    let parts := split_on "." key in
    set_path (removelast parts) (last parts "") value nested_data
  else
    set_path [] key value nested_data.

Definition foldM {A B} (f : A -> B -> outcome A) : list B -> A -> outcome A :=
  fix go (l : list B) (a : A) : outcome A :=
    match l with
    | [] => Ret a
    | x :: xs => a' <- f a x ;; go xs a'
    end.

(** [parse_nested_form_data(flat_data)] *)
Definition parse_nested_form_data (flat_data : list (string * string))
  : outcome form :=
  foldM assign_key flat_data (FMap []).

(** The assembly as the specification words it: no failure, a segment
    that is absent or holds a leaf is replaced by an empty nested map
    before it is descended into, and the final segment is set as a leaf. *)
Fixpoint assemble_path (init : list string) (final_key : string)
  (value : string) (level : list (string * form)) : list (string * form) :=
  match init with
  | [] => dict_set final_key (FStr value) level
  | segment :: rest =>
      let below := match dict_get segment level with
                   | Some (FMap m) => m
                   | _ => []
                   end in
      dict_set segment (FMap (assemble_path rest final_key value below)) level
  end.

Definition assemble_key (level : list (string * form)) (kv : string * string)
  : list (string * form) :=
  if str_has_char "." (fst kv) then
    let parts := split_on "." (fst kv) in
    assemble_path (removelast parts) (last parts "") (snd kv) level
  else
    dict_set (fst kv) (FStr (snd kv)) level.

Definition assemble (flat : list (string * string)) : list (string * form) :=
  fold_left assemble_key flat [].

(** Lookup of a dotted path in an assembled tree. *)
Fixpoint get_path (path : list string) (t : form) : option form :=
  match path with
  | [] => Some t
  | part :: rest =>
      match t with
      | FMap d =>
          match dict_get part d with
          | Some c => get_path rest c
          | None => None
          end
      | FStr _ => None
      end
  end.

(** [prefix_of p q]: [p] is an initial segment of [q]. *)
Fixpoint prefix_of (p q : list string) : bool :=
  match p, q with
  | [], _ => true
  | x :: p', y :: q' => String.eqb x y && prefix_of p' q'
  | _ :: _, [] => false
  end.

(** Two keys collide when the segments of one are an initial segment of
    the segments of the other (the keys of a [dict] being distinct, this
    covers one key naming a group that the other names a leaf). *)
Definition collide (k1 k2 : string) : bool :=
  prefix_of (split_on "." k1) (split_on "." k2)
  || prefix_of (split_on "." k2) (split_on "." k1).

Fixpoint collision_free (keys : list string) : bool :=
  match keys with
  | [] => true
  | k :: rest =>
      forallb (fun k' => negb (collide k k')) rest && collision_free rest
  end.

(** [a == b] on assembled data: dictionaries are equal when they have the
    same keys with equal values, in whatever order. *)
Fixpoint form_eqb (a b : form) : bool :=
  match a, b with
  | FStr s, FStr t => String.eqb s t
  | FMap d1, FMap d2 =>
      Nat.eqb (List.length d1) (List.length d2)
      && forallb (fun kv =>
                    match dict_get (fst kv) d2 with
                    | Some w => form_eqb (snd kv) w
                    | None => false
                    end) d1
  | _, _ => false
  end.

(** No leaf stands on the way down [init]: the condition under which the
    descent of [parse_nested_form_data] goes through. *)
Fixpoint no_leaf_on (init : list string) (t : form) : bool :=
  match t with
  | FStr _ => false
  | FMap d =>
      match init with
      | [] => true
      | part :: rest =>
          match dict_get part d with
          | Some c => no_leaf_on rest c
          | None => true
          end
      end
  end.

(** What a path holds in a tree: nothing, a nested map or a leaf. *)
Inductive kind : Type :=
| Absent
| Group
| Leaf (s : string).

Definition kind_at (path : list string) (t : form) : kind :=
  match get_path path t with
  | None => Absent
  | Some (FMap _) => Group
  | Some (FStr s) => Leaf s
  end.

(** The keys of every dictionary of the tree are distinct. *)
Fixpoint distinct_keys (t : form) : Prop :=
  match t with
  | FStr _ => True
  | FMap d =>
      NoDup (map fst d)
      /\ (fix all (d : list (string * form)) : Prop :=
            match d with
            | [] => True
            | kv :: rest => distinct_keys (snd kv) /\ all rest
            end) d
  end.

(* ================================================================== *)
(** ** Validator *)

(** The functions of Python's library the validator calls: [re.match]
    (compilation of the pattern, which raises [re.error] on a malformed
    one, then the match at position 0), [int(s)] and [float(s)] on a [str]
    ([None] is [ValueError]), and [repr] of a float or a container. *)
Record pylib : Type := {
  regex : Type;
  re_compile : string -> option regex;
  re_match : regex -> string -> bool;
  py_int : string -> option Z;
  py_float : string -> option pyfloat;
  py_repr : json -> string
}.

Definition string_of_Z (z : Z) : string := NilZero.string_of_int (Z.to_int z).

(** Numbers as [<] and [>] see them; a [bool] is an [int]. *)
Definition as_num (v : json) : option pyfloat :=
  match v with
  | JInt z => Some (FFin (inject_Z z))
  | JBool b => Some (FFin (if b then 1 else 0))
  | JFloat f => Some f
  | _ => None
  end.

Definition float_ltb (a b : pyfloat) : bool :=
  match a, b with
  | FNan, _ | _, FNan => false
  | FInf true, FInf true => false
  | FInf true, _ => true
  | _, FInf true => false
  | FInf false, _ => false
  | FFin _, FInf false => true
  | FFin x, FFin y => negb (Qle_bool y x)
  end.

(** [a < b] and [a > b] for a number [a] and a schema value [b]; other
    operands than numbers are a [TypeError]. *)
Definition py_lt (a : pyfloat) (b : json) : outcome bool :=
  match as_num b with
  | Some y => Ret (float_ltb a y)
  | None => Raise TypeError
  end.

Definition py_gt (a : pyfloat) (b : json) : outcome bool :=
  match as_num b with
  | Some y => Ret (float_ltb y a)
  | None => Raise TypeError
  end.

(** [len(value)] *)
Definition form_len (value : form) : Z :=
  match value with
  | FStr s => Z.of_nat (String.length s)
  | FMap d => Z.of_nat (List.length d)
  end.

(** Truth value of a submitted value. *)
Definition form_truthy (value : form) : bool :=
  match value with
  | FStr s => negb (String.eqb s "")
  | FMap d => match d with [] => false | _ => true end
  end.

(** [value == x] for a submitted value and a schema value. *)
Fixpoint form_eq_json (value : form) (x : json) : bool :=
  match value, x with
  | FStr s, JStr t => String.eqb s t
  | FMap d, JObj o =>
      Nat.eqb (List.length d) (List.length o)
      && forallb (fun kv =>
                    match dict_get (fst kv) o with
                    | Some w => form_eq_json (snd kv) w
                    | None => false
                    end) d
  | _, _ => false
  end.

Definition chars_of (s : string) : list string :=
  map (fun c => String c EmptyString) (list_ascii_of_string s).

(** [value in container] *)
Definition form_in (value : form) (container : json) : outcome bool :=
  match container with
  | JArr l => Ret (existsb (form_eq_json value) l)
  | JObj d =>
      match value with
      | FStr s => Ret (dict_mem s d)
      | FMap _ => Raise TypeError
      end
  | JStr t =>
      match value with
      | FStr s => Ret (str_contains s t)
      | FMap _ => Raise TypeError
      end
  | _ => Raise TypeError
  end.

(** [', '.join(x)] *)
Fixpoint all_str (l : list json) : option (list string) :=
  match l with
  | [] => Some []
  | JStr s :: rest => option_map (cons s) (all_str rest)
  | _ :: _ => None
  end.

Definition py_join (sep : string) (x : json) : outcome string :=
  match x with
  | JArr l =>
      match all_str l with
      | Some ss => Ret (String.concat sep ss)
      | None => Raise TypeError
      end
  | JObj d => Ret (String.concat sep (map fst d))
  | JStr s => Ret (String.concat sep (chars_of s))
  | _ => Raise TypeError
  end.

Definition EMAIL_PATTERN : string :=
  "^[a-zA-Z0-9._%+-]+@[a-zA-Z0-9.-]+\.[a-zA-Z]{2,}$".

Definition min_length_msg (field_name bound : string) : string :=
  "'" ++ field_name ++ "' must be at least " ++ bound ++ " characters".
Definition max_length_msg (field_name bound : string) : string :=
  "'" ++ field_name ++ "' must be at most " ++ bound ++ " characters".
Definition pattern_msg (field_name : string) : string :=
  "'" ++ field_name ++ "' does not match required pattern".
Definition enum_msg (field_name allowed : string) : string :=
  "'" ++ field_name ++ "' must be one of: " ++ allowed.
Definition email_msg (field_name : string) : string :=
  "'" ++ field_name ++ "' must be a valid email".
Definition minimum_msg (field_name bound : string) : string :=
  "'" ++ field_name ++ "' must be at least " ++ bound.
Definition maximum_msg (field_name bound : string) : string :=
  "'" ++ field_name ++ "' must be at most " ++ bound.
Definition coercion_msg (field_name field_type : string) : string :=
  "'" ++ field_name ++ "' must be a valid " ++ field_type.
Definition required_msg (field : string) : string :=
  "Field '" ++ field ++ "' is required".

Section Validator.
Variable L : pylib.

(** [str(x)] as an f-string inserts it. *)
Definition py_str (x : json) : string :=
  match x with
  | JNull => "None"
  | JBool true => "True"
  | JBool false => "False"
  | JInt z => string_of_Z z
  | JStr s => s
  | _ => py_repr L x
  end.

(** [re.match(pattern, value)], as a truth value. *)
Definition py_re_match (pattern : json) (value : form) : outcome bool :=
  match pattern with
  | JStr p =>
      match re_compile L p with
      | Some r =>
          match value with
          | FStr s => Ret (re_match L r s)
          | FMap _ => Raise TypeError
          end
      | None => Raise ReError
      end
  | _ => Raise TypeError
  end.

(** [int(value)] and [float(value)]: [Ret None] is the [ValueError]
    that the [except] clause catches. *)
Definition coerce (integer : bool) (value : form)
  : outcome (option pyfloat) :=
  match value with
  | FStr s =>
      if integer
      then Ret (option_map (fun n => FFin (inject_Z n)) (py_int L s))
      else Ret (py_float L s)
  | FMap _ => Raise TypeError
  end.

(** The checks of the [if field_type == 'string':] branch, in the order
    of the code: [minLength], [maxLength], [pattern], [enum], [format]. *)
Definition check_min_length (field_name : string) (value : form)
  (fs : list (string * json)) : outcome (list string) :=
  match dict_get "minLength" fs with
  | Some m =>
      lt <- py_lt (FFin (inject_Z (form_len value))) m ;;
      Ret (if lt : bool then [min_length_msg field_name (py_str m)] else [])
  | None => Ret []
  end.

Definition check_max_length (field_name : string) (value : form)
  (fs : list (string * json)) : outcome (list string) :=
  match dict_get "maxLength" fs with
  | Some m =>
      gt <- py_gt (FFin (inject_Z (form_len value))) m ;;
      Ret (if gt : bool then [max_length_msg field_name (py_str m)] else [])
  | None => Ret []
  end.

Definition check_pattern (field_name : string) (value : form)
  (fs : list (string * json)) : outcome (list string) :=
  match dict_get "pattern" fs with
  | Some p =>
      ok <- py_re_match p value ;;
      Ret (if ok : bool then [] else [pattern_msg field_name])
  | None => Ret []
  end.

Definition check_enum (field_name : string) (value : form)
  (fs : list (string * json)) : outcome (list string) :=
  match dict_get "enum" fs with
  | Some allowed =>
      found <- form_in value allowed ;;
      if found : bool then Ret []
      else
        joined <- py_join ", " allowed ;;
        Ret [enum_msg field_name joined]
  | None => Ret []
  end.

Definition check_format (field_name : string) (value : form)
  (fs : list (string * json)) : outcome (list string) :=
  if py_eq_str (get_default "format" JNull fs) "email" then
    ok <- py_re_match (JStr EMAIL_PATTERN) value ;;
    Ret (if ok : bool then [] else [email_msg field_name])
  else Ret [].

Definition validate_string (field_name : string) (value : form)
  (fs : list (string * json)) : outcome (list string) :=
  e1 <- check_min_length field_name value fs ;;
  e2 <- check_max_length field_name value fs ;;
  e3 <- check_pattern field_name value fs ;;
  e4 <- check_enum field_name value fs ;;
  e5 <- check_format field_name value fs ;;
  Ret (e1 ++ e2 ++ e3 ++ e4 ++ e5).

(** The checks of the [elif field_type in ['integer', 'number']:] branch
    that follow a successful conversion. *)
Definition check_minimum (field_name : string) (num_value : pyfloat)
  (fs : list (string * json)) : outcome (list string) :=
  match dict_get "minimum" fs with
  | Some m =>
      lt <- py_lt num_value m ;;
      Ret (if lt : bool then [minimum_msg field_name (py_str m)] else [])
  | None => Ret []
  end.

Definition check_maximum (field_name : string) (num_value : pyfloat)
  (fs : list (string * json)) : outcome (list string) :=
  match dict_get "maximum" fs with
  | Some m =>
      gt <- py_gt num_value m ;;
      Ret (if gt : bool then [maximum_msg field_name (py_str m)] else [])
  | None => Ret []
  end.

Definition validate_numeric (field_name : string) (integer : bool)
  (value : form) (fs : list (string * json)) : outcome (list string) :=
  coerced <- coerce integer value ;;
  match coerced with
  | Some num_value =>
      e1 <- check_minimum field_name num_value fs ;;
      e2 <- check_maximum field_name num_value fs ;;
      Ret (e1 ++ e2)
  | None =>
      Ret [coercion_msg field_name (if integer then "integer" else "number")]
  end.

(** [validate_field_value(field_name, value, field_schema)] *)
Definition validate_field_value (field_name : string) (value : form)
  (field_schema : json) : outcome (list string) :=
  match field_schema with
  | JObj fs =>
      let field_type := get_default "type" (JStr "string") fs in
      if py_eq_str field_type "string" then
        validate_string field_name value fs
      else if py_eq_str field_type "integer" || py_eq_str field_type "number"
      then
        validate_numeric field_name (py_eq_str field_type "integer") value fs
      else Ret []
  | _ => Raise AttributeError
  end.

(** What [for field in required_fields] iterates over. *)
Definition py_iter (x : json) : outcome (list json) :=
  match x with
  | JArr l => Ret l
  | JObj d => Ret (map (fun kv => JStr (fst kv)) d)
  | JStr s => Ret (map JStr (chars_of s))
  | _ => Raise TypeError
  end.

(** [field not in data or data[field] == ''] *)
Definition is_missing (data : list (string * form)) (field : json)
  : outcome bool :=
  match field with
  | JStr name =>
      match dict_get name data with
      | Some (FStr "") => Ret true
      | Some _ => Ret false
      | None => Ret true
      end
  | JArr _ | JObj _ => Raise TypeError
  | _ => Ret true
  end.

(** The [# Check required fields] loop. *)
Definition check_required (data : list (string * form))
  (required_fields : json) : outcome (list string) :=
  fields <- py_iter required_fields ;;
  flags <- mapM (fun field =>
                   missing <- is_missing data field ;;
                   Ret (if missing : bool
                        then [required_msg (py_str field)] else [])) fields ;;
  Ret (List.concat flags).

(** [field_name in properties] *)
Definition name_in (field_name : string) (properties : json)
  : outcome bool :=
  match properties with
  | JObj d => Ret (dict_mem field_name d)
  | JArr l => Ret (existsb (form_eq_json (FStr field_name)) l)
  | JStr s => Ret (str_contains field_name s)
  | _ => Raise TypeError
  end.

(** [properties[field_name]], reached when [field_name in properties]. *)
Definition py_index (properties : json) (field_name : string)
  : outcome json :=
  match properties with
  | JObj d =>
      match dict_get field_name d with
      | Some v => Ret v
      | None => Raise KeyError
      end
  | _ => Raise TypeError
  end.

(** The body of the [# Validate each field] loop. *)
Definition validate_entry (fuel : nat) (properties resolved_schema : json)
  (entry : string * form) : outcome (list string) :=
  let (field_name, value) := entry in
  declared <- name_in field_name properties ;;
  if (declared : bool) && form_truthy value then
    field_schema <- py_index properties field_name ;;
    field_schema <- resolve_schema_refs fuel field_schema resolved_schema ;;
    validate_field_value field_name value field_schema
  else Ret [].

(** [validate_against_schema(data, schema)] *)
Definition validate_against_schema (fuel : nat) (data : list (string * form))
  (schema : json) : outcome (list string) :=
  resolved_schema <- resolve_schema_refs fuel schema schema ;;
  match resolved_schema with
  | JObj rs =>
      let properties := get_default "properties" (JObj []) rs in
      let required_fields := get_default "required" (JArr []) rs in
      required_errors <- check_required data required_fields ;;
      field_errors <- mapM (validate_entry fuel properties resolved_schema)
                        data ;;
      Ret (required_errors ++ List.concat field_errors)
  | _ => Raise AttributeError
  end.

(** The same two functions run under the interpreter's bound on nested
    calls: [validate_against_schema] is itself one call (it does not call
    itself), and each of its calls of [resolve_schema_refs] (lines 413 and
    431) has room for [limit] calls below it. *)
Definition validate_entry_within (limit : nat)
  (properties resolved_schema : json) (entry : string * form)
  : outcome (list string) :=
  let (field_name, value) := entry in
  declared <- name_in field_name properties ;;
  if (declared : bool) && form_truthy value then
    field_schema <- py_index properties field_name ;;
    field_schema <- resolve_within limit field_schema resolved_schema ;;
    validate_field_value field_name value field_schema
  else Ret [].

Definition validate_within (limit : nat) (data : list (string * form))
  (schema : json) : outcome (list string) :=
  resolved_schema <- resolve_within limit schema schema ;;
  match resolved_schema with
  | JObj rs =>
      let properties := get_default "properties" (JObj []) rs in
      let required_fields := get_default "required" (JArr []) rs in
      required_errors <- check_required data required_fields ;;
      field_errors <- mapM (validate_entry_within limit properties
                              resolved_schema) data ;;
      Ret (required_errors ++ List.concat field_errors)
  | _ => Raise AttributeError
  end.
End Validator.

(* ================================================================== *)
(** ** Schema loading *)

(** What [open('schema.json')] finds. *)
Inductive schema_file : Type :=
| FileMissing
| FileText (text : string).

Section Loader.
(** [json.load]: the document, or the text of the [JSONDecodeError]. *)
Variable json_load : string -> string + json.

(** [load_schema()]: the lines it prints and the value it returns. *)
Definition load_schema (f : schema_file) : list string * json :=
  match f with
  | FileMissing => (["ERROR: schema.json file not found!"], JObj [])
  | FileText text =>
      match json_load text with
      | inr document => ([], document)
      | inl e =>
          ([("ERROR: Invalid JSON in schema.json: " ++ e)%string], JObj [])
      end
  end.
End Loader.

(* ================================================================== *)
(** ** A reference instance of the library *)

(** Regular expressions without anchors, look-around or back-references:
    on these, [re.match] succeeds exactly when some initial segment of
    the string belongs to the language of the expression. *)
Inductive rexp : Type :=
| RNone
| REps
| RChr (c : ascii)
| RAny
| RCat (r1 r2 : rexp)
| RAlt (r1 r2 : rexp)
| RStar (r : rexp).

Fixpoint nullable (r : rexp) : bool :=
  match r with
  | RNone => false
  | REps => true
  | RChr _ => false
  | RAny => false
  | RCat r1 r2 => nullable r1 && nullable r2
  | RAlt r1 r2 => nullable r1 || nullable r2
  | RStar _ => true
  end.

Definition newline : ascii := "010"%char.

(** The derivative of [r] by the character [c]; [.] matches every
    character but the newline. *)
Fixpoint deriv (c : ascii) (r : rexp) : rexp :=
  match r with
  | RNone => RNone
  | REps => RNone
  | RChr x => if Ascii.eqb x c then REps else RNone
  | RAny => if Ascii.eqb c newline then RNone else REps
  | RCat r1 r2 =>
      if nullable r1
      then RAlt (RCat (deriv c r1) r2) (deriv c r2)
      else RCat (deriv c r1) r2
  | RAlt r1 r2 => RAlt (deriv c r1) (deriv c r2)
  | RStar r1 => RCat (deriv c r1) (RStar r1)
  end.

(** [re.match]: a match that begins at position 0 and ends anywhere. *)
Fixpoint match_prefix (r : rexp) (s : string) : bool :=
  nullable r ||
  match s with
  | EmptyString => false
  | String c s' => match_prefix (deriv c r) s'
  end.

(** [re.fullmatch], for comparison: the match must end where the string
    ends. *)
Fixpoint match_full (r : rexp) (s : string) : bool :=
  match s with
  | EmptyString => nullable r
  | String c s' => match_full (deriv c r) s'
  end.

(** The language of an expression. *)
Inductive in_lang : rexp -> string -> Prop :=
| in_eps : in_lang REps ""
| in_chr c : in_lang (RChr c) (String c "")
| in_any c : c <> newline -> in_lang RAny (String c "")
| in_cat r1 r2 s1 s2 :
    in_lang r1 s1 -> in_lang r2 s2 -> in_lang (RCat r1 r2) (s1 ++ s2)
| in_alt_l r1 r2 s : in_lang r1 s -> in_lang (RAlt r1 r2) s
| in_alt_r r1 r2 s : in_lang r2 s -> in_lang (RAlt r1 r2) s
| in_star_nil r : in_lang (RStar r) ""
| in_star_cons r s1 s2 :
    in_lang r s1 -> in_lang (RStar r) s2 -> in_lang (RStar r) (s1 ++ s2).

(** Decimal literals: an optional sign and digits.  This is the part of
    what [int(s)] accepts that the examples use. *)
Definition digit_of (c : ascii) : option Z :=
  let n := nat_of_ascii c in
  if (48 <=? n)%nat && (n <=? 57)%nat then Some (Z.of_nat (n - 48)) else None.

Fixpoint digits_value (acc : Z) (s : string) : option Z :=
  match s with
  | EmptyString => Some acc
  | String c s' =>
      match digit_of c with
      | Some d => digits_value (10 * acc + d) s'
      | None => None
      end
  end.

Definition dec_int (s : string) : option Z :=
  match s with
  | EmptyString => None
  | String "-" (String c s') =>
      option_map Z.opp (digits_value 0 (String c s'))
  | String "+" (String c s') => digits_value 0 (String c s')
  | _ => digits_value 0 s
  end.

(** Patterns made of ordinary characters only. *)
Definition is_meta (c : ascii) : bool :=
  str_has_char c ".^$*+?{}[]\|()".

Fixpoint literal (s : string) : option rexp :=
  match s with
  | EmptyString => Some REps
  | String c s' =>
      if is_meta c then None
      else option_map (RCat (RChr c)) (literal s')
  end.

(** The library with [re.match] on parsed expressions, whatever the
    parser of patterns, conversions and [repr] are. *)
Definition rexp_lib (compile : string -> option rexp)
  (to_int : string -> option Z) (to_float : string -> option pyfloat)
  (repr : json -> string) : pylib := {|
  regex := rexp;
  re_compile := compile;
  re_match := match_prefix;
  py_int := to_int;
  py_float := to_float;
  py_repr := repr
|}.

(** The library on plain input: literal patterns and decimal literals. *)
Definition plain_lib : pylib :=
  rexp_lib literal dec_int
    (fun s => option_map (fun n => FFin (inject_Z n)) (dec_int s))
    (fun _ => "...").

(* ================================================================== *)
(** ** Predicates the properties are stated with *)

(** Every value that stands under a ["$ref"] key, anywhere in [v]. *)
Fixpoint ref_targets (v : json) : list json :=
  match v with
  | JObj d =>
      match dict_get "$ref" d with
      | Some r => [r]
      | None => []
      end ++ flat_map (fun kv => ref_targets (snd kv)) d
  | JArr l => flat_map ref_targets l
  | _ => []
  end.

(** [t] is a pointer of smaller rank than [p]. *)
Definition smaller_pointer (rk : string -> nat) (p : string) (t : json)
  : bool :=
  match t with
  | JStr q => (rk q <? rk p)%nat
  | _ => false
  end.

(** [rk] ranks the pointers of [full]: every ["$ref"] is a string, and the
    pointers inside the referent of a pointer have a smaller rank than the
    pointer.  With such a rank no chain of references comes back to where
    it started. *)
Definition ranked (rk : string -> nat) (full : json) : bool :=
  forallb (fun t =>
             match t with
             | JStr p =>
                 match resolve_ref (JStr p) full with
                 | Ret r =>
                     negb (truthy r)
                     || forallb (smaller_pointer rk p) (ref_targets r)
                 | _ => true
                 end
             | _ => false
             end) (ref_targets full).

(** The rank of a ["$ref"] value. *)
Definition pointer_rank (rk : string -> nat) (t : json) : nat :=
  match t with
  | JStr p => rk p
  | _ => 0
  end.

(** A segment lookup fails: the value reached is not a keyed container,
    or the key is absent from it. *)
Inductive lookup_fails : list string -> json -> Prop :=
| fails_not_container part rest current :
    (forall d, current <> JObj d) ->
    lookup_fails (part :: rest) current
| fails_key_absent part rest d :
    dict_get part d = None ->
    lookup_fails (part :: rest) (JObj d)
| fails_below part rest d v :
    dict_get part d = Some v ->
    lookup_fails rest v ->
    lookup_fails (part :: rest) (JObj d).

(** The falsy JSON values: empty object, empty array, empty string, zero,
    false and null. *)
Inductive falsy : json -> Prop :=
| falsy_object : falsy (JObj [])
| falsy_array : falsy (JArr [])
| falsy_string : falsy (JStr "")
| falsy_int : falsy (JInt 0)
| falsy_float q : (q == 0)%Q -> falsy (JFloat (FFin q))
| falsy_false : falsy (JBool false)
| falsy_null : falsy JNull.

(** A two-pointer cycle: [A] refers to [B] and [B] to [A]. *)
Definition cyclic_schema : json :=
  JObj [("$defs", JObj [("A", JObj [("$ref", JStr "#/$defs/B")]);
                        ("B", JObj [("$ref", JStr "#/$defs/A")])]);
        ("properties", JObj [("x", JObj [("$ref", JStr "#/$defs/A")])])].

(** A document with a chain of two references, a reference to an empty
    definition and a reference to nothing. *)
Definition chain_schema : json :=
  JObj [("$defs",
         JObj [("A", JObj [("$ref", JStr "#/$defs/B")]);
               ("B", JObj [("type", JStr "integer");
                           ("minimum", JInt 0); ("maximum", JInt 10)]);
               ("E", JObj [])]);
        ("properties",
         JObj [("x", JObj [("$ref", JStr "#/$defs/A")]);
               ("y", JObj [("$ref", JStr "#/$defs/E")]);
               ("z", JObj [("$ref", JStr "#/nope")])]);
        ("required", JArr [JStr "x"; JStr "q"])].

(** A rank of its pointers. *)
Definition chain_rank (p : string) : nat :=
  if String.eqb p "#/$defs/A" then 1 else 0.

(** [t] holds exactly what the keys of [flat] name: a leaf at the path of
    every key, a nested map at the root and at every path that begins the
    path of a key without being it, and nothing elsewhere. *)
Definition shape_of (flat : list (string * string)) (t : form) : Prop :=
  forall path,
    (forall s,
        kind_at path t = Leaf s
        <-> exists k, In (k, s) flat /\ split_on "." k = path)
    /\ (kind_at path t = Group
        <-> path = []
            \/ exists k v,
                In (k, v) flat
                /\ prefix_of path (split_on "." k) = true
                /\ path <> split_on "." k).

(** A required name counts as missing when the submission lacks the key
    or holds the empty string under it. *)
Definition is_missing_name (data : list (string * form)) (name : string)
  : bool :=
  match dict_get name data with
  | None => true
  | Some (FStr "") => true
  | Some _ => false
  end.

(** The number [x] is below the [minimum] of the field schema, above its
    [maximum]. *)
Definition below_minimum (x : pyfloat) (fs : list (string * json)) : bool :=
  match dict_get "minimum" fs with
  | Some m => match as_num m with
              | Some y => float_ltb x y
              | None => false
              end
  | None => false
  end.

Definition above_maximum (x : pyfloat) (fs : list (string * json)) : bool :=
  match dict_get "maximum" fs with
  | Some m => match as_num m with
              | Some y => float_ltb y x
              | None => false
              end
  | None => false
  end.

(** What [int(s)] and [float(s)] give, as a number to compare. *)
Definition coerced_number (L : pylib) (integer : bool) (s : string)
  : option pyfloat :=
  if integer then option_map (fun n => FFin (inject_Z n)) (py_int L s)
  else py_float L s.

Definition type_name (integer : bool) : string :=
  if integer then "integer" else "number".

(** Every message about the value of a field begins with a quote; the
    message of a missing field begins with [Field]. *)
Definition quoted (msg : string) : Prop :=
  exists rest, msg = String "'"%char rest.

(** The messages of all checks but the pattern check read
    ['<name>' must ...]. *)
Definition must_msg (field_name msg : string) : Prop :=
  exists rest, msg = ("'" ++ field_name ++ "' must" ++ rest)%string.

(** A schema that requires [name], a string of three characters at
    least. *)
Definition name_schema : json :=
  JObj [("properties",
         JObj [("name", JObj [("type", JStr "string");
                              ("minLength", JInt 3)])]);
        ("required", JArr [JStr "name"])].

(** A schema with one property, an integer. *)
Definition age_schema : json :=
  JObj [("properties", JObj [("age", JObj [("type", JStr "integer")])])].

(** The constraints of a field schema have the types JSON Schema gives
    them: numbers for the four bounds, a pattern that compiles, a list of
    strings for [enum]; and where the email format is asked for, the
    library compiles the pattern of the code. *)
Definition well_typed_constraints (L : pylib) (fs : list (string * json))
  : Prop :=
  (forall m, dict_get "minLength" fs = Some m -> as_num m <> None)
  /\ (forall m, dict_get "maxLength" fs = Some m -> as_num m <> None)
  /\ (forall m, dict_get "minimum" fs = Some m -> as_num m <> None)
  /\ (forall m, dict_get "maximum" fs = Some m -> as_num m <> None)
  /\ (forall p, dict_get "pattern" fs = Some p ->
                exists ps, p = JStr ps /\ re_compile L ps <> None)
  /\ (forall e, dict_get "enum" fs = Some e ->
                exists ss, e = JArr (map JStr ss))
  /\ (py_eq_str (get_default "format" JNull fs) "email" = true ->
      re_compile L EMAIL_PATTERN <> None).

(** The field schema has a check that reads the value as a string: a
    conversion to a number, a pattern or the email format. *)
Definition reads_string (fs : list (string * json)) : bool :=
  let field_type := get_default "type" (JStr "string") fs in
  py_eq_str field_type "integer"
  || py_eq_str field_type "number"
  || (py_eq_str field_type "string"
      && (dict_mem "pattern" fs
          || py_eq_str (get_default "format" JNull fs) "email")).

(** A submitted value fits a property: the property is an object with
    well-typed constraints, and the value is a string where a check reads
    it as one. *)
Definition field_fits (L : pylib) (value : form) (property : json) : Prop :=
  exists fs,
    property = JObj fs
    /\ well_typed_constraints L fs
    /\ (reads_string fs = true -> exists s, value = FStr s).

(* ================================================================== *)
(** ** SchemaNodeClassifier and the request handler *)

(** [get_input_type(field_schema)], the inner function of
    [generate_html_form_from_schema] (lines 66-95).  Both branches of
    [elif field_schema.get('pattern')] return ['text']. *)
Definition get_input_type (field_schema : json) : outcome string :=
  match field_schema with
  | JObj fs =>
      let field_type := get_default "type" (JStr "string") fs in
      let field_format := get_default "format" (JStr "") fs in
      if py_eq_str field_type "string" then
        if py_eq_str field_format "email" then Ret "email"
        else if py_eq_str field_format "date" then Ret "date"
        else if py_eq_str field_format "date-time" then Ret "datetime-local"
        else if dict_mem "enum" fs then Ret "select"
        else if truthy (get_default "pattern" JNull fs) then Ret "text"
        else Ret "text"
      else if py_eq_str field_type "integer" then Ret "number"
      else if py_eq_str field_type "number" then Ret "number"
      else if py_eq_str field_type "boolean" then Ret "checkbox"
      else if py_eq_str field_type "array" then Ret "textarea"
      else if py_eq_str field_type "object" then Ret "fieldset"
      else Ret "text"
  | _ => Raise AttributeError
  end.

(** The loop of [handle_validation] that builds [flat_data] from the
    decoded form (lines 509-511): [value[0] if value else '']. *)
Definition first_value (value : list string) : string :=
  match value with
  | v :: _ => v
  | [] => ""
  end.

Definition flat_data_of (form_data : list (string * list string))
  : list (string * string) :=
  map (fun kv => (fst kv, first_value (snd kv))) form_data.

(** What [handle_validation] sends: the status and, as the JSON body,
    the assembled data or [{"error": str(e)}].  [SendAfterStatus] is the
    case in which [json.dumps] (line 533) raises: the status line 200 and
    the headers have gone out (lines 530-532), and the [except] clause
    sends its 500 answer after them. *)
Inductive response : Type :=
| SendData (status : Z) (nested_data : form)
| SendError (status : Z) (e : exn)
| SendAfterStatus (status : Z) (e : exn).

(** How deep the deepest entry of the assembled data stands in it. *)
Fixpoint form_height (t : form) : nat :=
  match t with
  | FStr _ => 0
  | FMap d => list_max (map (fun kv => S (form_height (snd kv))) d)
  end.

(** [print(f"... {nested_data}")] (line 518) and [json.dumps(nested_data,
    indent=2)] (line 533) go through the assembled data with one call
    inside the other for every dictionary inside another, and raise
    [RecursionError] where the interpreter has no room for that many.
    Both are given the same room here, so that the second raises only
    where the first has. *)
Definition walk_nested (limit : nat) (nested_data : form) : outcome unit :=
  if (form_height nested_data <=? limit)%nat then Ret tt
  else Raise RecursionError.

Section Handler.
Variable L : pylib.

(** [handle_validation], from the decoded form on (lines 508-544): the
    reading of the request body and [parse_qs] come before.  [limit] is
    the room the recursion limit leaves for nested calls.  The data
    handed to the validator is the dictionary the assembler returns (the
    assembler returns no [str]).  [except Exception] catches every
    exception of the model, [RecursionError] among them. *)
Definition handle_validation (limit : nat) (schema : json)
  (form_data : list (string * list string)) : outcome response :=
  let flat_data := flat_data_of form_data in
  match
    (nested_data <- parse_nested_form_data flat_data ;;
     _ <- walk_nested limit nested_data ;;
     validation_errors <-
       match nested_data with
       | FMap data => validate_within L limit data schema
       | FStr _ => Raise AttributeError
       end ;;
     Ret nested_data)
  with
  | Ret nested_data =>
      match walk_nested limit nested_data with
      | Ret _ => Ret (SendData 200 nested_data)
      | Raise e => Ret (SendAfterStatus 500 e)
      | OutOfFuel => OutOfFuel
      end
  | Raise e => Ret (SendError 500 e)
  | OutOfFuel => OutOfFuel
  end.
End Handler.

(** The ["$ref"] values the walk of [resolve_schema_refs] meets in [v]:
    a dictionary with a ["$ref"] key is not looked into any further. *)
Fixpoint walk_refs (v : json) : list json :=
  match v with
  | JObj d =>
      match dict_get "$ref" d with
      | Some r => [r]
      | None => flat_map (fun kv => walk_refs (snd kv)) d
      end
  | JArr l => flat_map walk_refs l
  | _ => []
  end.

(** The pointer [t] does not resolve in [full]: [resolve_ref] gives
    [None] or a falsy referent. *)
Definition unresolved_in (full : json) (t : json) : Prop :=
  exists r, resolve_ref t full = Ret r /\ truthy r = false.

(** The pointer that names a path: ["#/k1/k2/..."]. *)
Definition pointer_of (path : list string) : string :=
  ("#/" ++ String.concat "/" path)%string.

(** An example document with one nested definition. *)
Definition address_schema : json :=
  JObj [("$defs",
         JObj [("address",
                JObj [("type", JStr "object");
                      ("properties",
                       JObj [("city", JObj [("type", JStr "string")])])])]);
        ("properties",
         JObj [("home", JObj [("$ref", JStr "#/$defs/address")])])].

(** The library of [plain_lib] with a [float] that reads ["nan"]. *)
Definition nan_lib : pylib :=
  rexp_lib literal dec_int
    (fun s => if String.eqb s "nan" then Some FNan
              else option_map (fun n => FFin (inject_Z n)) (dec_int s))
    (fun _ => "...").

(** [resolved_as full part r]: [r] is [part] with its references
    resolved in [full].  A value that is no container is itself; a list is
    resolved item by item and a dictionary without a ["$ref"] key entry
    by entry, under the same keys in the same order; a dictionary with a
    ["$ref"] key is itself when the pointer does not resolve (the lookup
    gives [None] or a falsy referent), and otherwise is what the referent
    is resolved as. *)
Unset Elimination Schemes.
Inductive resolved_as (full : json) : json -> json -> Prop :=
| resolved_null : resolved_as full JNull JNull
| resolved_bool b : resolved_as full (JBool b) (JBool b)
| resolved_int z : resolved_as full (JInt z) (JInt z)
| resolved_float f : resolved_as full (JFloat f) (JFloat f)
| resolved_str s : resolved_as full (JStr s) (JStr s)
| resolved_items l l' :
    Forall2 (resolved_as full) l l' ->
    resolved_as full (JArr l) (JArr l')
| resolved_entries d d' :
    dict_get "$ref" d = None ->
    Forall2 (fun kv kv' =>
               fst kv' = fst kv /\ resolved_as full (snd kv) (snd kv'))
      d d' ->
    resolved_as full (JObj d) (JObj d')
| resolved_kept d ref r0 :
    dict_get "$ref" d = Some ref ->
    resolve_ref ref full = Ret r0 ->
    truthy r0 = false ->
    resolved_as full (JObj d) (JObj d)
| resolved_referent d ref r0 r :
    dict_get "$ref" d = Some ref ->
    resolve_ref ref full = Ret r0 ->
    truthy r0 = true ->
    resolved_as full r0 r ->
    resolved_as full (JObj d) r.
Set Elimination Schemes.

(** The room under which the resolution of a ranked document is shown to
    return: the height of the document for the walk of the document
    itself, and for every referent of a chain of references one call to
    enter it and the height of the document again, a chain being no
    longer than the highest rank plus one. *)
Definition calls_needed (rk : string -> nat) (full : json) : nat :=
  height full
  + S (list_max (map (pointer_rank rk) (ref_targets full))) * S (height full).

(** The path [p] stops above [q]: [q] goes on from [p] by at least one
    segment. *)
Definition strictly_above (p q : list string) : bool :=
  prefix_of p q && negb (prefix_of q p).

(** In the order of [keys], no key goes through the place of a key that
    comes before it: the path of no key stops above the path of a later
    key. *)
Fixpoint no_leaf_first (keys : list string) : bool :=
  match keys with
  | [] => true
  | k :: rest =>
      forallb (fun k' =>
                 negb (strictly_above (split_on "." k) (split_on "." k')))
        rest
      && no_leaf_first rest
  end.

(** [s] is what the entries of [flat], taken in order, leave at [path]:
    the value of an entry whose key names the path, no entry after it
    being set at the path or above it. *)
Definition last_set (flat : list (string * string)) (path : list string)
  (s : string) : Prop :=
  exists before key after,
    flat = before ++ (key, s) :: after
    /\ split_on "." key = path
    /\ Forall (fun kv => prefix_of (split_on "." (fst kv)) path = false)
         after.

(* ================================================================== *)
(** * Properties *)

(** ** Outcomes and loops *)

Lemma bind_ret_inv {A B} (m : outcome A) (k : A -> outcome B) b :
  bind m k = Ret b -> exists a, m = Ret a /\ k a = Ret b.
Proof. destruct m; simpl; intros H; try discriminate; eauto. Qed.

Lemma mapM_cons {A B} (f : A -> outcome B) x xs :
  mapM f (x :: xs) = (y <- f x ;; ys <- mapM f xs ;; Ret (y :: ys)).
Proof. reflexivity. Qed.

Lemma mapM_app {A B} (f : A -> outcome B) l1 l2 r1 r2 :
  mapM f l1 = Ret r1 -> mapM f l2 = Ret r2 ->
  mapM f (l1 ++ l2) = Ret (r1 ++ r2).
Proof.
  revert r1. induction l1 as [|x xs IH]; simpl; intros r1 H1 H2.
  - injection H1 as <-. exact H2.
  - destruct (f x) as [y| |]; simpl in *; try discriminate.
    destruct (mapM f xs) as [ys| |] eqn:E; simpl in *; try discriminate.
    injection H1 as <-. rewrite (IH ys eq_refl H2). reflexivity.
Qed.

Lemma mapM_total {A B} (f : A -> outcome B) l :
  Forall (fun x => exists y, f x = Ret y) l -> exists ys, mapM f l = Ret ys.
Proof.
  induction 1 as [|x xs [y Hy] _ [ys Hys]]; simpl.
  - eauto.
  - rewrite Hy. simpl. rewrite Hys. simpl. eauto.
Qed.

(** ** Dictionaries *)

Lemma dict_get_app_none {V} key (d1 d2 : list (string * V)) :
  dict_get key (d1 ++ d2) = None ->
  dict_get key d1 = None /\ dict_get key d2 = None.
Proof.
  induction d1 as [|[k v] rest IH]; simpl; intros H.
  - auto.
  - destruct (String.eqb key k); [discriminate | auto].
Qed.

Lemma dict_get_in {V} key (d : list (string * V)) v :
  dict_get key d = Some v -> In (key, v) d.
Proof.
  induction d as [|[k w] rest IH]; simpl; intros H.
  - discriminate.
  - destruct (String.eqb key k) eqn:E.
    + apply String.eqb_eq in E. injection H as <-. subst. auto.
    + auto.
Qed.

(** ** RefResolver *)

Lemma resolve_unfold fuel part full :
  resolve_schema_refs fuel part full
  = resolve_body full (on_referent_at fuel full) part.
Proof. destruct fuel; reflexivity. Qed.

Lemma resolve_arr fuel l full :
  resolve_schema_refs fuel (JArr l) full
  = (items <- mapM (fun x => resolve_schema_refs fuel x full) l ;;
     Ret (JArr items)).
Proof.
  rewrite resolve_unfold. simpl.
  replace (mapM (fun x => resolve_schema_refs fuel x full) l)
    with (mapM (resolve_body full (on_referent_at fuel full)) l);
    [reflexivity|].
  induction l as [|x xs IH]; simpl; [reflexivity|].
  rewrite resolve_unfold, IH. reflexivity.
Qed.

Lemma resolve_obj_plain fuel d full :
  dict_get "$ref" d = None ->
  resolve_schema_refs fuel (JObj d) full
  = (result <- mapM (fun kv => v <- resolve_schema_refs fuel (snd kv) full ;;
                               Ret (fst kv, v)) d ;;
     Ret (JObj result)).
Proof.
  intros H. rewrite resolve_unfold. simpl. rewrite H. clear H.
  replace (mapM (fun kv => v <- resolve_schema_refs fuel (snd kv) full ;;
                           Ret (fst kv, v)) d)
    with (mapM (fun kv => v <- resolve_body full (on_referent_at fuel full)
                                 (snd kv) ;;
                          Ret (fst kv, v)) d);
    [reflexivity|].
  induction d as [|kv rest IH]; simpl; [reflexivity|].
  rewrite resolve_unfold, IH. reflexivity.
Qed.

Lemma resolve_obj_ref fuel d ref full :
  dict_get "$ref" d = Some ref ->
  resolve_schema_refs fuel (JObj d) full
  = (resolved <- resolve_ref ref full ;;
     if truthy resolved then on_referent_at fuel full resolved
     else Ret (JObj d)).
Proof. intros H. rewrite resolve_unfold. simpl. rewrite H. reflexivity. Qed.

Lemma lookup_fails_none parts current :
  lookup_fails parts current <-> lookup_parts parts current = None.
Proof.
  split.
  - induction 1 as [part rest cur Hc | part rest d Hd | part rest d v Hd _ IH];
      simpl.
    + destruct cur; try reflexivity. exfalso. eapply Hc. reflexivity.
    + rewrite Hd. reflexivity.
    + rewrite Hd. exact IH.
  - revert current. induction parts as [|part rest IH]; simpl; intros cur H.
    + discriminate.
    + destruct cur; try (apply fails_not_container; intros d; discriminate).
      destruct (dict_get part entries) as [v|] eqn:E.
      * eapply fails_below; eauto.
      * apply fails_key_absent. exact E.
Qed.

Lemma falsy_not_truthy r : falsy r -> truthy r = false.
Proof.
  destruct 1; simpl; try reflexivity.
  apply negb_false_iff. apply Qeq_bool_iff. assumption.
Qed.

(** The list of falsy values is complete. *)
Lemma not_truthy_falsy r : truthy r = false -> falsy r.
Proof.
  destruct r as [|b|z|f|s|l|d]; simpl; intros H.
  - constructor.
  - subst. constructor.
  - apply negb_false_iff, Z.eqb_eq in H. subst. constructor.
  - destruct f; simpl in H; try discriminate.
    constructor. apply Qeq_bool_iff. now apply negb_false_iff.
  - apply negb_false_iff, String.eqb_eq in H. subst. constructor.
  - destruct l; [constructor | discriminate].
  - destruct d; [constructor | discriminate].
Qed.

Lemma resolve_ref_str_ret p full : exists r, resolve_ref (JStr p) full = Ret r.
Proof.
  unfold resolve_ref. destruct (String.prefix "#/" p); [|eauto].
  destruct (lookup_parts _ _); eauto.
Qed.

Lemma ref_targets_entry key v d :
  In (key, v) d -> incl (ref_targets v) (ref_targets (JObj d)).
Proof.
  intros Hin t Ht. simpl. apply in_or_app. right.
  apply in_flat_map. exists (key, v). auto.
Qed.

Lemma ref_targets_item x l :
  In x l -> incl (ref_targets x) (ref_targets (JArr l)).
Proof.
  intros Hin t Ht. simpl. apply in_flat_map. eauto.
Qed.

Lemma lookup_parts_targets parts current r :
  lookup_parts parts current = Some r ->
  incl (ref_targets r) (ref_targets current).
Proof.
  revert current. induction parts as [|part rest IH]; simpl; intros cur H.
  - injection H as <-. apply incl_refl.
  - destruct cur; try discriminate.
    destruct (dict_get part entries) as [v|] eqn:E; [|discriminate].
    eapply incl_tran; [apply IH; exact H|].
    eapply ref_targets_entry. eapply dict_get_in. exact E.
Qed.

Lemma resolve_ref_targets p full r :
  resolve_ref (JStr p) full = Ret r ->
  incl (ref_targets r) (ref_targets full).
Proof.
  unfold resolve_ref. destruct (String.prefix "#/" p).
  - destruct (lookup_parts _ _) as [v|] eqn:E; intros H; injection H as <-.
    + eapply lookup_parts_targets. exact E.
    + intros t [].
  - intros H. injection H as <-. intros t [].
Qed.

Section Ranked.
Variable rk : string -> nat.
Variable full : json.
Hypothesis Hranked : ranked rk full = true.

Lemma ranked_target t :
  In t (ref_targets full) ->
  exists p r, t = JStr p /\ resolve_ref (JStr p) full = Ret r
              /\ (truthy r = true ->
                  Forall (fun t' => pointer_rank rk t' < rk p)
                    (ref_targets r)).
Proof.
  intros Hin. unfold ranked in Hranked.
  rewrite forallb_forall in Hranked. specialize (Hranked t Hin).
  destruct t as [| | | |p| |]; try discriminate.
  destruct (resolve_ref_str_ret p full) as [r Hr].
  exists p, r. split; [reflexivity|]. split; [exact Hr|].
  rewrite Hr in Hranked. intros Ht. rewrite Ht in Hranked. simpl in Hranked.
  rewrite forallb_forall in Hranked. apply Forall_forall. intros t' Ht'.
  specialize (Hranked t' Ht'). destruct t'; try discriminate.
  simpl in *. now apply Nat.ltb_lt.
Qed.

End Ranked.

Lemma cycle_nodes_diverge fuel :
  resolve_schema_refs fuel (JObj [("$ref", JStr "#/$defs/B")]) cyclic_schema
  = OutOfFuel
  /\ resolve_schema_refs fuel (JObj [("$ref", JStr "#/$defs/A")]) cyclic_schema
     = OutOfFuel.
Proof.
  induction fuel as [|fuel [IHb IHa]].
  - split; reflexivity.
  - split.
    + rewrite (resolve_obj_ref _ [("$ref", JStr "#/$defs/B")]
                 (JStr "#/$defs/B") _ eq_refl).
      change (resolve_ref (JStr "#/$defs/B") cyclic_schema)
        with (Ret (JObj [("$ref", JStr "#/$defs/A")])).
      simpl. exact IHa.
    + rewrite (resolve_obj_ref _ [("$ref", JStr "#/$defs/A")]
                 (JStr "#/$defs/A") _ eq_refl).
      change (resolve_ref (JStr "#/$defs/A") cyclic_schema)
        with (Ret (JObj [("$ref", JStr "#/$defs/B")])).
      simpl. exact IHb.
Qed.

Lemma cycle_diverges fuel :
  resolve_schema_refs fuel cyclic_schema cyclic_schema = OutOfFuel.
Proof.
  unfold cyclic_schema at 1.
  rewrite resolve_obj_plain by reflexivity.
  rewrite mapM_cons. cbn [snd fst].
  rewrite resolve_obj_plain by reflexivity.
  rewrite mapM_cons. cbn [snd fst].
  rewrite (proj1 (cycle_nodes_diverge fuel)). reflexivity.
Qed.

(** C1, as stated, fails: on the document in which [A] refers to [B] and
    [B] to [A], [resolve_schema_refs] returns under no bound on the depth
    of its recursion; the cyclic node is never left unresolved. *)
Lemma resolve_cycle_never_returns :
  ~ (exists fuel r,
        resolve_schema_refs fuel cyclic_schema cyclic_schema = Ret r).
Proof.
  intros (fuel & r & H). rewrite cycle_diverges in H. discriminate.
Qed.

Lemma resolve_ref_unresolvable p full :
  String.prefix "#/" p = false
  \/ lookup_fails (split_on "/" (str_drop 2 p)) full ->
  resolve_ref (JStr p) full = Ret JNull.
Proof.
  intros [Hext | Hfail]; unfold resolve_ref.
  - rewrite Hext. reflexivity.
  - apply lookup_fails_none in Hfail. rewrite Hfail.
    destruct (String.prefix "#/" p); reflexivity.
Qed.

Lemma resolve_obj_kept fuel d ref full r :
  dict_get "$ref" d = Some ref ->
  resolve_ref ref full = Ret r -> truthy r = false ->
  resolve_schema_refs fuel (JObj d) full = Ret (JObj d).
Proof.
  intros Hd Hr Ht. rewrite (resolve_obj_ref _ _ _ _ Hd), Hr. simpl.
  rewrite Ht. reflexivity.
Qed.

Lemma resolve_arr_inv fuel l full items :
  resolve_schema_refs fuel (JArr l) full = Ret (JArr items) ->
  mapM (fun x => resolve_schema_refs fuel x full) l = Ret items.
Proof.
  rewrite resolve_arr. intros H.
  destruct (mapM _ l); simpl in H; try discriminate. congruence.
Qed.

Lemma resolve_obj_inv fuel d full result :
  dict_get "$ref" d = None ->
  resolve_schema_refs fuel (JObj d) full = Ret (JObj result) ->
  mapM (fun kv => v <- resolve_schema_refs fuel (snd kv) full ;;
                  Ret (fst kv, v)) d = Ret result.
Proof.
  intros Hd. rewrite (resolve_obj_plain _ _ _ Hd). intros H.
  destruct (mapM _ d); simpl in H; try discriminate. congruence.
Qed.

(** C2: a node whose ["$ref"] is a pointer that is external (no leading
    ["#/"]) or whose lookup fails at a segment (key absent, or the value
    reached is not a keyed container) is returned as it is, without an
    exception; in an array or an object that holds the node, the other
    entries are resolved and the node stands unchanged among them. *)
Theorem unresolvable_ref_is_kept
  (fuel : nat) (d : list (string * json)) (p : string) (full : json) :
  dict_get "$ref" d = Some (JStr p) ->
  String.prefix "#/" p = false
  \/ lookup_fails (split_on "/" (str_drop 2 p)) full ->
  resolve_schema_refs fuel (JObj d) full = Ret (JObj d)
  /\ (forall pre post pre' post',
         resolve_schema_refs fuel (JArr pre) full = Ret (JArr pre') ->
         resolve_schema_refs fuel (JArr post) full = Ret (JArr post') ->
         resolve_schema_refs fuel (JArr (pre ++ JObj d :: post)) full
         = Ret (JArr (pre' ++ JObj d :: post')))
  /\ (forall key pre post pre' post',
         dict_get "$ref" (pre ++ (key, JObj d) :: post) = None ->
         resolve_schema_refs fuel (JObj pre) full = Ret (JObj pre') ->
         resolve_schema_refs fuel (JObj post) full = Ret (JObj post') ->
         resolve_schema_refs fuel (JObj (pre ++ (key, JObj d) :: post)) full
         = Ret (JObj (pre' ++ (key, JObj d) :: post'))).
Proof.
  intros Hd Hp.
  assert (Hnode : resolve_schema_refs fuel (JObj d) full = Ret (JObj d)).
  { eapply resolve_obj_kept; eauto using resolve_ref_unresolvable. }
  split; [exact Hnode|]. split.
  - intros pre post pre' post' Hpre Hpost.
    apply resolve_arr_inv in Hpre. apply resolve_arr_inv in Hpost.
    rewrite resolve_arr.
    rewrite (mapM_app _ pre (JObj d :: post) pre' (JObj d :: post') Hpre).
    + reflexivity.
    + rewrite mapM_cons, Hnode, Hpost. reflexivity.
  - intros key pre post pre' post' Hnone Hpre Hpost.
    destruct (dict_get_app_none _ _ _ Hnone) as [Hn1 Hn2].
    assert (Hn3 : dict_get "$ref" post = None).
    { cbn [dict_get] in Hn2.
      destruct (String.eqb "$ref" key); [discriminate | exact Hn2]. }
    apply (resolve_obj_inv _ _ _ _ Hn1) in Hpre.
    apply (resolve_obj_inv _ _ _ _ Hn3) in Hpost.
    rewrite (resolve_obj_plain _ _ _ Hnone).
    rewrite (mapM_app _ pre ((key, JObj d) :: post)
               pre' ((key, JObj d) :: post') Hpre).
    + reflexivity.
    + rewrite mapM_cons. cbn [snd fst]. rewrite Hnode, Hpost. reflexivity.
Qed.

Lemma unresolvable_ref_is_kept_witness :
  (dict_get "$ref" [("$ref", JStr "#/nope")] = Some (JStr "#/nope")
   /\ (String.prefix "#/" "#/nope" = false
       \/ lookup_fails (split_on "/" (str_drop 2 "#/nope")) chain_schema))
  /\ resolve_schema_refs 0 (JObj [("$ref", JStr "#/nope")]) chain_schema
     = Ret (JObj [("$ref", JStr "#/nope")]).
Proof.
  assert (H : String.prefix "#/" "#/nope" = false
              \/ lookup_fails (split_on "/" (str_drop 2 "#/nope"))
                   chain_schema).
  { right. apply fails_key_absent. reflexivity. }
  split.
  - split; [reflexivity | exact H].
  - exact (proj1 (unresolvable_ref_is_kept 0 [("$ref", JStr "#/nope")]
                    "#/nope" chain_schema eq_refl H)).
Defined.

(** C10: a node whose ["$ref"] pointer is looked up successfully, to a
    referent that is an empty object, an empty array, an empty string,
    zero, [false] or [null], is returned as it is: the referent is not
    substituted. *)
Theorem falsy_referent_is_not_substituted
  (fuel : nat) (d : list (string * json)) (p : string) (full r : json) :
  dict_get "$ref" d = Some (JStr p) ->
  String.prefix "#/" p = true ->
  lookup_parts (split_on "/" (str_drop 2 p)) full = Some r ->
  falsy r ->
  resolve_schema_refs fuel (JObj d) full = Ret (JObj d).
Proof.
  intros Hd Hp Hr Hf. eapply resolve_obj_kept; [exact Hd| |].
  - unfold resolve_ref. rewrite Hp, Hr. reflexivity.
  - apply falsy_not_truthy. exact Hf.
Qed.

Lemma falsy_referent_is_not_substituted_witness :
  falsy (JObj [])
  /\ resolve_schema_refs 3 (JObj [("$ref", JStr "#/$defs/E")]) chain_schema
     = Ret (JObj [("$ref", JStr "#/$defs/E")]).
Proof.
  split.
  - exact falsy_object.
  - exact (falsy_referent_is_not_substituted 3 [("$ref", JStr "#/$defs/E")]
             "#/$defs/E" chain_schema (JObj [])
             eq_refl eq_refl eq_refl falsy_object).
Defined.

(** ** Schema loading *)

Lemma concat_all_nil {A} (ls : list (list A)) :
  Forall (fun l => l = []) ls -> List.concat ls = [].
Proof.
  induction 1 as [|l ls Hl _ IH]; simpl; [reflexivity|].
  rewrite Hl, IH. reflexivity.
Qed.

Lemma mapM_ret_map {A B} (f : A -> outcome B) (g : A -> B) l :
  (forall x, In x l -> f x = Ret (g x)) -> mapM f l = Ret (map g l).
Proof.
  induction l as [|x xs IH]; intros H; [reflexivity|].
  rewrite mapM_cons, (H x (or_introl eq_refl)), IH.
  - reflexivity.
  - intros y Hy. apply H. right. exact Hy.
Qed.

(** Against the empty document no submission has a violation. *)
Lemma validate_empty_schema L fuel data :
  validate_against_schema L fuel data (JObj []) = Ret [].
Proof.
  unfold validate_against_schema. rewrite resolve_unfold. cbn.
  rewrite (mapM_ret_map _ (fun _ => [])).
  - cbn. rewrite concat_all_nil; [reflexivity|].
    apply Forall_forall. intros l Hl. apply in_map_iff in Hl.
    destruct Hl as (_ & <- & _). reflexivity.
  - intros [name value] _. reflexivity.
Qed.

(** C9, as stated, fails: with no [schema.json], [load_schema] returns
    the empty document, and a submission is then validated against it. *)
Lemma load_schema_missing_file_is_not_fatal :
  load_schema (fun _ => inl "") FileMissing
  = (["ERROR: schema.json file not found!"], JObj [])
  /\ validate_against_schema plain_lib 0 [("name", FStr "ab")]
       (snd (load_schema (fun _ => inl "") FileMissing))
     = Ret [].
Proof. split; reflexivity. Qed.

(** C9, amended: when [schema.json] is absent or is not well-formed JSON,
    [load_schema] prints one diagnostic line and returns the empty
    document; requests are then served from it, and every submission
    validates against it without a violation. *)
Theorem load_schema_degrades_to_empty
  (json_load : string -> string + json) (f : schema_file) :
  f = FileMissing
  \/ (exists text e, f = FileText text /\ json_load text = inl e) ->
  (exists line, fst (load_schema json_load f) = [line])
  /\ snd (load_schema json_load f) = JObj []
  /\ forall L fuel data,
      validate_against_schema L fuel data (snd (load_schema json_load f))
      = Ret [].
Proof.
  intros [-> | (text & e & -> & He)]; simpl; [|rewrite He; simpl];
    (split; [eauto | split; [reflexivity | apply validate_empty_schema]]).
Qed.

Lemma load_schema_degrades_to_empty_witness :
  (FileText "{" = FileMissing
   \/ (exists text e,
          FileText "{" = FileText text
          /\ (fun _ : string => @inl string json "Expecting property name")
               text = inl e))
  /\ snd (load_schema (fun _ => inl "Expecting property name") (FileText "{"))
     = JObj [].
Proof.
  assert (H : FileText "{" = FileMissing
              \/ (exists text e,
                     FileText "{" = FileText text
                     /\ (fun _ : string =>
                           @inl string json "Expecting property name")
                          text = inl e)).
  { right. exists "{", "Expecting property name". split; reflexivity. }
  split; [exact H|].
  exact (proj1 (proj2 (load_schema_degrades_to_empty
                         (fun _ => inl "Expecting property name")
                         (FileText "{") H))).
Defined.

(** ** Dictionaries, continued *)

Lemma dict_get_set_same {V} key (v : V) d :
  dict_get key (dict_set key v d) = Some v.
Proof.
  induction d as [|[k w] rest IH]; simpl.
  - rewrite String.eqb_refl. reflexivity.
  - destruct (String.eqb key k) eqn:E; simpl; rewrite E; auto.
Qed.

Lemma dict_get_set_other {V} key key' (v : V) d :
  String.eqb key' key = false ->
  dict_get key' (dict_set key v d) = dict_get key' d.
Proof.
  intros Hne. induction d as [|[k w] rest IH]; simpl.
  - rewrite Hne. reflexivity.
  - destruct (String.eqb key k) eqn:E; simpl.
    + apply String.eqb_eq in E. subst k. rewrite Hne. reflexivity.
    + rewrite IH. reflexivity.
Qed.

Lemma dict_get_none {V} key (d : list (string * V)) :
  dict_get key d = None <-> ~ In key (map fst d).
Proof.
  induction d as [|[k w] rest IH]; simpl.
  - tauto.
  - destruct (String.eqb key k) eqn:E.
    + apply String.eqb_eq in E. subst. split; [discriminate | tauto].
    + apply String.eqb_neq in E. rewrite IH. split.
      * intros H [H1 | H1]; [congruence | tauto].
      * tauto.
Qed.

Lemma dict_get_unique {V} key (v : V) d :
  NoDup (map fst d) -> In (key, v) d -> dict_get key d = Some v.
Proof.
  induction d as [|[k w] rest IH]; simpl; intros Hnd Hin; [tauto|].
  inversion Hnd as [|? ? Hnotin Hnd']; subst.
  destruct Hin as [Heq | Hin].
  - injection Heq as -> ->. rewrite String.eqb_refl. reflexivity.
  - destruct (String.eqb key k) eqn:E.
    + apply String.eqb_eq in E. subst k. exfalso. apply Hnotin.
      apply in_map_iff. exists (key, v). auto.
    + auto.
Qed.

Lemma dict_set_keys {V} key (v : V) d :
  map fst (dict_set key v d)
  = if dict_mem key d then map fst d else map fst d ++ [key].
Proof.
  unfold dict_mem. induction d as [|[k w] rest IH]; simpl; [reflexivity|].
  destruct (String.eqb key k) eqn:E; simpl; [reflexivity|].
  rewrite IH. destruct (dict_get key rest); reflexivity.
Qed.

Lemma dict_set_nodup {V} key (v : V) d :
  NoDup (map fst d) -> NoDup (map fst (dict_set key v d)).
Proof.
  intros Hnd. rewrite dict_set_keys. unfold dict_mem.
  destruct (dict_get key d) eqn:E; [exact Hnd|].
  apply dict_get_none in E.
  apply NoDup_app; [exact Hnd | constructor; [tauto | constructor] |].
  intros x Hx [<- | []]. exact (E Hx).
Qed.

Lemma dict_set_in {V} key (v : V) d k w :
  In (k, w) (dict_set key v d) -> (k = key /\ w = v) \/ In (k, w) d.
Proof.
  induction d as [|[k0 w0] rest IH]; simpl.
  - intros [H | []]. injection H as <- <-. auto.
  - destruct (String.eqb key k0) eqn:E; simpl.
    + apply String.eqb_eq in E. subst k0.
      intros [H | H]; [injection H as <- <-; auto | auto].
    + intros [H | H]; [auto|]. destruct (IH H); auto.
Qed.

(** ** Paths *)

Lemma prefix_of_iff p q : prefix_of p q = true <-> exists r, q = p ++ r.
Proof.
  revert q. induction p as [|x p IH]; intros q; simpl.
  - split; eauto.
  - destruct q as [|y q].
    + split; [discriminate | intros [r H]; discriminate].
    + rewrite andb_true_iff, String.eqb_eq, IH. split.
      * intros [-> [r ->]]. eauto.
      * intros [r H]. injection H as -> ->. eauto.
Qed.

Lemma prefix_of_refl p : prefix_of p p = true.
Proof. apply prefix_of_iff. exists []. now rewrite app_nil_r. Qed.

Lemma prefix_of_trans p q r :
  prefix_of p q = true -> prefix_of q r = true -> prefix_of p r = true.
Proof.
  rewrite !prefix_of_iff. intros [a ->] [b ->]. exists (a ++ b).
  now rewrite app_assoc.
Qed.

Lemma prefix_of_antisym p q :
  prefix_of p q = true -> prefix_of q p = true -> p = q.
Proof.
  rewrite !prefix_of_iff. intros [a ->] [b H].
  rewrite <- app_assoc in H. rewrite <- (app_nil_r p) in H at 1.
  apply app_inv_head in H. symmetry in H. apply app_eq_nil in H.
  destruct H as [-> _]. now rewrite app_nil_r.
Qed.

(** A path that begins a longer path [init ++ [final]] without being it
    begins [init]. *)
Lemma prefix_of_snoc p init final :
  prefix_of p (init ++ [final]) = true -> p <> init ++ [final] ->
  prefix_of p init = true.
Proof.
  rewrite !prefix_of_iff. intros [r H] Hne.
  destruct r as [|x r] using rev_ind.
  - rewrite app_nil_r in H. congruence.
  - rewrite app_assoc in H. apply app_inj_tail in H. destruct H as [-> _].
    eauto.
Qed.

Lemma prefix_of_app p q r : prefix_of p q = true -> prefix_of p (q ++ r) = true.
Proof.
  rewrite !prefix_of_iff. intros [a ->]. exists (a ++ r).
  now rewrite app_assoc.
Qed.

Lemma split_on_cons sep s : exists p ps, split_on sep s = p :: ps.
Proof.
  induction s as [|c s [p [ps IH]]]; simpl; [eauto|].
  destruct (Ascii.eqb c sep); [eauto|]. rewrite IH. eauto.
Qed.

Lemma split_on_no_sep sep s :
  str_has_char sep s = false -> split_on sep s = [s].
Proof.
  induction s as [|c s IH]; simpl; [reflexivity|].
  intros H. apply orb_false_iff in H. destruct H as [Hc Hs].
  rewrite Hc, (IH Hs). reflexivity.
Qed.

Lemma split_on_snoc sep s :
  split_on sep s
  = removelast (split_on sep s) ++ [last (split_on sep s) ""].
Proof.
  apply app_removelast_last.
  destruct (split_on_cons sep s) as (p & ps & ->). discriminate.
Qed.

(** Both branches of the loop body are one descent. *)
Lemma assign_key_path nested key value :
  assign_key nested (key, value)
  = set_path (removelast (split_on "." key)) (last (split_on "." key) "")
      value nested.
Proof.
  unfold assign_key. destruct (str_has_char "." key) eqn:E; [reflexivity|].
  rewrite (split_on_no_sep _ _ E). reflexivity.
Qed.

Lemma assemble_key_path level key value :
  assemble_key level (key, value)
  = assemble_path (removelast (split_on "." key))
      (last (split_on "." key) "") value level.
Proof.
  unfold assemble_key. simpl.
  destruct (str_has_char "." key) eqn:E; [reflexivity|].
  rewrite (split_on_no_sep _ _ E). reflexivity.
Qed.

(** ** NestedDataAssembler *)

Lemma kind_at_cons part path d :
  kind_at (part :: path) (FMap d)
  = match dict_get part d with
    | Some c => kind_at path c
    | None => Absent
    end.
Proof. unfold kind_at. simpl. destruct (dict_get part d); reflexivity. Qed.

(** The shape of one descent that returns. *)
Lemma set_path_inv init final value t t' :
  set_path init final value t = Ret t' ->
  exists d,
    t = FMap d
    /\ match init with
       | [] => t' = FMap (dict_set final (FStr value) d)
       | part :: rest =>
           exists child',
             set_path rest final value
               (match dict_get part d with
                | Some c => c
                | None => FMap []
                end) = Ret child'
             /\ t' = FMap (dict_set part child' d)
       end.
Proof.
  destruct t as [s|d]; [destruct init; discriminate|].
  intros H. exists d. split; [reflexivity|].
  destruct init as [|part rest]; simpl in H.
  - congruence.
  - apply bind_ret_inv in H. destruct H as (child' & Hc & Hr).
    exists child'. split; [exact Hc | congruence].
Qed.

Lemma set_path_ok init final value t :
  no_leaf_on init t = true -> exists t', set_path init final value t = Ret t'.
Proof.
  revert t. induction init as [|part rest IH]; intros [s|d] H;
    try discriminate; simpl in *.
  - eauto.
  - destruct (dict_get part d) as [c|].
    + destruct (IH c H) as [c' Hc']. rewrite Hc'. simpl. eauto.
    + destruct (IH (FMap []) ltac:(destruct rest; reflexivity)) as [c' Hc'].
      rewrite Hc'. simpl. eauto.
Qed.

Lemma no_leaf_on_false init t :
  no_leaf_on init t = false ->
  exists pre s, prefix_of pre init = true /\ kind_at pre t = Leaf s.
Proof.
  revert t. induction init as [|part rest IH]; intros [s|d] H;
    simpl in H; try discriminate.
  - exists [], s. auto.
  - exists [], s. auto.
  - destruct (dict_get part d) as [c|] eqn:E; [|discriminate].
    destruct (IH c H) as (pre & s & Hpre & Hk).
    exists (part :: pre), s. split.
    + simpl. rewrite String.eqb_refl. exact Hpre.
    + rewrite kind_at_cons, E. exact Hk.
Qed.

(** Where the descent returns it does what the specification words. *)
Lemma set_path_assemble init final value d t' :
  set_path init final value (FMap d) = Ret t' ->
  t' = FMap (assemble_path init final value d).
Proof.
  revert d t'. induction init as [|part rest IH]; intros d t' H.
  - simpl in H. injection H as <-. reflexivity.
  - apply set_path_inv in H. destruct H as (d0 & Hd & child' & Hc & ->).
    injection Hd as <-. simpl.
    destruct (dict_get part d) as [[s|m]|].
    + destruct rest; discriminate.
    + rewrite (IH _ _ Hc). reflexivity.
    + rewrite (IH _ _ Hc). reflexivity.
Qed.

Lemma set_path_leaf init final value t t' :
  set_path init final value t = Ret t' ->
  kind_at (init ++ [final]) t' = Leaf value.
Proof.
  revert t t'. induction init as [|part rest IH]; intros t t' H;
    apply set_path_inv in H; destruct H as (d & -> & H).
  - subst t'. simpl. rewrite kind_at_cons, dict_get_set_same. reflexivity.
  - destruct H as (child' & Hc & ->). simpl.
    rewrite kind_at_cons, dict_get_set_same. eapply IH. exact Hc.
Qed.

Lemma set_path_groups init final value t t' path :
  set_path init final value t = Ret t' ->
  prefix_of path init = true ->
  kind_at path t' = Group.
Proof.
  revert t t' path. induction init as [|part rest IH]; intros t t' path H Hp;
    apply set_path_inv in H; destruct H as (d & -> & H).
  - subst t'. destruct path; [reflexivity | discriminate].
  - destruct H as (child' & Hc & ->).
    destruct path as [|q qs]; [reflexivity|].
    simpl in Hp. apply andb_true_iff in Hp. destruct Hp as [Hq Hqs].
    apply String.eqb_eq in Hq. subst q.
    rewrite kind_at_cons, dict_get_set_same. eapply IH; eauto.
Qed.

Lemma set_path_below init final value t t' path :
  set_path init final value t = Ret t' ->
  prefix_of (init ++ [final]) path = true ->
  path <> init ++ [final] ->
  kind_at path t' = Absent.
Proof.
  revert t t' path.
  induction init as [|part rest IH]; intros t t' path H Hp Hne;
    apply set_path_inv in H; destruct H as (d & -> & H).
  - subst t'. destruct path as [|q qs]; [discriminate|].
    simpl in Hp. apply andb_true_iff in Hp. destruct Hp as [Hq _].
    apply String.eqb_eq in Hq. subst q.
    rewrite kind_at_cons, dict_get_set_same.
    destruct qs; [exfalso; apply Hne; reflexivity | reflexivity].
  - destruct H as (child' & Hc & ->).
    destruct path as [|q qs]; [discriminate|].
    simpl in Hp. apply andb_true_iff in Hp. destruct Hp as [Hq Hqs].
    apply String.eqb_eq in Hq. subst q.
    rewrite kind_at_cons, dict_get_set_same. eapply IH; eauto.
    intros ->. apply Hne. reflexivity.
Qed.

Lemma set_path_elsewhere init final value t t' path :
  set_path init final value t = Ret t' ->
  prefix_of path (init ++ [final]) = false ->
  prefix_of (init ++ [final]) path = false ->
  kind_at path t' = kind_at path t.
Proof.
  revert t t' path. induction init as [|part rest IH]; intros t t' path H H1 H2;
    apply set_path_inv in H; destruct H as (d & -> & H).
  - subst t'. destruct path as [|q qs]; [discriminate|].
    simpl in H2. rewrite andb_true_r in H2. rewrite String.eqb_sym in H2.
    rewrite !kind_at_cons, (dict_get_set_other _ _ _ _ H2). reflexivity.
  - destruct H as (child' & Hc & ->).
    destruct path as [|q qs]; [discriminate|].
    simpl in H1, H2. rewrite !kind_at_cons.
    destruct (String.eqb q part) eqn:E.
    + apply String.eqb_eq in E. subst q.
      rewrite String.eqb_refl in H2. simpl in H1, H2.
      rewrite dict_get_set_same, (IH _ _ _ Hc H1 H2).
      destruct (dict_get part d) as [c|]; [reflexivity|].
      destruct qs; [discriminate | reflexivity].
    + rewrite (dict_get_set_other _ _ _ _ E). reflexivity.
Qed.

Lemma distinct_keys_map d :
  distinct_keys (FMap d)
  <-> NoDup (map fst d) /\ forall k c, In (k, c) d -> distinct_keys c.
Proof.
  simpl. apply and_iff_compat_l.
  induction d as [|[k0 c0] rest IH].
  - split; [intros _ k c [] | trivial].
  - rewrite IH. split.
    + intros [H0 Hr] k c [Heq | Hin]; [injection Heq as <- <-; exact H0|].
      eapply Hr. exact Hin.
    + intros H. split; [apply (H k0); left; reflexivity|].
      intros k c Hin. apply (H k). right. exact Hin.
Qed.

Lemma set_path_distinct init final value t t' :
  distinct_keys t ->
  set_path init final value t = Ret t' ->
  distinct_keys t'.
Proof.
  revert t t'. induction init as [|part rest IH]; intros t t' Hd H;
    apply set_path_inv in H; destruct H as (d & -> & H);
    apply distinct_keys_map in Hd; destruct Hd as [Hnd Hch].
  - subst t'. apply distinct_keys_map. split; [now apply dict_set_nodup|].
    intros k c Hin. apply dict_set_in in Hin.
    destruct Hin as [[_ ->] | Hin]; [exact I | eauto].
  - destruct H as (child' & Hc & ->).
    apply distinct_keys_map. split; [now apply dict_set_nodup|].
    intros k c Hin. apply dict_set_in in Hin.
    destruct Hin as [[_ ->] | Hin]; [|eauto].
    eapply IH; [|exact Hc].
    destruct (dict_get part d) as [c0|] eqn:E.
    + eapply Hch. eapply dict_get_in. exact E.
    + apply distinct_keys_map. split; [constructor | intros ? ? []].
Qed.

Lemma foldM_cons {A B} (f : A -> B -> outcome A) x xs a :
  foldM f (x :: xs) a = (a' <- f a x ;; foldM f xs a').
Proof. reflexivity. Qed.

Lemma foldM_app {A B} (f : A -> B -> outcome A) l1 l2 a :
  foldM f (l1 ++ l2) a = (a' <- foldM f l1 a ;; foldM f l2 a').
Proof.
  revert a. induction l1 as [|x xs IH]; intros a; simpl; [reflexivity|].
  destruct (f a x); simpl; auto.
Qed.

Lemma foldM_assemble flat d t :
  foldM assign_key flat (FMap d) = Ret t ->
  t = FMap (fold_left assemble_key flat d).
Proof.
  revert d. induction flat as [|[k v] rest IH]; intros d H.
  - simpl in *. congruence.
  - rewrite foldM_cons in H. apply bind_ret_inv in H.
    destruct H as (a & Ha & Hrest).
    rewrite assign_key_path in Ha. apply set_path_assemble in Ha. subst a.
    simpl. rewrite assemble_key_path. apply IH. exact Hrest.
Qed.

(** *** Keys that do not collide *)

Lemma collide_sym a b : collide a b = collide b a.
Proof. unfold collide. apply orb_comm. Qed.

Lemma collide_refl a : collide a a = true.
Proof. unfold collide. now rewrite prefix_of_refl. Qed.

Lemma collision_free_pairs keys :
  collision_free keys = true
  <-> NoDup keys
      /\ forall a b, In a keys -> In b keys -> a <> b -> collide a b = false.
Proof.
  induction keys as [|k rest IH]; simpl.
  - split; [intros _; split; [constructor | intros ? ? []] | reflexivity].
  - rewrite andb_true_iff, IH, forallb_forall. split.
    + intros [Hk [Hnd Hp]].
      assert (Hk' : forall x, In x rest -> collide k x = false).
      { intros x Hx. apply negb_true_iff. auto. }
      split.
      * constructor; [|exact Hnd]. intros Hin.
        specialize (Hk' k Hin). rewrite collide_refl in Hk'. discriminate.
      * intros a b [<- | Ha] [<- | Hb] Hne; auto; try congruence.
        rewrite collide_sym. auto.
    + intros [Hnd Hp]. inversion Hnd as [|? ? Hnotin Hnd']; subst.
      split; [|split; [exact Hnd'|]].
      * intros x Hx. apply negb_true_iff. apply Hp; auto.
        intros ->. exact (Hnotin Hx).
      * intros a b Ha Hb. apply Hp; auto.
Qed.

Lemma collision_free_perm keys keys' :
  Permutation keys keys' ->
  collision_free keys = true -> collision_free keys' = true.
Proof.
  intros Hperm. rewrite !collision_free_pairs. intros [Hnd Hp]. split.
  - eapply Permutation_NoDup; eauto.
  - intros a b Ha Hb. apply Permutation_sym in Hperm.
    apply Hp; [exact (Permutation_in a Hperm Ha)
              | exact (Permutation_in b Hperm Hb)].
Qed.

Lemma collision_free_snoc keys k :
  collision_free (keys ++ [k]) = true ->
  collision_free keys = true
  /\ forall k0, In k0 keys -> collide k0 k = false.
Proof.
  rewrite !collision_free_pairs. intros [Hnd Hp]. split; [split|].
  - apply NoDup_app_remove_r in Hnd. exact Hnd.
  - intros a b Ha Hb. apply Hp; apply in_or_app; auto.
  - intros k0 Hk0. apply Hp.
    + apply in_or_app. auto.
    + apply in_or_app. right. left. reflexivity.
    + intros ->. apply NoDup_remove_2 in Hnd. rewrite app_nil_r in Hnd.
      exact (Hnd Hk0).
Qed.

Lemma collide_false a b :
  collide a b = false ->
  prefix_of (split_on "." a) (split_on "." b) = false
  /\ prefix_of (split_on "." b) (split_on "." a) = false.
Proof. unfold collide. apply orb_false_iff. Qed.

Lemma shape_empty : shape_of [] (FMap []).
Proof.
  intros path. split.
  - intros s. split.
    + destruct path; intros H; discriminate H.
    + intros (k & [] & _).
  - split.
    + destruct path; [auto | intros H; discriminate H].
    + intros [-> | (k & v & [] & _)]. reflexivity.
Qed.

Lemma in_snoc {A} (x y : A) l : In x (l ++ [y]) <-> In x l \/ x = y.
Proof.
  rewrite in_app_iff. simpl. intuition congruence.
Qed.

Lemma shape_step flat t k v t' :
  shape_of flat t ->
  (forall k0 s, In (k0, s) flat -> collide k0 k = false) ->
  assign_key t (k, v) = Ret t' ->
  shape_of (flat ++ [(k, v)]) t'.
Proof.
  intros Hshape Hfree Hset. rewrite assign_key_path in Hset.
  pose proof (split_on_snoc "." k) as HP.
  set (init := removelast (split_on "." k)) in *.
  set (final := last (split_on "." k) "") in *.
  assert (Hfree' : forall k0 s, In (k0, s) flat ->
                     prefix_of (split_on "." k0) (init ++ [final]) = false
                     /\ prefix_of (init ++ [final]) (split_on "." k0) = false).
  { intros k0 s Hin. rewrite <- HP. apply collide_false. eauto. }
  intros path. destruct (Hshape path) as [HL HG].
  destruct (prefix_of path (init ++ [final])) eqn:A;
    destruct (prefix_of (init ++ [final]) path) eqn:B.
  - (* the path of the key *)
    assert (path = init ++ [final]) by (now apply prefix_of_antisym).
    subst path.
    pose proof (set_path_leaf _ _ _ _ _ Hset) as K. rewrite K. split.
    + intros s. split.
      * intros Hs. injection Hs as <-. exists k. rewrite in_snoc. auto.
      * intros (k0 & Hin & Hk0). apply in_snoc in Hin.
        destruct Hin as [Hin | Heq]; [|congruence].
        destruct (Hfree' _ _ Hin) as [H1 _]. rewrite Hk0, A in H1. discriminate.
    + split; [discriminate|].
      intros [Hnil | (k0 & v0 & Hin & Hpre & Hne)].
      * destruct init; discriminate.
      * apply in_snoc in Hin. destruct Hin as [Hin | Heq].
        -- destruct (Hfree' _ _ Hin) as [_ H2]. congruence.
        -- injection Heq as -> ->. congruence.
  - (* a path above the key *)
    assert (Hne : path <> init ++ [final]).
    { intros ->. rewrite prefix_of_refl in B. discriminate. }
    pose proof (set_path_groups _ _ _ _ _ path Hset
                  (prefix_of_snoc _ _ _ A Hne)) as K.
    rewrite K. split.
    + intros s. split; [discriminate|].
      intros (k0 & Hin & Hk0). apply in_snoc in Hin.
      destruct Hin as [Hin | Heq].
      * destruct (Hfree' _ _ Hin) as [H1 _]. rewrite Hk0, A in H1. discriminate.
      * injection Heq as -> ->. congruence.
    + split; [|reflexivity]. intros _. right. exists k, v.
      rewrite in_snoc, HP. auto.
  - (* a path below the key *)
    assert (Hne : path <> init ++ [final]).
    { intros ->. rewrite prefix_of_refl in A. discriminate. }
    pose proof (set_path_below _ _ _ _ _ path Hset B Hne) as K.
    rewrite K. split.
    + intros s. split; [discriminate|].
      intros (k0 & Hin & Hk0). apply in_snoc in Hin.
      destruct Hin as [Hin | Heq].
      * destruct (Hfree' _ _ Hin) as [_ H2]. rewrite Hk0, B in H2. discriminate.
      * injection Heq as -> ->. congruence.
    + split; [discriminate|].
      intros [-> | (k0 & v0 & Hin & Hpre & Hne')]; [discriminate|].
      apply in_snoc in Hin. destruct Hin as [Hin | Heq].
      * destruct (Hfree' _ _ Hin) as [_ H2].
        rewrite (prefix_of_trans _ _ _ B Hpre) in H2. discriminate.
      * injection Heq as -> ->. congruence.
  - (* a path apart from the key *)
    rewrite (set_path_elsewhere _ _ _ _ _ path Hset A B). split.
    + intros s. rewrite HL. split.
      * intros (k0 & Hin & Hk0). exists k0. rewrite in_snoc. auto.
      * intros (k0 & Hin & Hk0). apply in_snoc in Hin.
        destruct Hin as [Hin | Heq]; [eauto|].
        injection Heq as -> ->. rewrite <- Hk0, HP, prefix_of_refl in A.
        discriminate.
    + rewrite HG. split.
      * intros [-> | (k0 & v0 & Hin & Hpre & Hne)]; [auto|].
        right. exists k0, v0. rewrite in_snoc. auto.
      * intros [-> | (k0 & v0 & Hin & Hpre & Hne)]; [auto|].
        apply in_snoc in Hin. destruct Hin as [Hin | Heq]; [eauto 6|].
        injection Heq as -> ->. congruence.
Qed.

Lemma shape_no_leaf_above flat t k :
  shape_of flat t ->
  (forall k0 s, In (k0, s) flat -> collide k0 k = false) ->
  no_leaf_on (removelast (split_on "." k)) t = true.
Proof.
  intros Hshape Hfree.
  destruct (no_leaf_on _ t) eqn:E; [reflexivity|].
  apply no_leaf_on_false in E. destruct E as (pre & s & Hpre & Hk).
  apply (proj1 (Hshape pre)) in Hk. destruct Hk as (k0 & Hin & Hk0).
  apply (prefix_of_app _ _ [last (split_on "." k) ""]) in Hpre.
  rewrite <- split_on_snoc, <- Hk0 in Hpre.
  specialize (Hfree _ _ Hin). apply collide_false in Hfree.
  destruct Hfree as [H1 _]. congruence.
Qed.

(** The assembly of keys that do not collide returns, and the tree holds
    what the keys name. *)
Lemma assembled_shape flat :
  collision_free (map fst flat) = true ->
  exists t,
    parse_nested_form_data flat = Ret t
    /\ shape_of flat t
    /\ distinct_keys t.
Proof.
  unfold parse_nested_form_data.
  induction flat as [|[k v] flat IH] using rev_ind; intros Hfree.
  - exists (FMap []). split; [reflexivity|]. split; [apply shape_empty|].
    apply distinct_keys_map. split; [constructor | intros ? ? []].
  - rewrite map_app in Hfree. apply collision_free_snoc in Hfree.
    destruct Hfree as [Hfree Hk].
    destruct (IH Hfree) as (t & Ht & Hshape & Hdist).
    assert (Hk' : forall k0 s, In (k0, s) flat -> collide k0 k = false).
    { intros k0 s Hin. apply Hk. apply in_map_iff. exists (k0, s). auto. }
    destruct (set_path_ok _ (last (split_on "." k) "") v _
                (shape_no_leaf_above _ _ _ Hshape Hk')) as [t' Ht'].
    rewrite <- assign_key_path in Ht'.
    exists t'. rewrite foldM_app, Ht. cbn [bind]. rewrite foldM_cons, Ht'.
    split; [reflexivity|]. split.
    + eapply shape_step; eauto.
    + rewrite assign_key_path in Ht'. eapply set_path_distinct; eauto.
Qed.

Lemma shape_of_perm flat flat' t :
  Permutation flat flat' -> shape_of flat t -> shape_of flat' t.
Proof.
  intros Hperm Hshape path. destruct (Hshape path) as [HL HG]. split.
  - intros s. rewrite HL. split; intros (k & Hin & Hk); exists k; split; auto.
    + eapply Permutation_in; eauto.
    + eapply Permutation_in; [apply Permutation_sym|]; eauto.
  - rewrite HG. split; (intros [-> | (k & v & Hin & H)]; [auto|]);
      right; exists k, v; split; auto.
    + eapply Permutation_in; eauto.
    + eapply Permutation_in; [apply Permutation_sym|]; eauto.
Qed.

Lemma shape_of_kinds flat t t' path :
  shape_of flat t -> shape_of flat t' -> kind_at path t = kind_at path t'.
Proof.
  intros H H'.
  destruct (kind_at path t') as [| |s'] eqn:E'.
  - destruct (kind_at path t) as [| |s] eqn:E; [reflexivity| |].
    + apply (H path) in E. apply (H' path) in E. congruence.
    + apply (H path) in E. apply (H' path) in E. congruence.
  - apply (H path). apply (H' path). exact E'.
  - apply (H path). apply (H' path). exact E'.
Qed.

Lemma kind_at_nil_cases t :
  (exists s, t = FStr s /\ kind_at [] t = Leaf s)
  \/ (exists d, t = FMap d /\ kind_at [] t = Group).
Proof. destruct t; [left | right]; eauto. Qed.

(** Trees with distinct keys that hold the same thing at every path are
    equal as Python compares them. *)
Lemma same_kinds_equal t :
  forall t',
    distinct_keys t -> distinct_keys t' ->
    (forall path, kind_at path t = kind_at path t') ->
    form_eqb t t' = true.
Proof.
  induction t as [s|d IH] using form_ind; intros t' Hd Hd' Hk.
  - specialize (Hk []). unfold kind_at in Hk. simpl in Hk.
    destruct t'; [|discriminate].
    injection Hk as <-. simpl. apply String.eqb_refl.
  - pose proof (Hk []) as H0. unfold kind_at in H0. simpl in H0.
    destruct t' as [|d']; [discriminate|]. clear H0.
    apply distinct_keys_map in Hd. apply distinct_keys_map in Hd'.
    destruct Hd as [Hnd Hch]. destruct Hd' as [Hnd' Hch'].
    assert (Hkeys : forall k, dict_get k d = None <-> dict_get k d' = None).
    { intros k. specialize (Hk [k]). rewrite !kind_at_cons in Hk.
      destruct (dict_get k d) as [c|], (dict_get k d') as [c'|];
        split; intros Hn; try discriminate Hn; try reflexivity; exfalso.
      - destruct (kind_at_nil_cases c) as [(? & _ & H) | (? & _ & H)];
          rewrite H in Hk; discriminate.
      - destruct (kind_at_nil_cases c') as [(? & _ & H) | (? & _ & H)];
          rewrite H in Hk; discriminate. }
    simpl. apply andb_true_iff. split.
    + apply Nat.eqb_eq. rewrite <- (length_map fst d), <- (length_map fst d').
      apply Nat.le_antisymm; apply NoDup_incl_length; auto; intros k Hin.
      * destruct (dict_get k d') eqn:E.
        -- apply dict_get_in in E. apply in_map_iff. exists (k, f). auto.
        -- apply Hkeys in E. apply dict_get_none in E. tauto.
      * destruct (dict_get k d) eqn:E.
        -- apply dict_get_in in E. apply in_map_iff. exists (k, f). auto.
        -- apply Hkeys in E. apply dict_get_none in E. tauto.
    + apply forallb_forall. intros [k c] Hin. simpl.
      pose proof (dict_get_unique _ _ _ Hnd Hin) as Hc.
      destruct (dict_get k d') as [w|] eqn:Hw.
      * rewrite Forall_forall in IH. apply (IH (k, c) Hin).
        -- eapply Hch. exact Hin.
        -- eapply Hch'. eapply dict_get_in. exact Hw.
        -- intros path. specialize (Hk (k :: path)).
           rewrite !kind_at_cons, Hc, Hw in Hk. exact Hk.
      * apply Hkeys in Hw. congruence.
Qed.

Lemma get_path_no_leaf init rest t x :
  get_path (init ++ rest) t = Some x -> rest <> [] ->
  no_leaf_on init t = true.
Proof.
  revert t. induction init as [|part init IH]; intros [s|d] H Hne;
    simpl in *; try reflexivity; try discriminate.
  - destruct rest; [congruence | discriminate].
  - destruct (dict_get part d); [eauto | reflexivity].
Qed.

Lemma kind_at_leaf path t s :
  kind_at path t = Leaf s -> get_path path t = Some (FStr s).
Proof.
  unfold kind_at. destruct (get_path path t) as [[s'|d]|]; congruence.
Qed.

(** C8: for a submission whose keys collide at no segment,
    [parse_nested_form_data] returns the tree the specification describes:
    a key without a dot is set as a top-level leaf, and a dotted key is
    split on the dots, descended through all segments but the last,
    creating empty nested maps where a segment is absent, and set as a
    leaf at the deepest level.  That tree holds the value of every key as
    a leaf at the path of the key, nested maps above the leaves, and
    nothing else. *)
Theorem assembly_follows_specification (flat : list (string * string)) :
  collision_free (map fst flat) = true ->
  parse_nested_form_data flat = Ret (FMap (assemble flat))
  /\ shape_of flat (FMap (assemble flat)).
Proof.
  intros Hfree. destruct (assembled_shape flat Hfree) as (t & Ht & Hshape & _).
  assert (Heq : t = FMap (assemble flat))
    by (apply (foldM_assemble flat [] t); exact Ht).
  subst t. split; assumption.
Qed.

Lemma assembly_follows_specification_witness :
  collision_free (map fst [("a.b.c", "1"); ("a.b.d", "2")]) = true
  /\ parse_nested_form_data [("a.b.c", "1"); ("a.b.d", "2")]
     = Ret (FMap [("a", FMap [("b", FMap [("c", FStr "1");
                                          ("d", FStr "2")])])]).
Proof.
  split.
  - reflexivity.
  - exact (proj1 (assembly_follows_specification
                    [("a.b.c", "1"); ("a.b.d", "2")] eq_refl)).
Defined.

(** C3, as stated, fails: when the leaf ["x"] is assembled first and the
    dotted key ["x.y"] after it, the descent reaches a [str] and the
    assignment into it raises [TypeError]; nothing is overwritten. *)
Lemma leaf_then_group_raises :
  parse_nested_form_data [("x", "1"); ("x.y", "2")] = Raise TypeError.
Proof. reflexivity. Qed.

(** *** A leaf in the way *)

Lemma set_path_raises init final value t :
  no_leaf_on init t = false ->
  set_path init final value t = Raise TypeError.
Proof.
  revert t. induction init as [|part rest IH]; intros [s|d] H;
    simpl in *; try reflexivity; try discriminate.
  destruct (dict_get part d) as [c|]; [|discriminate].
  rewrite (IH c H). reflexivity.
Qed.

Lemma leaf_in_the_way pre init t s :
  kind_at pre t = Leaf s -> prefix_of pre init = true ->
  no_leaf_on init t = false.
Proof.
  revert init t. induction pre as [|q pre IH]; intros init t Hk Hp.
  - unfold kind_at in Hk. simpl in Hk. destruct t; [|discriminate].
    destruct init; reflexivity.
  - destruct init as [|part rest]; [discriminate|]. simpl in Hp.
    apply andb_true_iff in Hp. destruct Hp as [Hq Hp].
    apply String.eqb_eq in Hq. subst q.
    destruct t as [s0|d]; [reflexivity|].
    rewrite kind_at_cons in Hk. simpl.
    destruct (dict_get part d) as [c|]; [|discriminate].
    eapply IH; eauto.
Qed.

Lemma parse_through_leaf flat t pre s key value :
  parse_nested_form_data flat = Ret t ->
  kind_at pre t = Leaf s ->
  prefix_of pre (removelast (split_on "." key)) = true ->
  parse_nested_form_data (flat ++ [(key, value)]) = Raise TypeError.
Proof.
  intros Ht Hk Hp. unfold parse_nested_form_data in *.
  rewrite foldM_app, Ht. cbn [bind].
  rewrite foldM_cons, assign_key_path.
  rewrite (set_path_raises _ _ _ _ (leaf_in_the_way _ _ _ _ Hk Hp)).
  reflexivity.
Qed.

(** *** Keys in the order they are processed *)

Lemma strictly_above_false p q :
  strictly_above p q = false ->
  prefix_of p q = true -> prefix_of q p = true.
Proof.
  unfold strictly_above. intros H Hp. rewrite Hp in H. simpl in H.
  destruct (prefix_of q p); [reflexivity | discriminate].
Qed.

Lemma no_leaf_first_snoc keys k :
  no_leaf_first (keys ++ [k]) = true ->
  no_leaf_first keys = true
  /\ forall k0, In k0 keys ->
       strictly_above (split_on "." k0) (split_on "." k) = false.
Proof.
  induction keys as [|a keys IH]; simpl; intros H.
  - split; [reflexivity | intros k0 []].
  - apply andb_true_iff in H. destruct H as [Ha Hrest].
    rewrite forallb_app in Ha. apply andb_true_iff in Ha.
    destruct Ha as [Ha Hk]. simpl in Hk. rewrite andb_true_r in Hk.
    destruct (IH Hrest) as [IH1 IH2]. split.
    + rewrite Ha, IH1. reflexivity.
    + intros k0 [<- | Hin]; [|auto].
      now apply negb_true_iff in Hk.
Qed.

Lemma last_set_in flat path s :
  last_set flat path s -> exists k, In (k, s) flat /\ split_on "." k = path.
Proof.
  intros (before & key & after & -> & Hk & _). exists key.
  split; [|exact Hk]. apply in_or_app. right. left. reflexivity.
Qed.

(** What the entries leave at a path once one more entry is processed. *)
Lemma last_set_snoc flat k v path s :
  last_set (flat ++ [(k, v)]) path s
  <-> (split_on "." k = path /\ s = v)
      \/ (last_set flat path s /\ prefix_of (split_on "." k) path = false).
Proof.
  split.
  - intros (before & key & after & Heq & Hk & Hafter).
    destruct after as [|x after _] using rev_ind.
    + apply app_inj_tail in Heq. destruct Heq as [_ Heq].
      injection Heq as <- <-. left. auto.
    + rewrite app_comm_cons, app_assoc in Heq.
      apply app_inj_tail in Heq. destruct Heq as [-> <-].
      apply Forall_app in Hafter. destruct Hafter as [Hafter Hlast].
      right. split.
      * exists before, key, after. auto.
      * inversion Hlast; subst. assumption.
  - intros [[Hk ->] | [(before & key & after & -> & Hk & Hafter) Hlast]].
    + exists flat, k, []. auto.
    + exists before, key, (after ++ [(k, v)]). split.
      * rewrite <- app_assoc. reflexivity.
      * split; [exact Hk|]. apply Forall_app. split; [exact Hafter|].
        constructor; [exact Hlast | constructor].
Qed.

(** One turn of the loop, for a key that goes through the place of no
    key processed before it. *)
Lemma last_set_step flat t k v t' :
  (forall path s, kind_at path t = Leaf s <-> last_set flat path s) ->
  (forall k0 s, In (k0, s) flat ->
                strictly_above (split_on "." k0) (split_on "." k) = false) ->
  assign_key t (k, v) = Ret t' ->
  forall path s, kind_at path t' = Leaf s <-> last_set (flat ++ [(k, v)]) path s.
Proof.
  intros Hinv Hfree Hset path s. rewrite assign_key_path in Hset.
  rewrite last_set_snoc.
  pose proof (split_on_snoc "." k) as HP.
  set (init := removelast (split_on "." k)) in *.
  set (final := last (split_on "." k) "") in *.
  rewrite HP in *.
  destruct (prefix_of path (init ++ [final])) eqn:A;
    destruct (prefix_of (init ++ [final]) path) eqn:B.
  - (* the path of the key *)
    assert (path = init ++ [final]) by (now apply prefix_of_antisym).
    subst path. rewrite (set_path_leaf _ _ _ _ _ Hset). split.
    + intros Hs. injection Hs as <-. left. auto.
    + intros [[_ ->] | [_ Hne]]; [reflexivity | discriminate].
  - (* a path above the key *)
    assert (Hne : path <> init ++ [final]).
    { intros ->. rewrite prefix_of_refl in B. discriminate. }
    rewrite (set_path_groups _ _ _ _ _ path Hset
               (prefix_of_snoc _ _ _ A Hne)).
    split; [discriminate|].
    intros [[Hk _] | [Hlast _]]; [congruence|].
    apply last_set_in in Hlast. destruct Hlast as (k0 & Hin & Hk0).
    specialize (Hfree _ _ Hin). rewrite Hk0 in Hfree.
    pose proof (strictly_above_false _ _ Hfree A). congruence.
  - (* a path below the key *)
    assert (Hne : path <> init ++ [final]).
    { intros ->. rewrite prefix_of_refl in A. discriminate. }
    rewrite (set_path_below _ _ _ _ _ path Hset B Hne).
    split; [discriminate|].
    intros [[Hk _] | [_ Hno]]; congruence.
  - (* a path apart from the key *)
    rewrite (set_path_elsewhere _ _ _ _ _ path Hset A B), Hinv. split.
    + intros Hlast. right. auto.
    + intros [[Hk _] | [Hlast _]]; [|exact Hlast].
      rewrite <- Hk, prefix_of_refl in A. discriminate.
Qed.

(** The assembly of keys of which none goes through the place of an
    earlier one returns, and the leaves of the tree are what the entries
    leave. *)
Lemma assembled_last_set flat :
  no_leaf_first (map fst flat) = true ->
  exists t,
    parse_nested_form_data flat = Ret t
    /\ forall path s, kind_at path t = Leaf s <-> last_set flat path s.
Proof.
  unfold parse_nested_form_data.
  induction flat as [|[k v] flat IH] using rev_ind; intros Hfree.
  - exists (FMap []). split; [reflexivity|]. intros path s. split.
    + intros H. destruct path as [|p ps]; discriminate.
    + intros (before & key & after & Heq & _). destruct before; discriminate.
  - rewrite map_app in Hfree. apply no_leaf_first_snoc in Hfree.
    destruct Hfree as [Hfree Hk].
    destruct (IH Hfree) as (t & Ht & Hinv).
    assert (Hk' : forall k0 s, In (k0, s) flat ->
                    strictly_above (split_on "." k0) (split_on "." k) = false).
    { intros k0 s Hin. apply Hk. apply in_map_iff. exists (k0, s). auto. }
    assert (Hno : no_leaf_on (removelast (split_on "." k)) t = true).
    { destruct (no_leaf_on _ t) eqn:E; [reflexivity|].
      apply no_leaf_on_false in E. destruct E as (pre & s & Hpre & Hleaf).
      apply Hinv, last_set_in in Hleaf. destruct Hleaf as (k0 & Hin & Hk0).
      specialize (Hk' _ _ Hin). rewrite Hk0 in Hk'.
      pose proof (prefix_of_app _ _ [last (split_on "." k) ""] Hpre) as Hp.
      rewrite <- split_on_snoc in Hp.
      pose proof (strictly_above_false _ _ Hk' Hp) as Hq.
      rewrite (split_on_snoc "." k) in Hq.
      assert (Heq : removelast (split_on "." k) ++ [last (split_on "." k) ""]
                    = pre).
      { apply prefix_of_antisym; [exact Hq|].
        rewrite <- split_on_snoc. exact Hp. }
      rewrite <- Heq in Hpre.
      clear - Hpre. exfalso.
      induction (removelast (split_on "." k)) as [|x xs IHx];
        simpl in Hpre; [discriminate|].
      rewrite String.eqb_refl in Hpre. auto. }
    destruct (set_path_ok _ (last (split_on "." k) "") v _ Hno) as [t' Ht'].
    rewrite <- assign_key_path in Ht'.
    exists t'. rewrite foldM_app, Ht. cbn [bind]. rewrite foldM_cons, Ht'.
    split; [reflexivity|].
    eapply last_set_step; eauto.
Qed.

(** Of the entries set at a path or above it, the last one stands. *)
Lemma last_set_above flat path :
  (exists k0 s0, In (k0, s0) flat /\ prefix_of (split_on "." k0) path = true) ->
  exists q s, last_set flat q s /\ prefix_of q path = true.
Proof.
  induction flat as [|[k v] flat IH] using rev_ind;
    intros (k0 & s0 & Hin & Hpre).
  - destruct Hin.
  - destruct (prefix_of (split_on "." k) path) eqn:E.
    + exists (split_on "." k), v. split; [|exact E].
      apply last_set_snoc. left. auto.
    + apply in_snoc in Hin. destruct Hin as [Hin | Heq].
      * destruct IH as (q & s & Hlast & Hq); [eauto|].
        exists q, s. split; [|exact Hq].
        apply last_set_snoc. right. split; [exact Hlast|].
        destruct (prefix_of (split_on "." k) q) eqn:Ek; [|reflexivity].
        rewrite (prefix_of_trans _ _ _ Ek Hq) in E. discriminate.
      * injection Heq as -> ->. congruence.
Qed.

Lemma no_leaf_first_snoc_false keys k :
  no_leaf_first (keys ++ [k]) = false ->
  no_leaf_first keys = false
  \/ exists k0, In k0 keys
       /\ strictly_above (split_on "." k0) (split_on "." k) = true.
Proof.
  induction keys as [|a keys IH]; simpl; intros H.
  - discriminate.
  - rewrite forallb_app in H. simpl in H. rewrite andb_true_r in H.
    destruct (forallb _ keys) eqn:Ea; simpl in *.
    + destruct (strictly_above (split_on "." a) (split_on "." k)) eqn:Es;
        simpl in H.
      * right. exists a. auto.
      * destruct (IH H) as [Hk | (k0 & Hin & Hk0)]; [auto|].
        right. exists k0. auto.
    + left. reflexivity.
Qed.

(** A key that goes through the place of an earlier key stops the
    assembly. *)
Lemma assembly_raises flat :
  no_leaf_first (map fst flat) = false ->
  parse_nested_form_data flat = Raise TypeError.
Proof.
  induction flat as [|[k v] flat IH] using rev_ind; intros Hfree.
  - discriminate.
  - rewrite map_app in Hfree. apply no_leaf_first_snoc_false in Hfree.
    destruct Hfree as [Hfree | (k0 & Hin & Hk0)].
    + unfold parse_nested_form_data in *.
      rewrite foldM_app, (IH Hfree). reflexivity.
    + destruct (no_leaf_first (map fst flat)) eqn:Hflat.
      * destruct (assembled_last_set flat Hflat) as (t & Ht & Hinv).
        apply in_map_iff in Hin. destruct Hin as ([k0' s0] & <- & Hin).
        unfold strictly_above in Hk0. apply andb_true_iff in Hk0.
        destruct Hk0 as [Hpre Hnot]. apply negb_true_iff in Hnot.
        simpl in Hpre, Hnot.
        destruct (last_set_above flat (split_on "." k0'))
          as (q & s & Hlast & Hq).
        { exists k0', s0. split; [exact Hin | apply prefix_of_refl]. }
        apply Hinv in Hlast.
        apply (parse_through_leaf flat t q s k v Ht Hlast).
        eapply prefix_of_trans; [exact Hq|].
        rewrite (split_on_snoc "." k) in Hpre.
        apply (prefix_of_snoc _ _ _ Hpre).
        intros Heq. rewrite <- (split_on_snoc "." k) in Heq.
        rewrite Heq, prefix_of_refl in Hnot. discriminate.
      * unfold parse_nested_form_data in *.
        rewrite foldM_app, (IH eq_refl). reflexivity.
Qed.

(** C3, amended: the assembly completes exactly for the submissions in
    which no key goes through the place of a key processed before it
    (the path of the earlier key stopping above the path of the later
    one); every other submission ends in [TypeError].  Where it completes
    the last-processed key wins: the leaves of the tree are the values
    of the entries after which no entry was set at the same path or above
    it, so that a leaf set where earlier dotted keys built a nested map
    replaces the map, silently.  For submissions whose keys do not
    collide the order of assembly does not change the outcome: the trees
    of two orders are equal. *)
Theorem group_then_leaf_overwrites_and_order_is_immaterial :
  (forall flat,
      no_leaf_first (map fst flat) = true ->
      exists t,
        parse_nested_form_data flat = Ret t
        /\ forall path s,
             get_path path t = Some (FStr s) <-> last_set flat path s)
  /\ (forall flat,
         no_leaf_first (map fst flat) = false ->
         parse_nested_form_data flat = Raise TypeError)
  /\ (forall flat t key value m,
         parse_nested_form_data flat = Ret t ->
         get_path (split_on "." key) t = Some (FMap m) ->
         exists t',
           parse_nested_form_data (flat ++ [(key, value)]) = Ret t'
           /\ get_path (split_on "." key) t' = Some (FStr value))
  /\ (forall flat flat',
         Permutation flat flat' ->
         collision_free (map fst flat) = true ->
         exists t t',
           parse_nested_form_data flat = Ret t
           /\ parse_nested_form_data flat' = Ret t'
           /\ form_eqb t t' = true).
Proof.
  split; [|split; [|split]].
  - intros flat Hfree.
    destruct (assembled_last_set flat Hfree) as (t & Ht & Hinv).
    exists t. split; [exact Ht|]. intros path s. rewrite <- Hinv.
    split; [|apply kind_at_leaf].
    intros H. unfold kind_at. rewrite H. reflexivity.
  - exact assembly_raises.
  - intros flat t key value m Ht Hm.
    rewrite (split_on_snoc "." key) in Hm.
    pose proof (get_path_no_leaf _ _ _ _ Hm ltac:(discriminate)) as Hno.
    destruct (set_path_ok _ (last (split_on "." key) "") value _ Hno)
      as [t' Ht'].
    exists t'. split.
    + unfold parse_nested_form_data in *.
      rewrite foldM_app, Ht. cbn [bind].
      rewrite foldM_cons, assign_key_path, Ht'. reflexivity.
    + rewrite (split_on_snoc "." key). apply kind_at_leaf.
      eapply set_path_leaf. exact Ht'.
  - intros flat flat' Hperm Hfree.
    assert (Hfree' : collision_free (map fst flat') = true).
    { eapply collision_free_perm; [|exact Hfree].
      apply Permutation_map. exact Hperm. }
    destruct (assembled_shape flat Hfree) as (t & Ht & Hshape & Hdist).
    destruct (assembled_shape flat' Hfree') as (t' & Ht' & Hshape' & Hdist').
    exists t, t'. split; [exact Ht|]. split; [exact Ht'|].
    apply same_kinds_equal; auto.
    intros path. eapply shape_of_kinds; [|exact Hshape'].
    eapply shape_of_perm; eauto.
Qed.

Lemma group_then_leaf_overwrites_and_order_is_immaterial_witness :
  (no_leaf_first (map fst [("x.y", "2"); ("z", "3"); ("x", "1")]) = true
   /\ exists t,
       parse_nested_form_data [("x.y", "2"); ("z", "3"); ("x", "1")] = Ret t
       /\ forall path s,
            get_path path t = Some (FStr s)
            <-> last_set [("x.y", "2"); ("z", "3"); ("x", "1")] path s)
  /\ (no_leaf_first (map fst [("x.y", "2"); ("x", "1"); ("x.z", "3")]) = false
      /\ parse_nested_form_data [("x.y", "2"); ("x", "1"); ("x.z", "3")]
         = Raise TypeError)
  /\ (parse_nested_form_data [("x.y", "2")]
      = Ret (FMap [("x", FMap [("y", FStr "2")])])
      /\ get_path (split_on "." "x") (FMap [("x", FMap [("y", FStr "2")])])
         = Some (FMap [("y", FStr "2")])
      /\ exists t',
          parse_nested_form_data ([("x.y", "2")] ++ [("x", "1")]) = Ret t'
          /\ get_path (split_on "." "x") t' = Some (FStr "1"))
  /\ (collision_free (map fst [("a.b", "1"); ("c", "2"); ("a.d", "3")]) = true
      /\ exists t t',
          parse_nested_form_data [("a.b", "1"); ("c", "2"); ("a.d", "3")]
          = Ret t
          /\ parse_nested_form_data [("a.d", "3"); ("a.b", "1"); ("c", "2")]
             = Ret t'
          /\ form_eqb t t' = true).
Proof.
  split; [|split; [|split]].
  - split; [reflexivity|].
    exact (proj1 group_then_leaf_overwrites_and_order_is_immaterial
             [("x.y", "2"); ("z", "3"); ("x", "1")] eq_refl).
  - split; [reflexivity|].
    exact (proj1 (proj2 group_then_leaf_overwrites_and_order_is_immaterial)
             [("x.y", "2"); ("x", "1"); ("x.z", "3")] eq_refl).
  - split; [reflexivity|]. split; [reflexivity|].
    exact (proj1 (proj2 (proj2
                           group_then_leaf_overwrites_and_order_is_immaterial))
             [("x.y", "2")] (FMap [("x", FMap [("y", FStr "2")])])
             "x" "1" [("y", FStr "2")] eq_refl eq_refl).
  - split; [reflexivity|].
    apply (proj2 (proj2 (proj2
                           group_then_leaf_overwrites_and_order_is_immaterial))
             [("a.b", "1"); ("c", "2"); ("a.d", "3")]
             [("a.d", "3"); ("a.b", "1"); ("c", "2")]).
    + apply Permutation_sym.
      apply (Permutation_cons_app [("a.b", "1"); ("c", "2")] []).
      rewrite app_nil_r. apply Permutation_refl.
    + reflexivity.
Defined.

(** ** Validator *)

Lemma validate_field_numeric L field_name value fs integer :
  dict_get "type" fs = Some (JStr (type_name integer)) ->
  validate_field_value L field_name value (JObj fs)
  = validate_numeric L field_name integer value fs.
Proof.
  intros Ht. unfold validate_field_value, get_default. rewrite Ht.
  destruct integer; reflexivity.
Qed.

Lemma validate_field_string L field_name value fs :
  get_default "type" (JStr "string") fs = JStr "string" ->
  validate_field_value L field_name value (JObj fs)
  = validate_string L field_name value fs.
Proof.
  intros Ht. unfold validate_field_value. rewrite Ht. reflexivity.
Qed.

Lemma py_lt_num a m :
  as_num m <> None ->
  py_lt a m = Ret (match as_num m with
                   | Some y => float_ltb a y
                   | None => false
                   end).
Proof. unfold py_lt. destruct (as_num m); [reflexivity | congruence]. Qed.

Lemma py_gt_num a m :
  as_num m <> None ->
  py_gt a m = Ret (match as_num m with
                   | Some y => float_ltb y a
                   | None => false
                   end).
Proof. unfold py_gt. destruct (as_num m); [reflexivity | congruence]. Qed.

(** C6: for a field of type [integer] or [number] and a string value,
    a failed coercion gives the coercion message alone, with no range
    check; a successful one gives a message for a value below [minimum],
    a message for a value above [maximum], each on its own, and no message
    for a value within the bounds. *)
Theorem numeric_field_messages
  (L : pylib) (field_name s : string) (fs : list (string * json))
  (integer : bool) :
  dict_get "type" fs = Some (JStr (type_name integer)) ->
  (forall m, dict_get "minimum" fs = Some m -> as_num m <> None) ->
  (forall m, dict_get "maximum" fs = Some m -> as_num m <> None) ->
  (coerced_number L integer s = None ->
   validate_field_value L field_name (FStr s) (JObj fs)
   = Ret [coercion_msg field_name (type_name integer)])
  /\ (forall x,
         coerced_number L integer s = Some x ->
         validate_field_value L field_name (FStr s) (JObj fs)
         = Ret ((if below_minimum x fs
                 then [minimum_msg field_name
                         (py_str L (get_default "minimum" JNull fs))]
                 else [])
                ++ (if above_maximum x fs
                    then [maximum_msg field_name
                            (py_str L (get_default "maximum" JNull fs))]
                    else [])))
  /\ (forall x,
         coerced_number L integer s = Some x ->
         below_minimum x fs = false -> above_maximum x fs = false ->
         validate_field_value L field_name (FStr s) (JObj fs) = Ret []).
Proof.
  intros Ht Hmin Hmax.
  assert (Hsome : forall x,
             coerced_number L integer s = Some x ->
             validate_field_value L field_name (FStr s) (JObj fs)
             = Ret ((if below_minimum x fs
                     then [minimum_msg field_name
                             (py_str L (get_default "minimum" JNull fs))]
                     else [])
                    ++ (if above_maximum x fs
                        then [maximum_msg field_name
                                (py_str L (get_default "maximum" JNull fs))]
                        else []))).
  { intros x Hx. rewrite (validate_field_numeric _ _ _ _ _ Ht).
    unfold validate_numeric, coerce.
    replace (if integer
             then @Ret (option pyfloat)
                    (option_map (fun n => FFin (inject_Z n)) (py_int L s))
             else Ret (py_float L s))
      with (Ret (coerced_number L integer s))
      by (unfold coerced_number; destruct integer; reflexivity).
    rewrite Hx. cbn [bind].
    unfold check_minimum, check_maximum.
    unfold below_minimum, above_maximum, get_default.
    destruct (dict_get "minimum" fs) as [m|] eqn:Em;
      destruct (dict_get "maximum" fs) as [m'|] eqn:Em';
      try rewrite (py_lt_num x m (Hmin _ eq_refl));
      try rewrite (py_gt_num x m' (Hmax _ eq_refl));
      reflexivity. }
  split; [|split].
  - intros Hnone. rewrite (validate_field_numeric _ _ _ _ _ Ht).
    unfold validate_numeric, coerce. unfold coerced_number in Hnone.
    destruct integer; rewrite Hnone; reflexivity.
  - exact Hsome.
  - intros x Hx Hb Ha. rewrite (Hsome x Hx), Hb, Ha. reflexivity.
Qed.

Lemma numeric_field_messages_witness :
  (dict_get "type" [("type", JStr "integer"); ("minimum", JInt 0);
                    ("maximum", JInt 10)]
   = Some (JStr (type_name true))
   /\ coerced_number plain_lib true "15" = Some (FFin (inject_Z 15)))
  /\ validate_field_value plain_lib "age" (FStr "15")
       (JObj [("type", JStr "integer"); ("minimum", JInt 0);
              ("maximum", JInt 10)])
     = Ret ["'age' must be at most 10"].
Proof.
  split; [split; reflexivity|].
  refine (proj1 (proj2 (numeric_field_messages plain_lib "age" "15"
                          [("type", JStr "integer"); ("minimum", JInt 0);
                           ("maximum", JInt 10)] true eq_refl _ _))
            (FFin (inject_Z 15)) eq_refl).
  - intros m H. injection H as <-. discriminate.
  - intros m H. injection H as <-. discriminate.
Defined.

(** The three inputs the specification names for an integer between 0
    and 10. *)
Example integer_in_range :
  validate_field_value plain_lib "age" (FStr "5")
    (JObj [("type", JStr "integer"); ("minimum", JInt 0);
           ("maximum", JInt 10)]) = Ret [].
Proof. reflexivity. Qed.

Example integer_not_a_number :
  validate_field_value plain_lib "age" (FStr "abc")
    (JObj [("type", JStr "integer"); ("minimum", JInt 0);
           ("maximum", JInt 10)]) = Ret ["'age' must be a valid integer"].
Proof. reflexivity. Qed.

(** *** Messages *)

Lemma append_inv_head (s a b : string) : (s ++ a = s ++ b)%string -> a = b.
Proof.
  induction s as [|c s IH]; simpl; intros H; [exact H|].
  injection H as H. auto.
Qed.

Lemma append_length (a b : string) :
  String.length (a ++ b) = String.length a + String.length b.
Proof. induction a as [|c a IH]; simpl; [reflexivity | now rewrite IH]. Qed.

Lemma append_inv_tail (a b s : string) : (a ++ s = b ++ s)%string -> a = b.
Proof.
  revert b. induction a as [|c a IH]; intros [|c' b] H.
  - reflexivity.
  - apply (f_equal String.length) in H. simpl in H.
    rewrite append_length in H. lia.
  - apply (f_equal String.length) in H. simpl in H.
    rewrite append_length in H. lia.
  - simpl in H. injection H as -> H. f_equal. auto.
Qed.

Lemma required_msg_inj a b : required_msg a = required_msg b -> a = b.
Proof.
  unfold required_msg. intros H.
  apply (append_inv_head "Field '") in H.
  apply append_inv_tail in H. exact H.
Qed.

Lemma required_msg_not_quoted name : ~ quoted (required_msg name).
Proof. intros [rest H]. discriminate H. Qed.

Lemma must_msg_quoted name msg : must_msg name msg -> quoted msg.
Proof. intros [rest ->]. eexists. reflexivity. Qed.

Lemma must_msg_not_pattern name msg :
  must_msg name msg -> msg <> pattern_msg name.
Proof.
  intros [rest ->] H. unfold pattern_msg in H.
  apply (append_inv_head "'") in H. apply append_inv_head in H.
  discriminate H.
Qed.

Lemma pattern_msg_quoted name : quoted (pattern_msg name).
Proof. eexists. reflexivity. Qed.

Section Checks.
Variable L : pylib.
Variables (field_name : string) (fs : list (string * json)).

Lemma check_min_length_must value e :
  check_min_length L field_name value fs = Ret e ->
  Forall (must_msg field_name) e.
Proof.
  unfold check_min_length. destruct (dict_get "minLength" fs) as [m|].
  - intros H. apply bind_ret_inv in H. destruct H as ([|] & _ & H);
      injection H as <-; [|constructor].
    constructor; [|constructor].
    exists (" be at least " ++ py_str L m ++ " characters")%string.
    reflexivity.
  - intros H. injection H as <-. constructor.
Qed.

Lemma check_max_length_must value e :
  check_max_length L field_name value fs = Ret e ->
  Forall (must_msg field_name) e.
Proof.
  unfold check_max_length. destruct (dict_get "maxLength" fs) as [m|].
  - intros H. apply bind_ret_inv in H. destruct H as ([|] & _ & H);
      injection H as <-; [|constructor].
    constructor; [|constructor].
    exists (" be at most " ++ py_str L m ++ " characters")%string.
    reflexivity.
  - intros H. injection H as <-. constructor.
Qed.

Lemma check_enum_must value e :
  check_enum field_name value fs = Ret e ->
  Forall (must_msg field_name) e.
Proof.
  unfold check_enum. destruct (dict_get "enum" fs) as [allowed|].
  - intros H. apply bind_ret_inv in H. destruct H as ([|] & _ & H).
    + injection H as <-. constructor.
    + apply bind_ret_inv in H. destruct H as (joined & _ & H).
      injection H as <-. constructor; [|constructor].
      exists (" be one of: " ++ joined)%string. reflexivity.
  - intros H. injection H as <-. constructor.
Qed.

Lemma check_format_must value e :
  check_format L field_name value fs = Ret e ->
  Forall (must_msg field_name) e.
Proof.
  unfold check_format.
  destruct (py_eq_str (get_default "format" JNull fs) "email").
  - intros H. apply bind_ret_inv in H. destruct H as ([|] & _ & H);
      injection H as <-; [constructor|].
    constructor; [|constructor]. exists " be a valid email". reflexivity.
  - intros H. injection H as <-. constructor.
Qed.

Lemma check_minimum_must x e :
  check_minimum L field_name x fs = Ret e ->
  Forall (must_msg field_name) e.
Proof.
  unfold check_minimum. destruct (dict_get "minimum" fs) as [m|].
  - intros H. apply bind_ret_inv in H. destruct H as ([|] & _ & H);
      injection H as <-; [|constructor].
    constructor; [|constructor].
    exists (" be at least " ++ py_str L m)%string. reflexivity.
  - intros H. injection H as <-. constructor.
Qed.

Lemma check_maximum_must x e :
  check_maximum L field_name x fs = Ret e ->
  Forall (must_msg field_name) e.
Proof.
  unfold check_maximum. destruct (dict_get "maximum" fs) as [m|].
  - intros H. apply bind_ret_inv in H. destruct H as ([|] & _ & H);
      injection H as <-; [|constructor].
    constructor; [|constructor].
    exists (" be at most " ++ py_str L m)%string. reflexivity.
  - intros H. injection H as <-. constructor.
Qed.

Lemma check_pattern_cases value e :
  check_pattern L field_name value fs = Ret e ->
  e = [] \/ e = [pattern_msg field_name].
Proof.
  unfold check_pattern. destruct (dict_get "pattern" fs) as [p|].
  - intros H. apply bind_ret_inv in H. destruct H as ([|] & _ & H);
      injection H as <-; auto.
  - intros H. injection H as <-. auto.
Qed.

(** The messages of the string branch, check by check. *)
Lemma validate_string_inv value errs :
  validate_string L field_name value fs = Ret errs ->
  exists e1 e2 e3 e4 e5,
    check_min_length L field_name value fs = Ret e1
    /\ check_max_length L field_name value fs = Ret e2
    /\ check_pattern L field_name value fs = Ret e3
    /\ check_enum field_name value fs = Ret e4
    /\ check_format L field_name value fs = Ret e5
    /\ errs = e1 ++ e2 ++ e3 ++ e4 ++ e5.
Proof.
  unfold validate_string. intros H.
  apply bind_ret_inv in H. destruct H as (e1 & H1 & H).
  apply bind_ret_inv in H. destruct H as (e2 & H2 & H).
  apply bind_ret_inv in H. destruct H as (e3 & H3 & H).
  apply bind_ret_inv in H. destruct H as (e4 & H4 & H).
  apply bind_ret_inv in H. destruct H as (e5 & H5 & H).
  injection H as <-. exists e1, e2, e3, e4, e5. auto 10.
Qed.

Lemma validate_numeric_must integer value errs :
  validate_numeric L field_name integer value fs = Ret errs ->
  Forall (must_msg field_name) errs.
Proof.
  unfold validate_numeric. intros H.
  apply bind_ret_inv in H. destruct H as ([x|] & _ & H).
  - apply bind_ret_inv in H. destruct H as (e1 & H1 & H).
    apply bind_ret_inv in H. destruct H as (e2 & H2 & H).
    injection H as <-. apply Forall_app. split.
    + eapply check_minimum_must; eauto.
    + eapply check_maximum_must; eauto.
  - injection H as <-. constructor; [|constructor].
    exists (" be a valid " ++ (if integer then "integer" else "number"))%string.
    reflexivity.
Qed.

End Checks.

Lemma validate_field_quoted L field_name value field_schema errs :
  validate_field_value L field_name value field_schema = Ret errs ->
  Forall quoted errs.
Proof.
  unfold validate_field_value. destruct field_schema; try discriminate.
  destruct (py_eq_str _ "string").
  - intros H. apply validate_string_inv in H.
    destruct H as (e1 & e2 & e3 & e4 & e5 & H1 & H2 & H3 & H4 & H5 & ->).
    repeat (apply Forall_app; split).
    + eapply Forall_impl; [apply must_msg_quoted|].
      eapply check_min_length_must; eauto.
    + eapply Forall_impl; [apply must_msg_quoted|].
      eapply check_max_length_must; eauto.
    + destruct (check_pattern_cases _ _ _ _ _ H3) as [-> | ->];
        repeat constructor. apply pattern_msg_quoted.
    + eapply Forall_impl; [apply must_msg_quoted|].
      eapply check_enum_must; eauto.
    + eapply Forall_impl; [apply must_msg_quoted|].
      eapply check_format_must; eauto.
  - destruct (_ || _).
    + intros H. eapply Forall_impl; [apply must_msg_quoted|].
      eapply validate_numeric_must; eauto.
    + intros H. injection H as <-. constructor.
Qed.

Lemma validate_entry_quoted L fuel properties resolved entry errs :
  validate_entry L fuel properties resolved entry = Ret errs ->
  Forall quoted errs.
Proof.
  unfold validate_entry. destruct entry as [field_name value]. intros H.
  apply bind_ret_inv in H. destruct H as (declared & _ & H).
  destruct (declared && form_truthy value).
  - apply bind_ret_inv in H. destruct H as (fs0 & _ & H).
    apply bind_ret_inv in H. destruct H as (fs1 & _ & H).
    eapply validate_field_quoted; eauto.
  - injection H as <-. constructor.
Qed.

Lemma mapM_each {A B} (f : A -> outcome B) l ys :
  mapM f l = Ret ys -> Forall2 (fun x y => f x = Ret y) l ys.
Proof.
  revert ys. induction l as [|x xs IH]; intros ys H.
  - injection H as <-. constructor.
  - rewrite mapM_cons in H. apply bind_ret_inv in H.
    destruct H as (y & Hy & H). apply bind_ret_inv in H.
    destruct H as (ys' & Hys & H). injection H as <-.
    constructor; auto.
Qed.

Lemma is_missing_str data name :
  is_missing data (JStr name) = Ret (is_missing_name data name).
Proof.
  unfold is_missing, is_missing_name.
  destruct (dict_get name data) as [[[|c s]|d]|]; reflexivity.
Qed.

Lemma is_missing_name_iff data name :
  is_missing_name data name = true
  <-> dict_get name data = None \/ dict_get name data = Some (FStr "").
Proof.
  unfold is_missing_name.
  destruct (dict_get name data) as [[[|c s]|d]|]; split; auto;
    intros H; try discriminate; destruct H; discriminate.
Qed.

(** The loop over the required names. *)
Lemma check_required_names L data names :
  check_required L data (JArr (map JStr names))
  = Ret (map required_msg (filter (is_missing_name data) names)).
Proof.
  unfold check_required. cbn [py_iter bind].
  assert (H : mapM (fun field =>
                      missing <- is_missing data field ;;
                      Ret (if missing : bool
                           then [required_msg (py_str L field)] else []))
                (map JStr names)
              = Ret (map (fun name => if is_missing_name data name
                                      then [required_msg name] else [])
                       names)).
  { induction names as [|name names IH]; [reflexivity|].
    cbn [map]. rewrite mapM_cons, is_missing_str, IH. reflexivity. }
  rewrite H. cbn [bind]. f_equal. clear H.
  induction names as [|name names IH]; [reflexivity|].
  cbn [map filter List.concat]. rewrite IH.
  destruct (is_missing_name data name); reflexivity.
Qed.

(** C5: the required pass returns the message [Field '<name>' is required]
    for exactly the names of [required] in the resolved schema that the
    submission lacks or holds as the empty string, and these are the only
    messages of that form among the messages of the validation; a required
    name present with a non-empty value has no such message. *)
Theorem required_messages_exact
  (L : pylib) (fuel : nat) (data : list (string * form)) (schema : json)
  (rs : list (string * json)) (names : list string) :
  resolve_schema_refs fuel schema schema = Ret (JObj rs) ->
  get_default "required" (JArr []) rs = JArr (map JStr names) ->
  check_required L data (get_default "required" (JArr []) rs)
  = Ret (map required_msg (filter (is_missing_name data) names))
  /\ forall errs,
      validate_against_schema L fuel data schema = Ret errs ->
      forall name,
        In (required_msg name) errs
        <-> In name names
            /\ (dict_get name data = None
                \/ dict_get name data = Some (FStr "")).
Proof.
  intros Hres Hreq. split; [rewrite Hreq; apply check_required_names|].
  intros errs Hval name. unfold validate_against_schema in Hval.
  rewrite Hres in Hval. cbn [bind] in Hval.
  rewrite Hreq, check_required_names in Hval. cbn [bind] in Hval.
  apply bind_ret_inv in Hval. destruct Hval as (field_errors & Hfields & Hval).
  injection Hval as <-. rewrite in_app_iff, <- is_missing_name_iff. split.
  - intros [Hin | Hin].
    + apply in_map_iff in Hin. destruct Hin as (n & Hn & Hin).
      apply required_msg_inj in Hn. subst n.
      apply filter_In in Hin. exact Hin.
    + exfalso. apply in_concat in Hin. destruct Hin as (e & He & Hin).
      apply mapM_each in Hfields.
      assert (Hq : Forall (Forall quoted) field_errors).
      { clear -Hfields. induction Hfields as [|x y l l' Hxy _ IH];
          constructor; auto.
        eapply validate_entry_quoted. exact Hxy. }
      rewrite Forall_forall in Hq. specialize (Hq e He).
      rewrite Forall_forall in Hq.
      exact (required_msg_not_quoted name (Hq _ Hin)).
  - intros Hin. left. apply in_map. apply filter_In. exact Hin.
Qed.

Lemma required_messages_exact_witness :
  validate_against_schema plain_lib 0 [("name", FStr "ab")] name_schema
  = Ret ["'name' must be at least 3 characters"]
  /\ (In (required_msg "name") ["'name' must be at least 3 characters"]
      <-> In "name" ["name"]
          /\ (dict_get "name" [("name", FStr "ab")] = None
              \/ dict_get "name" [("name", FStr "ab")] = Some (FStr ""))).
Proof.
  split; [reflexivity|].
  exact (proj2 (required_messages_exact plain_lib 0 [("name", FStr "ab")]
           name_schema
           [("properties",
             JObj [("name", JObj [("type", JStr "string");
                                  ("minLength", JInt 3)])]);
            ("required", JArr [JStr "name"])]
           ["name"] eq_refl eq_refl)
           ["'name' must be at least 3 characters"] eq_refl "name").
Defined.

(** The submission [{}] against the same schema: the required message
    and no length message. *)
Example required_name_absent :
  validate_against_schema plain_lib 0 [] name_schema
  = Ret ["Field 'name' is required"].
Proof. reflexivity. Qed.

(** ** Regular expressions *)

Lemma append_nil_inv (a b : string) :
  (a ++ b)%string = "" -> a = "" /\ b = "".
Proof. destruct a; [simpl; auto | discriminate]. Qed.

Lemma nullable_spec r : nullable r = true <-> in_lang r "".
Proof.
  split.
  - induction r; simpl; intros H; try discriminate.
    + constructor.
    + apply andb_true_iff in H. destruct H as [H1 H2].
      change "" with ("" ++ "")%string. constructor; auto.
    + apply orb_true_iff in H. destruct H; [apply in_alt_l | apply in_alt_r];
        auto.
    + constructor.
  - remember "" as s eqn:Es. induction 1; simpl; try discriminate; auto.
    + apply append_nil_inv in Es. destruct Es as [-> ->].
      rewrite IHin_lang1, IHin_lang2; auto.
    + rewrite IHin_lang; auto.
    + rewrite IHin_lang; auto using orb_true_r.
Qed.

(** A non-empty word of a star begins with a non-empty word of the
    expression under the star. *)
Lemma star_cons_inv r c s :
  in_lang (RStar r) (String c s) ->
  exists s1 s2,
    s = (s1 ++ s2)%string /\ in_lang r (String c s1) /\ in_lang (RStar r) s2.
Proof.
  remember (RStar r) as r' eqn:Er. remember (String c s) as w eqn:Ew.
  intros H. revert r c s Er Ew.
  induction H; intros r0 c0 s0 Er Ew; try discriminate.
  injection Er as ->. destruct s1 as [|c1 s1].
  - simpl in Ew. eapply IHin_lang2; eauto.
  - simpl in Ew. injection Ew as -> <-. eauto.
Qed.

Lemma deriv_spec c r s : in_lang (deriv c r) s <-> in_lang r (String c s).
Proof.
  revert s. induction r as [| |x| |r1 IH1 r2 IH2|r1 IH1 r2 IH2|r IH];
    intros s; simpl.
  - split; intros H; inversion H.
  - split; intros H; inversion H.
  - destruct (Ascii.eqb x c) eqn:E.
    + apply Ascii.eqb_eq in E. subst x. split; intros H; inversion H; subst.
      * constructor.
      * constructor.
    + apply Ascii.eqb_neq in E. split; intros H; inversion H; subst.
      congruence.
  - destruct (Ascii.eqb c newline) eqn:E.
    + apply Ascii.eqb_eq in E. split; intros H; inversion H; subst.
      congruence.
    + apply Ascii.eqb_neq in E. split; intros H; inversion H; subst.
      * constructor. exact E.
      * constructor.
  - assert (Hcat : in_lang (RCat (deriv c r1) r2) s
                   -> in_lang (RCat r1 r2) (String c s)).
    { intros H. inversion H; subst.
      change (String c (s1 ++ s2)) with (String c s1 ++ s2)%string.
      constructor; [apply IH1|]; assumption. }
    split.
    + destruct (nullable r1) eqn:N; [|exact Hcat].
      intros H. inversion H; subst; [auto|].
      change (String c s) with ("" ++ String c s)%string.
      constructor; [apply nullable_spec; exact N | apply IH2; assumption].
    + intros H. inversion H as [| | |? ? s1 s2 H1 H2 Hr Hs| | | |]; subst.
      destruct s1 as [|c1 s1]; simpl in Hs.
      * subst s2. apply nullable_spec in H1. rewrite H1.
        apply in_alt_r. apply IH2. exact H2.
      * injection Hs as -> <-.
        assert (in_lang (RCat (deriv c r1) r2) (s1 ++ s2)).
        { constructor; [apply IH1|]; assumption. }
        destruct (nullable r1); [apply in_alt_l|]; assumption.
  - split; intros H; inversion H; subst.
    + apply in_alt_l. apply IH1. assumption.
    + apply in_alt_r. apply IH2. assumption.
    + apply in_alt_l. apply IH1. assumption.
    + apply in_alt_r. apply IH2. assumption.
  - split.
    + intros H. inversion H; subst.
      change (String c (s1 ++ s2)) with (String c s1 ++ s2)%string.
      apply in_star_cons; [apply IH|]; assumption.
    + intros H. apply star_cons_inv in H.
      destruct H as (s1 & s2 & -> & H1 & H2).
      constructor; [apply IH|]; assumption.
Qed.

(** [re.match] succeeds exactly when an initial segment of the string is
    a word of the expression. *)
Lemma match_prefix_spec r s :
  match_prefix r s = true
  <-> exists s1 s2, s = (s1 ++ s2)%string /\ in_lang r s1.
Proof.
  revert r. induction s as [|c s IH]; intros r; simpl.
  - rewrite orb_false_r, nullable_spec. split.
    + intros H. exists "", "". auto.
    + intros (s1 & s2 & Hs & H). symmetry in Hs.
      apply append_nil_inv in Hs. destruct Hs as [-> _]. exact H.
  - rewrite orb_true_iff, nullable_spec, IH. split.
    + intros [H | (s1 & s2 & -> & H)].
      * exists "", (String c s). auto.
      * exists (String c s1), s2. split; [reflexivity|].
        apply deriv_spec. exact H.
    + intros (s1 & s2 & Hs & H). destruct s1 as [|c1 s1].
      * auto.
      * simpl in Hs. injection Hs as <- ->. right.
        exists s1, s2. split; [reflexivity|]. apply deriv_spec. exact H.
Qed.

(** Characters after a match do not undo it. *)
Lemma match_prefix_app r s extra :
  match_prefix r s = true -> match_prefix r (s ++ extra) = true.
Proof.
  rewrite !match_prefix_spec. intros (s1 & s2 & -> & H).
  exists s1, (s2 ++ extra)%string. split; [|exact H].
  clear. induction s1 as [|c s1 IH]; simpl; [reflexivity | now rewrite IH].
Qed.

(** A match to the end of the string is a match of the whole string. *)
Lemma match_full_spec r s : match_full r s = true <-> in_lang r s.
Proof.
  revert r. induction s as [|c s IH]; intros r; simpl.
  - apply nullable_spec.
  - rewrite IH. apply deriv_spec.
Qed.

(** In the string branch, the pattern message comes from the pattern
    check and from no other. *)
Lemma pattern_msg_source L field_name value fs errs :
  get_default "type" (JStr "string") fs = JStr "string" ->
  validate_field_value L field_name value (JObj fs) = Ret errs ->
  exists e3,
    check_pattern L field_name value fs = Ret e3
    /\ (In (pattern_msg field_name) errs <-> In (pattern_msg field_name) e3).
Proof.
  intros Ht H. rewrite (validate_field_string _ _ _ _ Ht) in H.
  apply validate_string_inv in H.
  destruct H as (e1 & e2 & e3 & e4 & e5 & H1 & H2 & H3 & H4 & H5 & ->).
  exists e3. split; [exact H3|].
  assert (Hno : forall e, Forall (must_msg field_name) e ->
                          ~ In (pattern_msg field_name) e).
  { intros e He Hin. rewrite Forall_forall in He.
    exact (must_msg_not_pattern _ _ (He _ Hin) eq_refl). }
  apply check_min_length_must, Hno in H1.
  apply check_max_length_must, Hno in H2.
  apply check_enum_must, Hno in H4.
  apply check_format_must, Hno in H5.
  rewrite !in_app_iff. tauto.
Qed.

Lemma check_pattern_rexp compile to_int to_float repr field_name s fs p r :
  dict_get "pattern" fs = Some (JStr p) ->
  compile p = Some r ->
  check_pattern (rexp_lib compile to_int to_float repr) field_name (FStr s) fs
  = Ret (if match_prefix r s then [] else [pattern_msg field_name]).
Proof.
  intros Hp Hc. unfold check_pattern, py_re_match. rewrite Hp. simpl.
  rewrite Hc. reflexivity.
Qed.

(** C7: for a string field with a [pattern] and a string value, the
    pattern check returns no message exactly when the pattern matches from
    position 0, that is when some initial segment of the value is a word
    of the pattern; the end of the value is not looked at, so a value that
    passes still passes with more characters after it. *)
Theorem pattern_check_matches_at_start
  (compile : string -> option rexp) (to_int : string -> option Z)
  (to_float : string -> option pyfloat) (repr : json -> string)
  (field_name s p : string) (r : rexp) (fs : list (string * json)) :
  get_default "type" (JStr "string") fs = JStr "string" ->
  dict_get "pattern" fs = Some (JStr p) ->
  compile p = Some r ->
  (exists e,
      check_pattern (rexp_lib compile to_int to_float repr)
        field_name (FStr s) fs = Ret e
      /\ (e = [] <-> exists s1 s2, s = (s1 ++ s2)%string /\ in_lang r s1)
      /\ (e <> [] -> e = [pattern_msg field_name]))
  /\ (forall errs,
         validate_field_value (rexp_lib compile to_int to_float repr)
           field_name (FStr s) (JObj fs) = Ret errs ->
         (~ In (pattern_msg field_name) errs
          <-> exists s1 s2, s = (s1 ++ s2)%string /\ in_lang r s1)
         /\ (forall extra errs',
                validate_field_value (rexp_lib compile to_int to_float repr)
                  field_name (FStr (s ++ extra)) (JObj fs) = Ret errs' ->
                ~ In (pattern_msg field_name) errs ->
                ~ In (pattern_msg field_name) errs')).
Proof.
  intros Ht Hp Hc. split.
  - exists (if match_prefix r s then [] else [pattern_msg field_name]).
    split; [apply (check_pattern_rexp _ _ _ _ _ _ _ _ _ Hp Hc)|].
    rewrite <- match_prefix_spec.
    destruct (match_prefix r s); split; try tauto; try discriminate.
    split; intros H; discriminate H.
  - intros errs Hval.
    assert (Hkey : forall s0 errs0,
               validate_field_value (rexp_lib compile to_int to_float repr)
                 field_name (FStr s0) (JObj fs) = Ret errs0 ->
               (~ In (pattern_msg field_name) errs0
                <-> match_prefix r s0 = true)).
    { intros s0 errs0 H0.
      destruct (pattern_msg_source _ _ _ _ _ Ht H0) as (e3 & He3 & ->).
      rewrite (check_pattern_rexp _ _ _ _ _ _ _ _ _ Hp Hc) in He3.
      injection He3 as <-. destruct (match_prefix r s0); simpl.
      - tauto.
      - split; [intros H; exfalso; apply H; auto | discriminate]. }
    split.
    + rewrite (Hkey _ _ Hval). apply match_prefix_spec.
    + intros extra errs' H' Hok. apply (Hkey _ _ H').
      apply match_prefix_app. apply (Hkey _ _ Hval). exact Hok.
Qed.

Lemma pattern_check_matches_at_start_witness :
  (get_default "type" (JStr "string")
     [("type", JStr "string"); ("pattern", JStr "ab")] = JStr "string"
   /\ literal "ab" = Some (RCat (RChr "a") (RCat (RChr "b") REps))
   /\ validate_field_value plain_lib "code" (FStr "ab")
        (JObj [("type", JStr "string"); ("pattern", JStr "ab")]) = Ret [])
  /\ ~ In (pattern_msg "code") []
  /\ validate_field_value plain_lib "code" (FStr "abc!")
       (JObj [("type", JStr "string"); ("pattern", JStr "ab")]) = Ret [].
Proof.
  split; [repeat split|].
  split; [|reflexivity].
  exact (proj2 (proj2 (pattern_check_matches_at_start
                         literal dec_int
                         (fun s => option_map (fun n => FFin (inject_Z n))
                                     (dec_int s))
                         (fun _ => "...")
                         "code" "ab" "ab"
                         (RCat (RChr "a") (RCat (RChr "b") REps))
                         [("type", JStr "string"); ("pattern", JStr "ab")]
                         eq_refl eq_refl eq_refl)
                  [] eq_refl)
           "c!" [] eq_refl (fun H => H)).
Defined.

(** A pattern that the whole value does not match, and that the start of
    the value matches: no message. *)
Example pattern_not_anchored_at_end :
  match_prefix (RCat (RChr "a") (RChr "b")) "abc" = true
  /\ match_full (RCat (RChr "a") (RChr "b")) "abc" = false
  /\ validate_field_value plain_lib "code" (FStr "abc")
       (JObj [("pattern", JStr "ab")]) = Ret []
  /\ validate_field_value plain_lib "code" (FStr "xab")
       (JObj [("pattern", JStr "ab")])
     = Ret ["'code' does not match required pattern"].
Proof. repeat split. Qed.

(** ** Resolved schemas *)

Lemma flat_map_nil_inv {A B} (f : A -> list B) l :
  flat_map f l = [] -> Forall (fun x => f x = []) l.
Proof.
  induction l as [|x xs IH]; simpl; intros H; [constructor|].
  apply app_eq_nil in H. destruct H. constructor; auto.
Qed.

Lemma mapM_id {A} (f : A -> outcome A) l :
  Forall (fun x => f x = Ret x) l -> mapM f l = Ret l.
Proof.
  induction 1 as [|x xs Hx _ IH]; [reflexivity|].
  rewrite mapM_cons, Hx, IH. reflexivity.
Qed.

(** Resolving a tree in which no ["$ref"] is left gives the tree back. *)
Lemma resolve_ref_free fuel full part :
  ref_targets part = [] -> resolve_schema_refs fuel part full = Ret part.
Proof.
  induction part as [|b|z|f|s|l IH|d IH] using json_ind; intros Hfree;
    try (rewrite resolve_unfold; reflexivity).
  - rewrite resolve_arr. simpl in Hfree. apply flat_map_nil_inv in Hfree.
    rewrite mapM_id; [reflexivity|].
    rewrite Forall_forall in *. auto.
  - simpl in Hfree. apply app_eq_nil in Hfree. destruct Hfree as [Href Hd].
    destruct (dict_get "$ref" d) eqn:E; [discriminate|].
    rewrite (resolve_obj_plain _ _ _ E). apply flat_map_nil_inv in Hd.
    rewrite mapM_id; [reflexivity|].
    rewrite Forall_forall in *. intros [k v] Hin.
    rewrite (IH _ Hin (Hd _ Hin)). reflexivity.
Qed.

Lemma ref_free_entry key v d :
  ref_targets (JObj d) = [] -> In (key, v) d -> ref_targets v = [].
Proof.
  intros Hfree Hin. pose proof (ref_targets_entry key v d Hin) as Hincl.
  rewrite Hfree in Hincl. destruct (ref_targets v) as [|t ts]; [reflexivity|].
  destruct (Hincl t (or_introl eq_refl)).
Qed.

(** ** Validation that returns *)

Lemma all_str_map ss : all_str (map JStr ss) = Some ss.
Proof.
  induction ss as [|s ss IH]; simpl; [reflexivity | now rewrite IH].
Qed.

Section Fits.
Variable L : pylib.
Variables (field_name : string) (value : form) (fs : list (string * json)).
Hypothesis Htyped : well_typed_constraints L fs.

Lemma check_min_length_total :
  exists e, check_min_length L field_name value fs = Ret e.
Proof.
  unfold check_min_length. destruct Htyped as (H & _).
  destruct (dict_get "minLength" fs) as [m|]; [|eauto].
  rewrite (py_lt_num _ _ (H _ eq_refl)). simpl. eauto.
Qed.

Lemma check_max_length_total :
  exists e, check_max_length L field_name value fs = Ret e.
Proof.
  unfold check_max_length. destruct Htyped as (_ & H & _).
  destruct (dict_get "maxLength" fs) as [m|]; [|eauto].
  rewrite (py_gt_num _ _ (H _ eq_refl)). simpl. eauto.
Qed.

Lemma check_minimum_total x :
  exists e, check_minimum L field_name x fs = Ret e.
Proof.
  unfold check_minimum. destruct Htyped as (_ & _ & H & _).
  destruct (dict_get "minimum" fs) as [m|]; [|eauto].
  rewrite (py_lt_num _ _ (H _ eq_refl)). simpl. eauto.
Qed.

Lemma check_maximum_total x :
  exists e, check_maximum L field_name x fs = Ret e.
Proof.
  unfold check_maximum. destruct Htyped as (_ & _ & _ & H & _).
  destruct (dict_get "maximum" fs) as [m|]; [|eauto].
  rewrite (py_gt_num _ _ (H _ eq_refl)). simpl. eauto.
Qed.

Lemma check_enum_total :
  exists e, check_enum field_name value fs = Ret e.
Proof.
  unfold check_enum. destruct Htyped as (_ & _ & _ & _ & _ & H & _).
  destruct (dict_get "enum" fs) as [allowed|]; [|eauto].
  destruct (H _ eq_refl) as [ss ->]. simpl.
  destruct (existsb _ _); [eauto|].
  rewrite all_str_map. simpl. eauto.
Qed.

Lemma check_pattern_total :
  (dict_mem "pattern" fs = true -> exists s, value = FStr s) ->
  exists e, check_pattern L field_name value fs = Ret e.
Proof.
  unfold check_pattern, dict_mem. destruct Htyped as (_ & _ & _ & _ & H & _).
  destruct (dict_get "pattern" fs) as [p|]; [|eauto].
  intros Hs. destruct (Hs eq_refl) as [s ->].
  destruct (H _ eq_refl) as (ps & -> & Hc). simpl.
  destruct (re_compile L ps); [simpl; eauto | congruence].
Qed.

Lemma check_format_total :
  (py_eq_str (get_default "format" JNull fs) "email" = true ->
   exists s, value = FStr s) ->
  exists e, check_format L field_name value fs = Ret e.
Proof.
  unfold check_format. destruct Htyped as (_ & _ & _ & _ & _ & _ & H).
  destruct (py_eq_str (get_default "format" JNull fs) "email"); [|eauto].
  intros Hs. destruct (Hs eq_refl) as [s ->]. simpl.
  specialize (H eq_refl).
  destruct (re_compile L EMAIL_PATTERN); [simpl; eauto | congruence].
Qed.

Lemma validate_field_total :
  (reads_string fs = true -> exists s, value = FStr s) ->
  exists errs, validate_field_value L field_name value (JObj fs) = Ret errs.
Proof.
  unfold reads_string, validate_field_value. cbv zeta.
  destruct (py_eq_str (get_default "type" (JStr "string") fs) "string")
    eqn:Es.
  - intros Hs. unfold validate_string.
    destruct check_min_length_total as [e1 ->].
    destruct check_max_length_total as [e2 ->].
    destruct check_pattern_total as [e3 ->].
    { intros Hp. apply Hs. rewrite Hp. simpl.
      destruct (py_eq_str _ "integer" || py_eq_str _ "number"); reflexivity. }
    destruct check_enum_total as [e4 ->].
    destruct check_format_total as [e5 ->].
    { intros Hp. apply Hs. rewrite Hp.
      destruct (py_eq_str _ "integer" || py_eq_str _ "number");
        simpl; auto using orb_true_r. }
    simpl. eauto.
  - cbn [andb]. rewrite orb_false_r.
    destruct (py_eq_str _ "integer" || py_eq_str _ "number"); [|eauto].
    intros Hs. destruct (Hs eq_refl) as [s ->].
    unfold validate_numeric, coerce.
    destruct (py_eq_str _ "integer").
    + cbn [bind]. destruct (option_map _ _) as [x|]; [|eauto].
      destruct (check_minimum_total x) as [e1 ->].
      destruct (check_maximum_total x) as [e2 ->]. simpl. eauto.
    + cbn [bind]. destruct (py_float L s) as [x|]; [|eauto].
      destruct (check_minimum_total x) as [e1 ->].
      destruct (check_maximum_total x) as [e2 ->]. simpl. eauto.
Qed.
End Fits.

Lemma properties_ref_free s0 props name property :
  ref_targets (JObj s0) = [] ->
  get_default "properties" (JObj []) s0 = JObj props ->
  dict_get name props = Some property ->
  ref_targets property = [].
Proof.
  unfold get_default. intros Hfree Hprops Hget.
  destruct (dict_get "properties" s0) as [x|] eqn:E.
  - subst x. apply dict_get_in in E. apply dict_get_in in Hget.
    eapply ref_free_entry; [|exact Hget].
    eapply ref_free_entry; [exact Hfree | exact E].
  - injection Hprops as <-. discriminate.
Qed.


(** * Further properties *)

(** ** RefResolver: what a resolution leaves and what it depends on *)

Lemma mapM_keys fuel full (d result : list (string * json)) :
  mapM (fun kv => v <- resolve_schema_refs fuel (snd kv) full ;;
                  Ret (fst kv, v)) d = Ret result ->
  map fst result = map fst d.
Proof.
  revert result. induction d as [|kv rest IH]; intros result H.
  - injection H as <-. reflexivity.
  - rewrite mapM_cons in H. apply bind_ret_inv in H.
    destruct H as (y & Hy & H). apply bind_ret_inv in H.
    destruct H as (ys & Hys & H). injection H as <-.
    apply bind_ret_inv in Hy. destruct Hy as (v & _ & Hy).
    injection Hy as <-. simpl. f_equal. auto.
Qed.

Lemma dict_get_same_keys {V W} key (d : list (string * V))
  (d' : list (string * W)) :
  map fst d' = map fst d -> dict_get key d = None -> dict_get key d' = None.
Proof.
  intros Hk Hn. apply dict_get_none. rewrite Hk. apply dict_get_none.
  exact Hn.
Qed.

(** The references left where the walk passes are those that do not
    resolve, once this holds of what entering a referent returns. *)
Lemma walk_leftover fuel full :
  (forall r0 r, on_referent_at fuel full r0 = Ret r ->
                Forall (unresolved_in full) (walk_refs r)) ->
  forall part r,
    resolve_schema_refs fuel part full = Ret r ->
    Forall (unresolved_in full) (walk_refs r).
Proof.
  intros Hhop part.
  induction part as [|b|z|f|s|l IH|d IH] using json_ind; intros r H;
    try (rewrite resolve_unfold in H; injection H as <-; constructor).
  - rewrite resolve_arr in H. apply bind_ret_inv in H.
    destruct H as (items & Hitems & H). injection H as <-.
    simpl. apply Forall_flat_map. apply mapM_each in Hitems.
    induction Hitems as [|x y xs ys Hxy _ IHl]; [constructor|].
    inversion IH; subst. constructor; auto.
  - destruct (dict_get "$ref" d) as [ref|] eqn:Eref.
    + rewrite (resolve_obj_ref _ _ _ _ Eref) in H.
      apply bind_ret_inv in H. destruct H as (r0 & Hr0 & H).
      destruct (truthy r0) eqn:Et.
      * eapply Hhop. exact H.
      * injection H as <-. simpl. rewrite Eref.
        constructor; [|constructor]. exists r0. auto.
    + rewrite (resolve_obj_plain _ _ _ Eref) in H.
      apply bind_ret_inv in H. destruct H as (result & Hres & H).
      injection H as <-. simpl.
      rewrite (dict_get_same_keys _ _ _ (mapM_keys _ _ _ _ Hres) Eref).
      apply Forall_flat_map. apply mapM_each in Hres. clear Eref.
      induction Hres as [|x y xs ys Hxy _ IHl]; [constructor|].
      inversion IH; subst. constructor; [|auto].
      apply bind_ret_inv in Hxy. destruct Hxy as (v & Hv & Hxy).
      injection Hxy as <-. simpl. auto.
Qed.

Lemma resolve_leftover full fuel :
  forall part r,
    resolve_schema_refs fuel part full = Ret r ->
    Forall (unresolved_in full) (walk_refs r).
Proof.
  induction fuel as [|fuel IH]; apply walk_leftover.
  - intros r0 r H. discriminate H.
  - intros r0 r H. eapply IH. exact H.
Qed.

(** A tree whose references, where the walk passes, do not resolve comes
    back as it is. *)
Lemma resolve_unresolved fuel full part :
  Forall (unresolved_in full) (walk_refs part) ->
  resolve_schema_refs fuel part full = Ret part.
Proof.
  induction part as [|b|z|f|s|l IH|d IH] using json_ind; intros Hleft;
    try (rewrite resolve_unfold; reflexivity).
  - rewrite resolve_arr. simpl in Hleft. apply Forall_flat_map in Hleft.
    rewrite mapM_id; [reflexivity|].
    rewrite Forall_forall in *. auto.
  - simpl in Hleft. destruct (dict_get "$ref" d) as [ref|] eqn:Eref.
    + inversion Hleft as [|? ? (r0 & Hr0 & Ht) _]; subst.
      eapply resolve_obj_kept; eauto.
    + rewrite (resolve_obj_plain _ _ _ Eref).
      apply Forall_flat_map in Hleft.
      rewrite mapM_id; [reflexivity|].
      rewrite Forall_forall in *. intros [k v] Hin.
      rewrite (IH _ Hin (Hleft _ Hin)). reflexivity.
Qed.

(** X1: in the tree a resolution returns, every ["$ref"] that stands where
    the walk passes is one that does not resolve in the document (the
    lookup fails, or the referent is falsy); resolving the returned tree
    once more against the same document gives it back unchanged. *)
Theorem resolution_is_idempotent (fuel fuel' : nat) (part full r : json) :
  resolve_schema_refs fuel part full = Ret r ->
  Forall (unresolved_in full) (walk_refs r)
  /\ resolve_schema_refs fuel' r full = Ret r.
Proof.
  intros H. pose proof (resolve_leftover _ _ _ _ H) as Hleft.
  split; [exact Hleft | apply resolve_unresolved; exact Hleft].
Qed.

Lemma resolution_is_idempotent_witness :
  exists r,
    resolve_schema_refs 2 chain_schema chain_schema = Ret r
    /\ Forall (unresolved_in chain_schema) (walk_refs r)
    /\ resolve_schema_refs 0 r chain_schema = Ret r.
Proof.
  eexists. split; [reflexivity|].
  exact (resolution_is_idempotent 2 0 chain_schema chain_schema _ eq_refl).
Defined.

Lemma mapM_impl {A B} (f g : A -> outcome B) l ys :
  Forall (fun x => forall y, f x = Ret y -> g x = Ret y) l ->
  mapM f l = Ret ys -> mapM g l = Ret ys.
Proof.
  intros Hfg. revert ys. induction Hfg as [|x xs Hx _ IH]; intros ys H.
  - exact H.
  - rewrite mapM_cons in *. apply bind_ret_inv in H.
    destruct H as (y & Hy & H). apply bind_ret_inv in H.
    destruct H as (ys' & Hys & H). injection H as <-.
    rewrite (Hx _ Hy), (IH _ Hys). reflexivity.
Qed.

Lemma walk_mono full f1 f2 :
  (forall r0 r, on_referent_at f1 full r0 = Ret r ->
                on_referent_at f2 full r0 = Ret r) ->
  forall part r,
    resolve_schema_refs f1 part full = Ret r ->
    resolve_schema_refs f2 part full = Ret r.
Proof.
  intros Hhop part.
  induction part as [|b|z|f|s|l IH|d IH] using json_ind; intros r H;
    try (rewrite resolve_unfold in H; rewrite resolve_unfold; exact H).
  - rewrite resolve_arr in H. rewrite resolve_arr.
    apply bind_ret_inv in H. destruct H as (items & Hitems & H).
    rewrite (mapM_impl _ _ _ _ IH Hitems). exact H.
  - destruct (dict_get "$ref" d) as [ref|] eqn:Eref.
    + rewrite (resolve_obj_ref f1 _ _ _ Eref) in H.
      rewrite (resolve_obj_ref f2 _ _ _ Eref).
      apply bind_ret_inv in H. destruct H as (r0 & Hr0 & H).
      rewrite Hr0. cbn [bind]. destruct (truthy r0); auto.
    + rewrite (resolve_obj_plain f1 _ _ Eref) in H.
      rewrite (resolve_obj_plain f2 _ _ Eref).
      apply bind_ret_inv in H. destruct H as (result & Hres & H).
      assert (Hall : Forall
                       (fun kv =>
                          forall y,
                            (v <- resolve_schema_refs f1 (snd kv) full ;;
                             Ret (fst kv, v)) = Ret y ->
                            (v <- resolve_schema_refs f2 (snd kv) full ;;
                             Ret (fst kv, v)) = Ret y) d).
      { eapply Forall_impl; [|exact IH]. intros kv Hkv y Hy.
        apply bind_ret_inv in Hy. destruct Hy as (v & Hv & Hy).
        rewrite (Hkv _ Hv). exact Hy. }
      rewrite (mapM_impl _ _ _ _ Hall Hres). exact H.
Qed.

Lemma resolve_mono_step full fuel :
  forall part r,
    resolve_schema_refs fuel part full = Ret r ->
    resolve_schema_refs (S fuel) part full = Ret r.
Proof.
  induction fuel as [|fuel IH]; apply walk_mono.
  - intros r0 r H. discriminate H.
  - intros r0 r H. simpl in H. apply IH in H. exact H.
Qed.

(** ** RefResolver under the bound on nested calls *)

Lemma resolve_within_unfold limit part full :
  resolve_within limit part full
  = resolve_call full (nested_call limit full) part.
Proof. destruct limit; reflexivity. Qed.

Lemma list_max_in n l : In n l -> n <= list_max l.
Proof.
  intros Hin. assert (H : list_max l <= list_max l) by lia.
  apply list_max_le in H. rewrite Forall_forall in H. auto.
Qed.

Lemma height_item x l : In x l -> S (height x) <= height (JArr l).
Proof.
  intros Hin. simpl. apply list_max_in.
  apply (in_map (fun x => S (height x))). exact Hin.
Qed.

Lemma height_entry key v d : In (key, v) d -> S (height v) <= height (JObj d).
Proof.
  intros Hin. simpl. apply list_max_in.
  apply (in_map (fun kv => S (height (snd kv))) _ _ Hin).
Qed.

Lemma height_lookup parts current r :
  lookup_parts parts current = Some r -> height r <= height current.
Proof.
  revert current. induction parts as [|part rest IH]; simpl; intros cur H.
  - injection H as <-. lia.
  - destruct cur; try discriminate.
    destruct (dict_get part entries) as [v|] eqn:E; [|discriminate].
    apply IH in H. apply dict_get_in in E. apply height_entry in E. lia.
Qed.

Lemma resolve_ref_height p full r :
  resolve_ref (JStr p) full = Ret r -> height r <= height full.
Proof.
  unfold resolve_ref. destruct (String.prefix "#/" p).
  - destruct (lookup_parts _ _) as [v|] eqn:E; intros H; injection H as <-.
    + eapply height_lookup. exact E.
    + simpl. lia.
  - intros H. injection H as <-. simpl. lia.
Qed.

(** A run under the bound that returns is a run of the function: it
    returns what [resolve_schema_refs] returns. *)
Lemma resolve_within_ret limit :
  forall part full r,
    resolve_within limit part full = Ret r ->
    resolve_schema_refs limit part full = Ret r.
Proof.
  induction limit as [|limit IH]; intros part full r H;
    rewrite resolve_within_unfold in H;
    destruct part as [|b|z|f|s|l|d]; simpl in H;
    try (rewrite resolve_unfold; exact H).
  - rewrite resolve_arr. destruct l as [|x xs]; [exact H | discriminate H].
  - destruct (dict_get "$ref" d) as [ref|] eqn:Eref.
    + rewrite (resolve_obj_ref _ _ _ _ Eref).
      destruct (resolve_ref ref full) as [r0| |]; simpl in *;
        try discriminate.
      destruct (truthy r0); [discriminate | exact H].
    + rewrite (resolve_obj_plain _ _ _ Eref).
      destruct d as [|kv rest]; [exact H | discriminate H].
  - rewrite resolve_arr.
    apply bind_ret_inv in H. destruct H as (items & Hitems & H).
    rewrite (mapM_impl (fun x => resolve_within limit x full)
               (fun x => resolve_schema_refs (S limit) x full) l items);
      [exact H | | exact Hitems].
    apply Forall_forall. intros x _ y Hy.
    apply resolve_mono_step. apply IH. exact Hy.
  - destruct (dict_get "$ref" d) as [ref|] eqn:Eref.
    + rewrite (resolve_obj_ref _ _ _ _ Eref).
      destruct (resolve_ref ref full) as [r0| |]; simpl in *;
        try discriminate.
      destruct (truthy r0); [apply IH; exact H | exact H].
    + rewrite (resolve_obj_plain _ _ _ Eref).
      apply bind_ret_inv in H. destruct H as (result & Hres & H).
      rewrite (mapM_impl
                 (fun kv => v <- resolve_within limit (snd kv) full ;;
                            Ret (fst kv, v))
                 (fun kv => v <- resolve_schema_refs (S limit) (snd kv) full ;;
                            Ret (fst kv, v)) d result);
        [exact H | | exact Hres].
      apply Forall_forall. intros kv _ y Hy.
      apply bind_ret_inv in Hy. destruct Hy as (v & Hv & Hy).
      rewrite (resolve_mono_step _ _ _ _ (IH _ _ _ Hv)). exact Hy.
Qed.

(** The tree a run under the bound returns is resolved: every ["$ref"]
    left where the walk passes is one that does not resolve. *)
Lemma resolve_within_leftover limit part full r :
  resolve_within limit part full = Ret r ->
  Forall (unresolved_in full) (walk_refs r).
Proof.
  intros H. eapply resolve_leftover. apply resolve_within_ret. exact H.
Qed.

Section RankedWithin.
Variable rk : string -> nat.
Variable full : json.
Hypothesis Hranked : ranked rk full = true.

(** With room for the height of the part, and for the height of the
    document once more per rank, the run returns. *)
Lemma within_total limit :
  forall n part,
    incl (ref_targets part) (ref_targets full) ->
    Forall (fun t => pointer_rank rk t < n) (ref_targets part) ->
    height part + n * S (height full) <= limit ->
    exists r, resolve_within limit part full = Ret r.
Proof.
  induction limit as [|limit IH]; intros n part Hincl Hlt Hroom;
    rewrite resolve_within_unfold;
    destruct part as [|b|z|f|s|l|d]; unfold resolve_call; eauto.
  - destruct l as [|x xs]; [simpl; eauto|].
    pose proof (height_item x (x :: xs) (or_introl eq_refl)). lia.
  - destruct (dict_get "$ref" d) as [ref|] eqn:Eref.
    + assert (Hin : In ref (ref_targets (JObj d)))
        by (simpl; rewrite Eref; simpl; auto).
      destruct (ranked_target rk full Hranked ref (Hincl _ Hin))
        as (p & r0 & -> & Hr0 & Hsm).
      rewrite Hr0. cbn [bind]. destruct (truthy r0) eqn:Et; [|eauto].
      rewrite Forall_forall in Hlt. specialize (Hlt _ Hin). simpl in Hlt.
      destruct n; lia.
    + destruct d as [|[k v] rest]; [simpl; eauto|].
      pose proof (height_entry k v ((k, v) :: rest) (or_introl eq_refl)).
      lia.
  - destruct (mapM_total (nested_call (S limit) full) l) as [ys Hys].
    + apply Forall_forall. intros x Hx. simpl. apply (IH n).
      * eapply incl_tran; [apply ref_targets_item; exact Hx | exact Hincl].
      * rewrite Forall_forall in Hlt. apply Forall_forall. intros t Ht.
        apply Hlt. eapply ref_targets_item; eauto.
      * pose proof (height_item x l Hx). lia.
    + rewrite Hys. simpl. eauto.
  - destruct (dict_get "$ref" d) as [ref|] eqn:Eref.
    + assert (Hin : In ref (ref_targets (JObj d)))
        by (simpl; rewrite Eref; simpl; auto).
      destruct (ranked_target rk full Hranked ref (Hincl _ Hin))
        as (p & r0 & -> & Hr0 & Hsm).
      rewrite Hr0. cbn [bind]. destruct (truthy r0) eqn:Et; [|eauto].
      rewrite Forall_forall in Hlt. specialize (Hlt _ Hin). simpl in Hlt.
      destruct n as [|n]; [lia|].
      simpl. apply (IH n).
      * eapply resolve_ref_targets. exact Hr0.
      * eapply Forall_impl; [|apply Hsm; reflexivity].
        simpl. intros t' Ht'. lia.
      * pose proof (resolve_ref_height _ _ _ Hr0). simpl in Hroom. lia.
    + destruct (mapM_total
                  (fun kv => v <- nested_call (S limit) full (snd kv) ;;
                             Ret (fst kv, v)) d) as [ys Hys].
      * apply Forall_forall. intros [k v] Hkv. simpl.
        destruct (IH n v) as [r Hr].
        -- eapply incl_tran; [eapply ref_targets_entry; exact Hkv|].
           exact Hincl.
        -- rewrite Forall_forall in Hlt. apply Forall_forall. intros t Ht.
           apply Hlt. eapply ref_targets_entry; eauto.
        -- pose proof (height_entry k v d Hkv). lia.
        -- rewrite Hr. simpl. eauto.
      * rewrite Hys. simpl. eauto.
Qed.

Lemma within_total_document limit :
  calls_needed rk full <= limit ->
  exists r, resolve_within limit full full = Ret r.
Proof.
  intros Hroom.
  apply (within_total limit
           (S (list_max (map (pointer_rank rk) (ref_targets full))))).
  - apply incl_refl.
  - apply Forall_forall. intros t Ht.
    pose proof (list_max_in _ _ (in_map (pointer_rank rk) _ _ Ht)). lia.
  - exact Hroom.
Qed.
End RankedWithin.

Lemma cycle_nodes_raise limit :
  resolve_within limit (JObj [("$ref", JStr "#/$defs/B")]) cyclic_schema
  = Raise RecursionError
  /\ resolve_within limit (JObj [("$ref", JStr "#/$defs/A")]) cyclic_schema
     = Raise RecursionError.
Proof.
  induction limit as [|limit [IHb IHa]].
  - split; reflexivity.
  - split; rewrite resolve_within_unfold; simpl resolve_call.
    + change (resolve_ref (JStr "#/$defs/B") cyclic_schema)
        with (Ret (JObj [("$ref", JStr "#/$defs/A")])).
      simpl. exact IHa.
    + change (resolve_ref (JStr "#/$defs/A") cyclic_schema)
        with (Ret (JObj [("$ref", JStr "#/$defs/B")])).
      simpl. exact IHb.
Qed.

(** What a run under the bound returns is the part with its references
    resolved. *)
Lemma within_resolved full limit :
  forall part r,
    resolve_within limit part full = Ret r -> resolved_as full part r.
Proof.
  induction limit as [|limit IH]; intros part r H;
    rewrite resolve_within_unfold in H;
    destruct part as [|b|z|f|s|l|d]; unfold resolve_call in H;
    try (injection H as <-; constructor; fail).
  - destruct l as [|x xs]; [|discriminate H].
    injection H as <-. constructor. constructor.
  - destruct (dict_get "$ref" d) as [ref|] eqn:Eref.
    + destruct (resolve_ref ref full) as [r0| |] eqn:Er0; simpl in H;
        try discriminate.
      destruct (truthy r0) eqn:Et; [discriminate|].
      injection H as <-. eapply resolved_kept; eauto.
    + destruct d as [|kv rest]; [|discriminate H].
      injection H as <-. apply resolved_entries; [exact Eref | constructor].
  - apply bind_ret_inv in H. destruct H as (items & Hitems & H).
    injection H as <-. constructor.
    apply mapM_each in Hitems.
    induction Hitems as [|x y xs ys Hxy _ IHl]; constructor; auto.
  - destruct (dict_get "$ref" d) as [ref|] eqn:Eref.
    + destruct (resolve_ref ref full) as [r0| |] eqn:Er0; simpl in H;
        try discriminate.
      destruct (truthy r0) eqn:Et.
      * eapply resolved_referent; eauto.
      * injection H as <-. eapply resolved_kept; eauto.
    + apply bind_ret_inv in H. destruct H as (result & Hres & H).
      injection H as <-. apply resolved_entries; [exact Eref|]. clear Eref.
      apply mapM_each in Hres.
      induction Hres as [|x y xs ys Hxy _ IHl]; constructor; auto.
      apply bind_ret_inv in Hxy. destruct Hxy as (v & Hv & Hxy).
      injection Hxy as <-. simpl. auto.
Qed.

(** ** Resolution that returns *)

(** C1, amended: when the pointers of the document can be ranked so that
    the pointers inside the referent of a pointer rank below it (no chain
    of references comes back to where it started), and the recursion
    limit leaves room for [calls_needed] nested calls, the call of
    [resolve_schema_refs] on the document returns, and what it returns is
    the document with its references resolved: every reference that
    resolves is replaced by its resolved referent, and every ["$ref"]
    still standing where the walk passes is one that does not resolve. *)
Theorem resolve_returns_when_ranked
  (rk : string -> nat) (full : json) (limit : nat) :
  ranked rk full = true ->
  calls_needed rk full <= limit ->
  exists r,
    resolve_within limit full full = Ret r
    /\ resolved_as full full r
    /\ Forall (unresolved_in full) (walk_refs r).
Proof.
  intros Hrk Hroom.
  destruct (within_total_document rk full Hrk limit Hroom) as [r Hr].
  exists r. split; [exact Hr|]. split.
  - eapply within_resolved. exact Hr.
  - eapply resolve_within_leftover. exact Hr.
Qed.

Lemma resolve_returns_when_ranked_witness :
  (ranked chain_rank chain_schema = true
   /\ calls_needed chain_rank chain_schema <= 11)
  /\ exists r,
      resolve_within 11 chain_schema chain_schema = Ret r
      /\ resolved_as chain_schema chain_schema r
      /\ Forall (unresolved_in chain_schema) (walk_refs r).
Proof.
  split.
  - split; [reflexivity | vm_compute; lia].
  - apply (resolve_returns_when_ranked chain_rank chain_schema 11).
    + reflexivity.
    + vm_compute. lia.
Defined.

(** A run of the validator under the bound that returns is a run of the
    validator. *)
Lemma validate_within_ret L limit data schema errs :
  validate_within L limit data schema = Ret errs ->
  validate_against_schema L limit data schema = Ret errs.
Proof.
  unfold validate_within, validate_against_schema. intros H.
  apply bind_ret_inv in H. destruct H as (resolved & Hres & H).
  rewrite (resolve_within_ret _ _ _ _ Hres). cbn [bind].
  destruct resolved as [| | | | | |rs]; try discriminate.
  apply bind_ret_inv in H. destruct H as (required_errors & Hreq & H).
  rewrite Hreq. cbn [bind].
  apply bind_ret_inv in H. destruct H as (field_errors & Hfe & H).
  rewrite (mapM_impl
             (validate_entry_within L limit
                (get_default "properties" (JObj []) rs) (JObj rs))
             (validate_entry L limit
                (get_default "properties" (JObj []) rs) (JObj rs))
             data field_errors); [exact H | | exact Hfe].
  apply Forall_forall. intros [name value] _ y.
  unfold validate_entry_within, validate_entry.
  destruct (name_in name _) as [declared| |]; cbn [bind]; auto.
  destruct (declared && form_truthy value); auto.
  destruct (py_index _ name) as [field_schema| |]; cbn [bind]; auto.
  destruct (resolve_within limit field_schema (JObj rs))
    as [field_schema'| |] eqn:E; cbn [bind]; try discriminate.
  rewrite (resolve_within_ret _ _ _ _ E). auto.
Qed.

(** ** Validation under the bound *)



(** ** Depth of nesting and the recursion limit *)

Lemma mapM_raise {A B} (f : A -> outcome B) e l :
  Forall (fun x => (exists y, f x = Ret y) \/ f x = Raise e) l ->
  Exists (fun x => f x = Raise e) l ->
  mapM f l = Raise e.
Proof.
  induction 1 as [|x xs Hx _ IH]; intros Hex.
  - inversion Hex.
  - rewrite mapM_cons. destruct Hx as [[y Hy] | Hr].
    + rewrite Hy. cbn [bind]. rewrite IH; [reflexivity|].
      inversion Hex; subst; [congruence | assumption].
    + rewrite Hr. reflexivity.
Qed.

Lemma list_max_reached l : l <> [] -> In (list_max l) l.
Proof.
  induction l as [|x xs IH]; intros Hne; [congruence|].
  simpl. destruct xs as [|y ys].
  - left. simpl. lia.
  - destruct (Nat.max_spec x (list_max (y :: ys))) as [[_ ->] | [_ ->]].
    + right. apply IH. discriminate.
    + left. reflexivity.
Qed.

Lemma ref_free_item x l : ref_targets (JArr l) = [] -> In x l ->
  ref_targets x = [].
Proof.
  simpl. intros H Hin.
  pose proof (flat_map_nil_inv ref_targets l H) as Hall.
  rewrite Forall_forall in Hall. auto.
Qed.



(** ** RefResolver: pointers and paths *)

Lemma split_on_app_free sep p s :
  str_has_char sep p = false ->
  split_on sep (p ++ s)
  = match split_on sep s with
    | h :: t => (p ++ h)%string :: t
    | [] => [p]
    end.
Proof.
  induction p as [|c p IH]; simpl; intros H.
  - destruct (split_on_cons sep s) as (h & t & E). rewrite E. reflexivity.
  - apply orb_false_iff in H. destruct H as [Hc Hp].
    rewrite Hc, (IH Hp). destruct (split_on sep s); reflexivity.
Qed.

Lemma append_empty_r (s : string) : (s ++ "")%string = s.
Proof. induction s as [|c s IH]; simpl; [reflexivity | now rewrite IH]. Qed.

(** Splitting what [sep.join] made of parts free of the separator gives
    the parts back. *)
Lemma split_on_join sep part parts :
  Forall (fun x => str_has_char sep x = false) (part :: parts) ->
  split_on sep (String.concat (String sep "") (part :: parts))
  = part :: parts.
Proof.
  revert part. induction parts as [|q parts IH]; intros part H.
  - inversion H; subst. simpl. apply split_on_no_sep. assumption.
  - inversion H as [|? ? Hp Hrest]; subst.
    change (String.concat (String sep "") (part :: q :: parts))
      with (part
            ++ String sep (String.concat (String sep "") (q :: parts)))%string.
    rewrite (split_on_app_free _ _ _ Hp).
    cbn [split_on]. rewrite Ascii.eqb_refl, (IH _ Hrest).
    rewrite append_empty_r. reflexivity.
Qed.

(** X4: the pointer ["#/k1/.../kn"] written for a path of keys without a
    slash resolves to what the document holds at that path, and to [None]
    when a key of the path is missing. *)
Theorem pointer_reaches_its_path (part : string) (parts : list string)
  (full : json) :
  Forall (fun x => str_has_char "/" x = false) (part :: parts) ->
  resolve_ref (JStr (pointer_of (part :: parts))) full
  = Ret (match lookup_parts (part :: parts) full with
         | Some v => v
         | None => JNull
         end).
Proof.
  intros H. unfold resolve_ref, pointer_of.
  change (String.prefix "#/" ("#/" ++ String.concat "/" (part :: parts)))
    with (String.prefix "" (String.concat "/" (part :: parts))).
  change (str_drop 2 ("#/" ++ String.concat "/" (part :: parts)))
    with (String.concat "/" (part :: parts)).
  assert (Hpre : String.prefix "" (String.concat "/" (part :: parts)) = true)
    by (destruct (String.concat "/" (part :: parts)); reflexivity).
  rewrite Hpre, (split_on_join "/" part parts H).
  destruct (lookup_parts (part :: parts) full); reflexivity.
Qed.

Lemma pointer_reaches_its_path_witness :
  resolve_ref (JStr "#/$defs/address/properties/city") address_schema
  = Ret (JObj [("type", JStr "string")]).
Proof.
  refine (pointer_reaches_its_path "$defs" ["address"; "properties"; "city"]
            address_schema _).
  repeat constructor.
Defined.

(** ** NestedDataAssembler: failure, lookup after assembly, keys *)

(** X5: when a leaf stands at a path that begins the path of a key,
    short of its last segment, assembling the key raises [TypeError]:
    the leaf is neither descended into nor replaced. *)
Theorem key_through_a_leaf_raises
  (flat : list (string * string)) (t : form) (pre : list string)
  (s key value : string) :
  parse_nested_form_data flat = Ret t ->
  kind_at pre t = Leaf s ->
  prefix_of pre (removelast (split_on "." key)) = true ->
  parse_nested_form_data (flat ++ [(key, value)]) = Raise TypeError.
Proof.
  intros Ht Hk Hp. unfold parse_nested_form_data in *.
  rewrite foldM_app, Ht. cbn [bind].
  rewrite foldM_cons, assign_key_path.
  rewrite (set_path_raises _ _ _ _ (leaf_in_the_way _ _ _ _ Hk Hp)).
  reflexivity.
Qed.

Lemma key_through_a_leaf_raises_witness :
  parse_nested_form_data [("a.b", "1")]
  = Ret (FMap [("a", FMap [("b", FStr "1")])])
  /\ parse_nested_form_data ([("a.b", "1")] ++ [("a.b.c.d", "2")])
     = Raise TypeError.
Proof.
  split; [reflexivity|].
  exact (key_through_a_leaf_raises [("a.b", "1")]
           (FMap [("a", FMap [("b", FStr "1")])]) ["a"; "b"] "1"
           "a.b.c.d" "2" eq_refl eq_refl eq_refl).
Defined.

Lemma set_path_outcome init final value t :
  (exists t', set_path init final value t = Ret t')
  \/ set_path init final value t = Raise TypeError.
Proof.
  destruct (no_leaf_on init t) eqn:E.
  - left. apply set_path_ok. exact E.
  - right. apply set_path_raises. exact E.
Qed.

(** X6: the assembly either returns a dictionary or raises [TypeError];
    it raises nothing else. *)
Theorem assembly_returns_or_raises_type_error
  (flat : list (string * string)) :
  (exists d, parse_nested_form_data flat = Ret (FMap d))
  \/ parse_nested_form_data flat = Raise TypeError.
Proof.
  unfold parse_nested_form_data.
  induction flat as [|[k v] flat IH] using rev_ind.
  - left. exists []. reflexivity.
  - rewrite foldM_app. destruct IH as [[d Hd] | Hr].
    + rewrite Hd. cbn [bind]. rewrite foldM_cons, assign_key_path.
      destruct (set_path_outcome (removelast (split_on "." k))
                  (last (split_on "." k) "") v (FMap d)) as [[t' Ht'] | Hr].
      * rewrite Ht'. left.
        apply set_path_assemble in Ht'. subst t'. eexists. reflexivity.
      * rewrite Hr. right. reflexivity.
    + rewrite Hr. right. reflexivity.
Qed.

(** X7: after a key is assembled, its path holds its value as a leaf,
    every path that begins the path of the key short of its end holds a
    nested map, and every path that neither begins the path of the key
    nor continues it holds what it held before. *)
Theorem lookup_after_assembling_a_key
  (t t' : form) (key value : string) :
  assign_key t (key, value) = Ret t' ->
  get_path (split_on "." key) t' = Some (FStr value)
  /\ (forall path,
         prefix_of path (removelast (split_on "." key)) = true ->
         kind_at path t' = Group)
  /\ (forall path,
         prefix_of path (split_on "." key) = false ->
         prefix_of (split_on "." key) path = false ->
         kind_at path t' = kind_at path t).
Proof.
  intros H. rewrite assign_key_path in H. split; [|split].
  - rewrite (split_on_snoc "." key). apply kind_at_leaf.
    eapply set_path_leaf. exact H.
  - intros path Hp. eapply set_path_groups; eauto.
  - intros path H1 H2. rewrite (split_on_snoc "." key) in H1, H2.
    eapply set_path_elsewhere; eauto.
Qed.

Lemma lookup_after_assembling_a_key_witness :
  assign_key (FMap [("x", FStr "0")]) ("a.b", "1")
  = Ret (FMap [("x", FStr "0"); ("a", FMap [("b", FStr "1")])])
  /\ get_path (split_on "." "a.b")
       (FMap [("x", FStr "0"); ("a", FMap [("b", FStr "1")])])
     = Some (FStr "1").
Proof.
  split; [reflexivity|].
  exact (proj1 (lookup_after_assembling_a_key (FMap [("x", FStr "0")])
                  (FMap [("x", FStr "0"); ("a", FMap [("b", FStr "1")])])
                  "a.b" "1" eq_refl)).
Defined.

Lemma split_on_parts_free sep s part :
  In part (split_on sep s) -> str_has_char sep part = false.
Proof.
  revert part. induction s as [|c s IH]; simpl; intros part Hin.
  - destruct Hin as [<- | []]. reflexivity.
  - destruct (Ascii.eqb c sep) eqn:E.
    + destruct Hin as [<- | Hin]; [reflexivity | auto].
    + destruct (split_on_cons sep s) as (p & ps & Es). rewrite Es in *.
      destruct Hin as [<- | Hin].
      * simpl. rewrite E. apply IH. left. reflexivity.
      * apply IH. right. exact Hin.
Qed.

Lemma set_path_top_keys init final value d d' :
  set_path init final value (FMap d) = Ret (FMap d') ->
  forall k, In k (map fst d') ->
            In k (map fst d) \/ k = hd final init.
Proof.
  intros H k Hin. apply set_path_inv in H. destruct H as (d0 & Hd & H).
  injection Hd as <-.
  destruct init as [|part rest].
  - injection H as ->. rewrite dict_set_keys in Hin.
    destruct (dict_mem final d); [auto|].
    apply in_app_or in Hin. destruct Hin as [Hin | [<- | []]]; auto.
  - destruct H as (child' & _ & H). injection H as ->.
    rewrite dict_set_keys in Hin.
    destruct (dict_mem part d); [auto|].
    apply in_app_or in Hin. destruct Hin as [Hin | [<- | []]]; auto.
Qed.

Lemma hd_split_free key :
  str_has_char "."
    (hd (last (split_on "." key) "") (removelast (split_on "." key)))
  = false.
Proof.
  apply (split_on_parts_free "." key).
  rewrite (split_on_snoc "." key) at 3.
  destruct (removelast (split_on "." key)); simpl; auto.
Qed.

Lemma assembled_top_keys flat data :
  parse_nested_form_data flat = Ret (FMap data) ->
  forall k, In k (map fst data) -> str_has_char "." k = false.
Proof.
  revert data. unfold parse_nested_form_data.
  induction flat as [|[key v] flat IH] using rev_ind; intros data H.
  - injection H as <-. intros k [].
  - rewrite foldM_app in H. apply bind_ret_inv in H.
    destruct H as (t & Ht & H). rewrite foldM_cons in H.
    apply bind_ret_inv in H. destruct H as (t' & Ht' & H).
    injection H as ->. rewrite assign_key_path in Ht'.
    destruct (set_path_inv _ _ _ _ _ Ht') as (d & -> & _).
    intros k Hin.
    destruct (set_path_top_keys _ _ _ _ _ Ht' k Hin) as [Hold | ->].
    + eapply IH; eauto.
    + apply hd_split_free.
Qed.

Lemma dotted_name_absent flat data name :
  parse_nested_form_data flat = Ret (FMap data) ->
  str_has_char "." name = true ->
  dict_get name data = None.
Proof.
  intros H Hdot. apply dict_get_none. intros Hin.
  rewrite (assembled_top_keys _ _ H _ Hin) in Hdot. discriminate.
Qed.

(** X8: no top-level key of the assembled data contains a dot, so the
    assembled data never has an entry for a name that contains one. *)
Theorem assembled_keys_have_no_dot
  (flat : list (string * string)) (data : list (string * form)) :
  parse_nested_form_data flat = Ret (FMap data) ->
  (forall k, In k (map fst data) -> str_has_char "." k = false)
  /\ (forall name, str_has_char "." name = true ->
                   dict_get name data = None).
Proof.
  intros H. split.
  - apply (assembled_top_keys _ _ H).
  - intros name. apply (dotted_name_absent _ _ _ H).
Qed.

Lemma assembled_keys_have_no_dot_witness :
  parse_nested_form_data [("user.name", "ann"); ("age", "3")]
  = Ret (FMap [("user", FMap [("name", FStr "ann")]); ("age", FStr "3")])
  /\ dict_get "user.name"
       [("user", FMap [("name", FStr "ann")]); ("age", FStr "3")] = None.
Proof.
  split; [reflexivity|].
  exact (proj2 (assembled_keys_have_no_dot
                  [("user.name", "ann"); ("age", "3")]
                  [("user", FMap [("name", FStr "ann")]); ("age", FStr "3")]
                  eq_refl) "user.name" eq_refl).
Defined.

(** ** Validator and assembler together *)

Lemma required_msg_reported L fuel data schema rs names errs name :
  resolve_schema_refs fuel schema schema = Ret (JObj rs) ->
  get_default "required" (JArr []) rs = JArr (map JStr names) ->
  validate_against_schema L fuel data schema = Ret errs ->
  In name names -> is_missing_name data name = true ->
  In (required_msg name) errs.
Proof.
  intros Hres Hreq Hval Hin Hmiss. unfold validate_against_schema in Hval.
  rewrite Hres in Hval. cbn [bind] in Hval.
  rewrite Hreq, check_required_names in Hval. cbn [bind] in Hval.
  apply bind_ret_inv in Hval. destruct Hval as (fe & _ & Hval).
  injection Hval as <-. apply in_or_app. left.
  apply in_map. apply filter_In. auto.
Qed.

(** X9: a required name that contains a dot is reported as missing for
    every submission, whatever was entered: the assembler files the value
    under the first segment of the name, and the validator looks the
    whole name up. *)
Theorem dotted_required_name_is_always_missing
  (L : pylib) (fuel : nat) (schema : json) (rs : list (string * json))
  (names : list string) (name : string) (flat : list (string * string))
  (data : list (string * form)) (errs : list string) :
  str_has_char "." name = true ->
  resolve_schema_refs fuel schema schema = Ret (JObj rs) ->
  get_default "required" (JArr []) rs = JArr (map JStr names) ->
  In name names ->
  parse_nested_form_data flat = Ret (FMap data) ->
  validate_against_schema L fuel data schema = Ret errs ->
  In (required_msg name) errs.
Proof.
  intros Hdot Hres Hreq Hin Hparse Hval.
  eapply required_msg_reported; eauto.
  unfold is_missing_name.
  rewrite (dotted_name_absent _ _ _ Hparse Hdot). reflexivity.
Qed.

Lemma dotted_required_name_is_always_missing_witness :
  exists errs,
    validate_against_schema plain_lib 0
      [("first", FMap [("name", FStr "ann")])]
      (JObj [("required", JArr [JStr "first.name"])]) = Ret errs
    /\ In (required_msg "first.name") errs.
Proof.
  eexists. split; [reflexivity|].
  exact (dotted_required_name_is_always_missing plain_lib 0
           (JObj [("required", JArr [JStr "first.name"])])
           [("required", JArr [JStr "first.name"])]
           ["first.name"] "first.name" [("first.name", "ann")]
           [("first", FMap [("name", FStr "ann")])] _
           eq_refl eq_refl eq_refl (or_introl eq_refl) eq_refl eq_refl).
Defined.


(** ** Validator: fields that do not count *)

Lemma mapM_app_eq {A B} (f : A -> outcome B) l1 l2 :
  mapM f (l1 ++ l2)
  = (ys1 <- mapM f l1 ;; ys2 <- mapM f l2 ;; Ret (ys1 ++ ys2)).
Proof.
  induction l1 as [|x xs IH]; simpl.
  - destruct (mapM f l2); reflexivity.
  - destruct (f x); simpl; try reflexivity.
    fold (mapM f (xs ++ l2)). fold (mapM f xs). rewrite IH.
    destruct (mapM f xs); simpl; try reflexivity.
    destruct (mapM f l2); reflexivity.
Qed.

Lemma mapM_ext {A B} (f g : A -> outcome B) l :
  (forall x, f x = g x) -> mapM f l = mapM g l.
Proof.
  intros H. induction l as [|x xs IH]; [reflexivity|].
  rewrite !mapM_cons, H, IH. reflexivity.
Qed.

Lemma dict_get_app {V} key (d1 d2 : list (string * V)) :
  dict_get key (d1 ++ d2)
  = match dict_get key d1 with
    | Some v => Some v
    | None => dict_get key d2
    end.
Proof.
  induction d1 as [|[k v] rest IH]; simpl; [reflexivity|].
  destruct (String.eqb key k); auto.
Qed.

(** An entry that gives no message and does not change which names are
    missing can be taken out of the submission. *)
Lemma validate_without_entry L fuel schema rs props d1 d2 entry :
  resolve_schema_refs fuel schema schema = Ret (JObj rs) ->
  get_default "properties" (JObj []) rs = JObj props ->
  validate_entry L fuel (JObj props) (JObj rs) entry = Ret [] ->
  (forall field, is_missing (d1 ++ entry :: d2) field
                 = is_missing (d1 ++ d2) field) ->
  validate_against_schema L fuel (d1 ++ entry :: d2) schema
  = validate_against_schema L fuel (d1 ++ d2) schema.
Proof.
  intros Hres Hprops Hentry Hmiss. unfold validate_against_schema.
  rewrite Hres. cbn [bind]. rewrite Hprops.
  assert (Hreq : check_required L (d1 ++ entry :: d2)
                   (get_default "required" (JArr []) rs)
                 = check_required L (d1 ++ d2)
                     (get_default "required" (JArr []) rs)).
  { unfold check_required.
    destruct (py_iter (get_default "required" (JArr []) rs)) as [fields| |];
      try reflexivity.
    cbn [bind]. erewrite mapM_ext; [reflexivity|].
    intros field. rewrite Hmiss. reflexivity. }
  rewrite Hreq.
  destruct (check_required L (d1 ++ d2) _) as [req| |]; try reflexivity.
  cbn [bind]. rewrite !mapM_app_eq, mapM_cons, Hentry.
  destruct (mapM _ d1) as [ys1| |]; try reflexivity.
  cbn [bind].
  destruct (mapM _ d2) as [ys2| |]; try reflexivity.
  cbn [bind]. rewrite !concat_app. reflexivity.
Qed.

(** X10: a field submitted empty counts as a field not submitted: the
    outcome of the validation is the same with and without it. *)
Theorem empty_field_is_like_absent_field
  (L : pylib) (fuel : nat) (schema : json) (rs props : list (string * json))
  (d1 d2 : list (string * form)) (name : string) :
  resolve_schema_refs fuel schema schema = Ret (JObj rs) ->
  get_default "properties" (JObj []) rs = JObj props ->
  dict_get name (d1 ++ d2) = None ->
  validate_against_schema L fuel (d1 ++ (name, FStr "") :: d2) schema
  = validate_against_schema L fuel (d1 ++ d2) schema.
Proof.
  intros Hres Hprops Hfresh.
  apply (validate_without_entry _ _ _ _ _ _ _ _ Hres Hprops).
  - unfold validate_entry. cbn [name_in bind]. rewrite andb_false_r.
    reflexivity.
  - intros field. destruct field; try reflexivity. unfold is_missing.
    rewrite dict_get_app in Hfresh. rewrite !dict_get_app.
    destruct (dict_get s d1) eqn:E1.
    + reflexivity.
    + cbn [dict_get]. destruct (String.eqb s name) eqn:E.
      * apply String.eqb_eq in E. subst s. rewrite E1 in Hfresh.
        rewrite Hfresh. reflexivity.
      * reflexivity.
Qed.

Lemma empty_field_is_like_absent_field_witness :
  validate_against_schema plain_lib 0
    ([("age", FStr "3")] ++ ("name", FStr "") :: []) name_schema
  = validate_against_schema plain_lib 0 ([("age", FStr "3")] ++ [])
      name_schema.
Proof.
  exact (empty_field_is_like_absent_field plain_lib 0 name_schema
           [("properties",
             JObj [("name", JObj [("type", JStr "string");
                                  ("minLength", JInt 3)])]);
            ("required", JArr [JStr "name"])]
           [("name", JObj [("type", JStr "string"); ("minLength", JInt 3)])]
           [("age", FStr "3")] [] "name" eq_refl eq_refl eq_refl).
Defined.

(** X11: the value of a field that the schema does not declare never
    matters, so long as it is not the empty string: the outcome of the
    validation is the same for any two such values. *)
Theorem undeclared_field_value_is_ignored
  (L : pylib) (fuel : nat) (schema : json) (rs props : list (string * json))
  (d1 d2 : list (string * form)) (name : string) (v1 v2 : form) :
  resolve_schema_refs fuel schema schema = Ret (JObj rs) ->
  get_default "properties" (JObj []) rs = JObj props ->
  dict_get name props = None ->
  v1 <> FStr "" -> v2 <> FStr "" ->
  validate_against_schema L fuel (d1 ++ (name, v1) :: d2) schema
  = validate_against_schema L fuel (d1 ++ (name, v2) :: d2) schema.
Proof.
  intros Hres Hprops Hnone H1 H2. unfold validate_against_schema.
  rewrite Hres. cbn [bind]. rewrite Hprops.
  assert (Hmiss : forall field,
             is_missing (d1 ++ (name, v1) :: d2) field
             = is_missing (d1 ++ (name, v2) :: d2) field).
  { intros field. destruct field; try reflexivity. unfold is_missing.
    rewrite !dict_get_app. destruct (dict_get s d1); [reflexivity|].
    cbn [dict_get]. destruct (String.eqb s name); [|reflexivity].
    destruct v1 as [[|c1 s1]|m1]; try congruence;
      destruct v2 as [[|c2 s2]|m2]; try congruence; reflexivity. }
  assert (Hentry : forall v,
             validate_entry L fuel (JObj props) (JObj rs) (name, v) = Ret []).
  { intros v. unfold validate_entry. cbn [name_in bind]. unfold dict_mem.
    rewrite Hnone. reflexivity. }
  unfold check_required.
  destruct (py_iter (get_default "required" (JArr []) rs)) as [fields| |];
    try reflexivity.
  cbn [bind].
  rewrite (mapM_ext _ (fun field =>
                         missing <- is_missing (d1 ++ (name, v2) :: d2) field ;;
                         Ret (if missing : bool
                              then [required_msg (py_str L field)]
                              else [])) fields)
    by (intros field; rewrite Hmiss; reflexivity).
  destruct (mapM _ fields) as [flags| |]; try reflexivity.
  cbn [bind]. rewrite !mapM_app_eq, !mapM_cons, !Hentry. reflexivity.
Qed.

Lemma undeclared_field_value_is_ignored_witness :
  validate_against_schema plain_lib 0
    ([] ++ ("nick", FStr "x") :: [("name", FStr "ann")]) name_schema
  = validate_against_schema plain_lib 0
      ([] ++ ("nick", FMap [("a", FStr "y")]) :: [("name", FStr "ann")])
      name_schema.
Proof.
  refine (undeclared_field_value_is_ignored plain_lib 0 name_schema
            [("properties",
              JObj [("name", JObj [("type", JStr "string");
                                   ("minLength", JInt 3)])]);
             ("required", JArr [JStr "name"])]
            [("name", JObj [("type", JStr "string"); ("minLength", JInt 3)])]
            [] [("name", FStr "ann")] "nick" (FStr "x")
            (FMap [("a", FStr "y")]) eq_refl eq_refl eq_refl _ _);
    discriminate.
Defined.

(** ** Classifier and validator together *)

(** X12: a field that the form shows as a checkbox, a text area or a
    field set (type [boolean], [array], [object]) is not validated: no
    value gives a message. *)
Theorem unvalidated_input_types
  (L : pylib) (fs : list (string * json)) (input_type field_name : string)
  (value : form) :
  get_input_type (JObj fs) = Ret input_type ->
  input_type = "checkbox" \/ input_type = "textarea"
  \/ input_type = "fieldset" ->
  validate_field_value L field_name value (JObj fs) = Ret [].
Proof.
  unfold get_input_type, validate_field_value.
  set (ft := get_default "type" (JStr "string") fs).
  set (ff := get_default "format" (JStr "") fs).
  intros H Hkind.
  destruct (py_eq_str ft "string").
  - exfalso.
    repeat match type of H with
           | (if ?b then _ else _) = _ => destruct b
           end;
      injection H as <-; destruct Hkind as [Hk | [Hk | Hk]]; discriminate Hk.
  - destruct (py_eq_str ft "integer");
      [exfalso; injection H as <-;
       destruct Hkind as [Hk | [Hk | Hk]]; discriminate Hk|].
    destruct (py_eq_str ft "number");
      [exfalso; injection H as <-;
       destruct Hkind as [Hk | [Hk | Hk]]; discriminate Hk|].
    reflexivity.
Qed.

Lemma unvalidated_input_types_witness :
  get_input_type (JObj [("type", JStr "boolean"); ("minLength", JInt 9)])
  = Ret "checkbox"
  /\ validate_field_value plain_lib "agree" (FStr "true")
       (JObj [("type", JStr "boolean"); ("minLength", JInt 9)]) = Ret [].
Proof.
  split; [reflexivity|].
  exact (unvalidated_input_types plain_lib
           [("type", JStr "boolean"); ("minLength", JInt 9)]
           "checkbox" "agree" (FStr "true") eq_refl (or_introl eq_refl)).
Defined.

(** ** Validator: edges of the checks *)

Lemma float_ltb_nan_l y : float_ltb FNan y = false.
Proof. reflexivity. Qed.

Lemma float_ltb_nan_r x : float_ltb x FNan = false.
Proof. destruct x as [|[|]|q]; reflexivity. Qed.

(** X13: a value that [float] reads as not-a-number passes every
    [minimum] and [maximum]: both comparisons are false. *)
Theorem nan_passes_every_bound
  (L : pylib) (field_name s : string) (fs : list (string * json)) :
  dict_get "type" fs = Some (JStr "number") ->
  py_float L s = Some FNan ->
  (forall m, dict_get "minimum" fs = Some m -> as_num m <> None) ->
  (forall m, dict_get "maximum" fs = Some m -> as_num m <> None) ->
  validate_field_value L field_name (FStr s) (JObj fs) = Ret [].
Proof.
  intros Ht Hnan Hmin Hmax.
  rewrite (validate_field_numeric L field_name (FStr s) fs false Ht).
  unfold validate_numeric, coerce. rewrite Hnan. cbn [bind].
  unfold check_minimum, check_maximum.
  destruct (dict_get "minimum" fs) as [m|] eqn:Em;
    destruct (dict_get "maximum" fs) as [m'|] eqn:Em';
    try rewrite (py_lt_num FNan m (Hmin _ eq_refl));
    try rewrite (py_gt_num FNan m' (Hmax _ eq_refl));
    cbn [bind];
    repeat match goal with
           | |- context [as_num ?x] => destruct (as_num x)
           end;
    rewrite ?float_ltb_nan_l, ?float_ltb_nan_r; reflexivity.
Qed.

Lemma nan_passes_every_bound_witness :
  validate_field_value nan_lib "ratio" (FStr "nan")
    (JObj [("type", JStr "number"); ("minimum", JInt 0);
           ("maximum", JInt 1)]) = Ret [].
Proof.
  refine (nan_passes_every_bound nan_lib "ratio" "nan"
            [("type", JStr "number"); ("minimum", JInt 0);
             ("maximum", JInt 1)] eq_refl eq_refl _ _);
    intros m H; injection H as <-; discriminate.
Defined.

Lemma get_default_set_other {V} key key' (v default : V) d :
  String.eqb key' key = false ->
  get_default key' default (dict_set key v d) = get_default key' default d.
Proof.
  intros H. unfold get_default. rewrite (dict_get_set_other _ _ _ _ H).
  reflexivity.
Qed.

(** X14: on a field of type [integer] or [number] only [type], [minimum]
    and [maximum] are read: setting any other key of the field schema
    ([enum], [pattern], [minLength], ...) changes nothing in what the
    validation of a value gives. *)
Theorem numeric_field_reads_only_its_bounds
  (L : pylib) (field_name key : string) (x : json) (value : form)
  (fs : list (string * json)) :
  get_default "type" (JStr "string") fs = JStr "integer"
  \/ get_default "type" (JStr "string") fs = JStr "number" ->
  key <> "type" -> key <> "minimum" -> key <> "maximum" ->
  validate_field_value L field_name value (JObj (dict_set key x fs))
  = validate_field_value L field_name value (JObj fs).
Proof.
  intros Ht Hk1 Hk2 Hk3.
  assert (E1 : String.eqb "type" key = false)
    by (apply String.eqb_neq; congruence).
  assert (E2 : String.eqb "minimum" key = false)
    by (apply String.eqb_neq; congruence).
  assert (E3 : String.eqb "maximum" key = false)
    by (apply String.eqb_neq; congruence).
  unfold validate_field_value. rewrite (get_default_set_other _ _ _ _ _ E1).
  destruct Ht as [-> | ->]; cbn [py_eq_str String.eqb Ascii.eqb Bool.eqb orb];
    unfold validate_numeric, check_minimum, check_maximum;
    rewrite (dict_get_set_other _ _ _ _ E2), (dict_get_set_other _ _ _ _ E3);
    reflexivity.
Qed.

Lemma numeric_field_reads_only_its_bounds_witness :
  validate_field_value plain_lib "age" (FStr "7")
    (JObj (dict_set "enum" (JArr [JInt 1; JInt 2])
             [("type", JStr "integer")]))
  = validate_field_value plain_lib "age" (FStr "7")
      (JObj [("type", JStr "integer")]).
Proof.
  refine (numeric_field_reads_only_its_bounds plain_lib "age" "enum"
            (JArr [JInt 1; JInt 2]) (FStr "7") [("type", JStr "integer")]
            (or_introl eq_refl) _ _ _); discriminate.
Defined.

Lemma no_string_not_found s l :
  Forall (fun y => forall t, y <> JStr t) l ->
  existsb (form_eq_json (FStr s)) l = false.
Proof.
  induction 1 as [|y l Hy _ IH]; [reflexivity|].
  cbn [existsb]. rewrite IH, orb_false_r. destruct y; try reflexivity.
  exfalso. eapply Hy. reflexivity.
Qed.

(** X15: on a string field whose [enum] lists no string (numbers, say),
    every string value raises [TypeError]: the value is not found among
    the members, and the message cannot be built because [join] accepts
    strings only. *)
Theorem enum_without_strings_raises
  (L : pylib) (field_name s : string) (fs : list (string * json))
  (x : json) (l : list json) (e1 e2 e3 : list string) :
  get_default "type" (JStr "string") fs = JStr "string" ->
  dict_get "enum" fs = Some (JArr (x :: l)) ->
  Forall (fun y => forall t, y <> JStr t) (x :: l) ->
  check_min_length L field_name (FStr s) fs = Ret e1 ->
  check_max_length L field_name (FStr s) fs = Ret e2 ->
  check_pattern L field_name (FStr s) fs = Ret e3 ->
  validate_field_value L field_name (FStr s) (JObj fs) = Raise TypeError.
Proof.
  intros Ht He Hno H1 H2 H3.
  rewrite (validate_field_string _ _ _ _ Ht). unfold validate_string.
  rewrite H1, H2, H3. cbn [bind]. unfold check_enum. rewrite He.
  cbn [form_in bind]. rewrite (no_string_not_found _ _ Hno).
  inversion Hno as [|? ? Hx _]; subst.
  destruct x; try reflexivity. exfalso. eapply Hx. reflexivity.
Qed.

Lemma enum_without_strings_raises_witness :
  validate_field_value plain_lib "level" (FStr "1")
    (JObj [("enum", JArr [JInt 1; JInt 2])]) = Raise TypeError.
Proof.
  refine (enum_without_strings_raises plain_lib "level" "1"
            [("enum", JArr [JInt 1; JInt 2])] (JInt 1) [JInt 2] [] [] []
            eq_refl eq_refl _ eq_refl eq_refl eq_refl).
  repeat constructor; discriminate.
Defined.

(** ** Classifier *)

(** X16: the input type depends on [type], [format] and the presence of
    [enum] only: setting any other key of the field schema, [pattern]
    included, leaves it as it was. *)
Theorem input_type_reads_type_format_enum
  (fs : list (string * json)) (key : string) (x : json) :
  key <> "type" -> key <> "format" -> key <> "enum" ->
  get_input_type (JObj (dict_set key x fs)) = get_input_type (JObj fs).
Proof.
  intros Hk1 Hk2 Hk3.
  assert (E1 : String.eqb "type" key = false)
    by (apply String.eqb_neq; congruence).
  assert (E2 : String.eqb "format" key = false)
    by (apply String.eqb_neq; congruence).
  assert (E3 : String.eqb "enum" key = false)
    by (apply String.eqb_neq; congruence).
  unfold get_input_type, dict_mem.
  rewrite (get_default_set_other _ _ _ _ _ E1),
    (get_default_set_other _ _ _ _ _ E2), (dict_get_set_other _ _ _ _ E3).
  repeat match goal with
         | |- context [if ?b then _ else _] => destruct b
         end; reflexivity.
Qed.

Lemma input_type_reads_type_format_enum_witness :
  get_input_type
    (JObj (dict_set "pattern" (JStr "^a") [("type", JStr "string")]))
  = get_input_type (JObj [("type", JStr "string")]).
Proof.
  refine (input_type_reads_type_format_enum [("type", JStr "string")]
            "pattern" (JStr "^a") _ _ _); discriminate.
Defined.

(** ** The request handler *)

(** X18: a submission in which a name is sent as a field and, after it,
    as the group of another field is answered with status 500 and
    [TypeError], whatever the schema. *)
Theorem leaf_then_group_is_answered_500
  (L : pylib) (fuel : nat) (schema : json)
  (form_data : list (string * list string)) (t : form) (pre : list string)
  (s key : string) (values : list string) :
  parse_nested_form_data (flat_data_of form_data) = Ret t ->
  kind_at pre t = Leaf s ->
  prefix_of pre (removelast (split_on "." key)) = true ->
  handle_validation L fuel schema (form_data ++ [(key, values)])
  = Ret (SendError 500 TypeError).
Proof.
  intros Ht Hk Hp. unfold handle_validation, flat_data_of.
  rewrite map_app. cbn [map fst snd].
  fold (flat_data_of form_data).
  rewrite (parse_through_leaf _ _ _ _ _ (first_value values) Ht Hk Hp).
  reflexivity.
Qed.

Lemma leaf_then_group_is_answered_500_witness :
  handle_validation plain_lib 0 name_schema
    ([("name", ["ann"])] ++ [("name.first", ["a"])])
  = Ret (SendError 500 TypeError).
Proof.
  exact (leaf_then_group_is_answered_500 plain_lib 0 name_schema
           [("name", ["ann"])] (FMap [("name", FStr "ann")]) ["name"] "ann"
           "name.first" ["a"] eq_refl eq_refl eq_refl).
Defined.

Lemma first_value_firstn value :
  first_value (firstn 1 value) = first_value value.
Proof. destruct value; reflexivity. Qed.

(** X19: of a field sent several times only the first value counts: the
    answer is the same as for the form with every list of values cut
    after its first. *)
Theorem only_first_value_counts
  (L : pylib) (fuel : nat) (schema : json)
  (form_data : list (string * list string)) :
  handle_validation L fuel schema
    (map (fun kv => (fst kv, firstn 1 (snd kv))) form_data)
  = handle_validation L fuel schema form_data.
Proof.
  unfold handle_validation, flat_data_of. rewrite map_map. cbn [fst snd].
  rewrite (map_ext _ (fun kv => (fst kv, first_value (snd kv))));
    [reflexivity|].
  intros kv. rewrite first_value_firstn. reflexivity.
Qed.

(** ** The request handler and a schema that does not resolve *)

Lemma parse_outcome flat :
  (exists d, parse_nested_form_data flat = Ret (FMap d))
  \/ parse_nested_form_data flat = Raise TypeError.
Proof.
  destruct (no_leaf_first (map fst flat)) eqn:E.
  - left. destruct (assembled_last_set flat E) as (t & Ht & _).
    pose proof (foldM_assemble flat [] t Ht) as ->. eauto.
  - right. apply assembly_raises. exact E.
Qed.

Lemma resolve_within_obj_plain limit d full :
  dict_get "$ref" d = None ->
  resolve_within limit (JObj d) full
  = (result <- mapM (fun kv => v <- nested_call limit full (snd kv) ;;
                               Ret (fst kv, v)) d ;;
     Ret (JObj result)).
Proof.
  intros H. rewrite resolve_within_unfold. unfold resolve_call.
  rewrite H. reflexivity.
Qed.

Lemma cycle_raises limit :
  resolve_within limit cyclic_schema cyclic_schema = Raise RecursionError.
Proof.
  destruct limit as [|[|limit]]; try reflexivity.
  unfold cyclic_schema at 1.
  rewrite resolve_within_obj_plain by reflexivity.
  rewrite mapM_cons. cbn [snd fst nested_call].
  rewrite resolve_within_obj_plain by reflexivity.
  rewrite mapM_cons. cbn [snd fst nested_call].
  rewrite (proj1 (cycle_nodes_raise limit)). reflexivity.
Qed.

(** X20: while the document the server has loaded is one on which the
    resolution raises (the recursion limit is reached, as on every
    document with a cycle of references, or a ["$ref"] is not a string),
    every submission is answered with status 500, whatever was
    submitted. *)
Theorem unresolvable_schema_answers_500
  (L : pylib) (limit : nat) (schema : json) (e : exn)
  (form_data : list (string * list string)) :
  resolve_within limit schema schema = Raise e ->
  exists e', handle_validation L limit schema form_data
             = Ret (SendError 500 e').
Proof.
  intros Hres. unfold handle_validation. cbv zeta.
  destruct (parse_outcome (flat_data_of form_data)) as [[d ->] | ->];
    cbn [bind]; [|eauto].
  destruct (walk_nested limit (FMap d)) as [[]| |] eqn:Ew; cbn [bind].
  - unfold validate_within. rewrite Hres. cbn [bind]. eauto.
  - eauto.
  - unfold walk_nested in Ew.
    destruct (form_height (FMap d) <=? limit)%nat; discriminate.
Qed.

Lemma unresolvable_schema_answers_500_witness :
  resolve_within 1000 cyclic_schema cyclic_schema = Raise RecursionError
  /\ exists e', handle_validation plain_lib 1000 cyclic_schema
                  [("x", ["1"])]
                = Ret (SendError 500 e').
Proof.
  assert (H : resolve_within 1000 cyclic_schema cyclic_schema
              = Raise RecursionError) by apply cycle_raises.
  split; [exact H|].
  exact (unresolvable_schema_answers_500 plain_lib 1000 cyclic_schema
           RecursionError [("x", ["1"])] H).
Defined.
